(** * chant: the tag editor's reconciliation and commit model

    A shallow embedding of the front-end logic of the music-library
    manager: the field reconciler and the commit builder of
    [components/TrackEditorPanel.tsx], the validator registry of
    [lib/validators.ts] and the deduplicating cover-art lookups of
    [hooks/useCoverArt.ts].

    Conventions of the embedding.
    - A JavaScript string is a [string]; each [ascii] stands for one code
      unit, so the model covers strings over the Latin-1 range.
    - A JavaScript number that the code only ever uses as an integer is a
      [Z]; [NaN] is kept apart ([number]).  Rounding of integers beyond
      2^53 is not modelled: what is said of a numeral that the user types
      is said of inputs that are [JS.short].
    - [null] is [None]; an object used as a dictionary is a [gmap].  A
      lookup in the validator table is a lookup among its own keys: what
      is said of the frame id of a tag is said of ids that are
      [Validators.plain_key], not names of members of [Object.prototype].
    - React state is a record that every handler transforms; an [await]
      reads the settled promise from a backend oracle. *)

From Stdlib Require Import ZArith Ascii String Bool Lia.
From stdpp Require Import base tactics option list gmap strings pretty.

Local Open Scope string_scope.
Local Open Scope list_scope.
Set Warnings "-clear-no-such-hyp".

(** ** JavaScript primitives used by the editor *)

Module JS.

(** A number as the editor sees it: an integer or [NaN]. *)
Inductive number :=
| NaN
| Num (z : Z).

#[global] Instance number_eq_dec : EqDecision number.
Proof. solve_decision. Defined.

(** [x || null] on a number: [NaN], [0] and [-0] are falsy. *)
Definition or_null (n : number) : option number :=
  match n with
  | NaN => None
  | Num 0 => None
  | Num z => Some (Num z)
  end.

(** Truthiness of a string: only the empty string is falsy. *)
Definition truthy (s : string) : bool :=
  match s with
  | EmptyString => false
  | String _ _ => true
  end.

(** Truthiness of [string | null | undefined]. *)
Definition truthy_opt (v : option string) : bool :=
  match v with
  | None => false
  | Some s => truthy s
  end.

(** [WhiteSpace] and [LineTerminator] code points below 256:
    TAB, LF, VT, FF, CR, SP and NBSP. *)
Definition isWhiteSpace (c : ascii) : bool :=
  let n := nat_of_ascii c in
  (((9 <=? n) && (n <=? 13)) || (n =? 32) || (n =? 160))%nat.

Fixpoint trimStart (s : string) : string :=
  match s with
  | EmptyString => EmptyString
  | String c s' => if isWhiteSpace c then trimStart s' else s
  end.

(** [trimEnd] keeps a character when it is not white space or when
    something survives to its right. *)
Fixpoint trimEnd (s : string) : string :=
  match s with
  | EmptyString => EmptyString
  | String c s' =>
      match trimEnd s' with
      | EmptyString => if isWhiteSpace c then EmptyString else String c EmptyString
      | r => String c r
      end
  end.

(** [String.prototype.trim]. *)
Definition trim (s : string) : string := trimEnd (trimStart s).

(** [String.prototype.split] with a non-empty string separator: [cur]
    is the segment being read, [skip] the number of characters of a
    separator occurrence still to be dropped. *)
Fixpoint split_go (sep : string) (skip : nat) (cur s : string) : list string :=
  match s with
  | EmptyString => [cur]
  | String c s' =>
      match skip with
      | S k => split_go sep k cur s'
      | O =>
          if String.prefix sep s
          then cur :: split_go sep (String.length sep - 1) EmptyString s'
          else split_go sep 0 (cur +:+ String c EmptyString) s'
      end
  end.

Definition split (sep s : string) : list string := split_go sep 0 EmptyString s.

(** [Array.prototype.join] on an array of strings. *)
Definition join (sep : string) (l : list string) : string := String.concat sep l.

(** Value of a character as a digit of [parseInt], in any radix. *)
Definition digitValue (c : ascii) : option Z :=
  let n := Z.of_nat (nat_of_ascii c) in
  if (48 <=? n)%Z && (n <=? 57)%Z then Some (n - 48)%Z
  else if (97 <=? n)%Z && (n <=? 122)%Z then Some (n - 87)%Z
  else if (65 <=? n)%Z && (n <=? 90)%Z then Some (n - 55)%Z
  else None.

(** The longest prefix of radix-[R] digits, as a number; [None] when the
    prefix is empty. *)
Fixpoint parseDigits (R : Z) (acc : option Z) (s : string) : option Z :=
  match s with
  | EmptyString => acc
  | String c s' =>
      match digitValue c with
      | Some d =>
          if (d <? R)%Z
          then parseDigits R (Some (default 0 acc * R + d)%Z) s'
          else acc
      | None => acc
      end
  end.

(** [parseInt(s)] with no radix argument: leading white space is
    dropped, a sign is read, a [0x]/[0X] prefix selects radix 16.  The
    integer read is returned as it is.  The code returns the double
    nearest to it: the same number for an input that is [short], a rounded
    one for longer numerals, and [Infinity], which [number] does not hold,
    from some 309 digits on. *)
Definition parseInt (s : string) : number :=
  let s1 := trimStart s in
  let '(sign, s2) :=
    match s1 with
    | String "-" r => ((-1)%Z, r)
    | String "+" r => (1%Z, r)
    | _ => (1%Z, s1)
    end in
  let '(R, s3) :=
    match s2 with
    | String "0" (String "x" r) => (16%Z, r)
    | String "0" (String "X" r) => (16%Z, r)
    | _ => (10%Z, s2)
    end in
  match parseDigits R None s3 with
  | None => NaN
  | Some m => Num (sign * m)
  end.

(** An input of at most 15 characters: whatever [parseInt] reads in it
    is below [2^53] (15 decimal digits stay below [10^15], 13 hexadecimal
    digits below [2^52]) and is a double. *)
Definition short (s : string) : Prop := (String.length s <= 15)%nat.

(** [String(n)] on an integer. *)
Definition String_of (n : Z) : string := pretty n.

(** A value sent to the backend: [null], a string or a number. *)
Inductive jsval :=
| VNull
| VStr (s : string)
| VNum (n : number).

#[global] Instance jsval_eq_dec : EqDecision jsval.
Proof. solve_decision. Defined.

Definition of_nullable_number (n : option number) : jsval :=
  match n with
  | None => VNull
  | Some n => VNum n
  end.

End JS.

(** ** Regular expressions of the validators

    Every pattern of the registry is anchored at both ends ([^...$], no
    flags), so [RegExp.prototype.test] is a match of the whole input. *)

Module Regex.

Inductive regex :=
| Void
| Eps
| Class (p : ascii -> bool)
| Cat (r1 r2 : regex)
| Alt (r1 r2 : regex)
| Star (r : regex).

Definition Plus (r : regex) : regex := Cat r (Star r).
Definition Opt (r : regex) : regex := Alt r Eps.

Fixpoint Rep (n : nat) (r : regex) : regex :=
  match n with
  | O => Eps
  | S k => Cat r (Rep k r)
  end.

Definition Chr (c : ascii) : regex := Class (fun x => bool_decide (x = c)).

Definition in_range (lo hi : ascii) (c : ascii) : bool :=
  ((nat_of_ascii lo <=? nat_of_ascii c) && (nat_of_ascii c <=? nat_of_ascii hi))%nat.

(** [\d], [[a-z]], [[A-Z]], [[A-G]], [[A-Z0-9]], [[b#]]. *)
Definition digit : ascii -> bool := in_range "0" "9".
Definition lower : ascii -> bool := in_range "a" "z".
Definition upper : ascii -> bool := in_range "A" "Z".
Definition upper_AG : ascii -> bool := in_range "A" "G".
Definition upper_or_digit (c : ascii) : bool := upper c || digit c.
Definition flat_or_sharp (c : ascii) : bool :=
  bool_decide (c = "b"%char) || bool_decide (c = "#"%char).

Fixpoint nullable (r : regex) : bool :=
  match r with
  | Void => false
  | Eps => true
  | Class _ => false
  | Cat r1 r2 => nullable r1 && nullable r2
  | Alt r1 r2 => nullable r1 || nullable r2
  | Star _ => true
  end.

Fixpoint deriv (c : ascii) (r : regex) : regex :=
  match r with
  | Void => Void
  | Eps => Void
  | Class p => if p c then Eps else Void
  | Cat r1 r2 =>
      if nullable r1
      then Alt (Cat (deriv c r1) r2) (deriv c r2)
      else Cat (deriv c r1) r2
  | Alt r1 r2 => Alt (deriv c r1) (deriv c r2)
  | Star r1 => Cat (deriv c r1) (Star r1)
  end.

Fixpoint matches (r : regex) (w : list ascii) : bool :=
  match w with
  | [] => nullable r
  | c :: w' => matches (deriv c r) w'
  end.

(** [/^r$/.test(v)]. *)
Definition test (r : regex) (v : string) : bool :=
  matches r (list_ascii_of_string v).

(** The language of a pattern, as a relation. *)
Inductive lang : regex -> list ascii -> Prop :=
| lang_eps : lang Eps []
| lang_class p c : p c = true -> lang (Class p) [c]
| lang_cat r1 r2 w1 w2 : lang r1 w1 -> lang r2 w2 -> lang (Cat r1 r2) (w1 ++ w2)
| lang_alt_l r1 r2 w : lang r1 w -> lang (Alt r1 r2) w
| lang_alt_r r1 r2 w : lang r2 w -> lang (Alt r1 r2) w
| lang_star_nil r : lang (Star r) []
| lang_star_app r w1 w2 : lang r w1 -> lang (Star r) w2 -> lang (Star r) (w1 ++ w2).

End Regex.

(** ** The validator registry ([lib/validators.ts]) *)

Module Validators.
Import Regex.

(** [null] (here [None]) means valid, a string is the error message. *)
Definition Validator : Type := string -> option string.

(** [+v], read only where [v] has matched [/^\d{4}$/]: on a string of
    decimal digits the unary plus is its decimal value. *)
Definition decimalValue (v : string) : Z :=
  fold_left (fun acc c => (acc * 10 + (Z.of_nat (nat_of_ascii c) - 48))%Z)
            (list_ascii_of_string v) 0%Z.

Definition re_digits : regex := Plus (Class digit).
Definition re_year : regex := Rep 4 (Class digit).
Definition re_position : regex :=
  Cat (Plus (Class digit)) (Opt (Cat (Chr "/") (Plus (Class digit)))).
Definition re_lang : regex := Rep 3 (Class lower).
Definition re_key : regex :=
  Cat (Class upper_AG) (Cat (Opt (Class flat_or_sharp)) (Opt (Chr "m"))).
Definition re_isrc : regex :=
  Cat (Rep 2 (Class upper)) (Cat (Rep 3 (Class upper_or_digit)) (Rep 7 (Class digit))).

Definition bpm : Validator := fun v =>
  if test re_digits v then None else Some "Must be a non-negative integer".

Definition year : Validator := fun v =>
  if test re_year v && (1000 <=? decimalValue v)%Z && (decimalValue v <=? 2099)%Z
  then None else Some "4-digit year (1000–2099)".

Definition trackNumber : Validator := fun v =>
  if test re_position v then None else Some "Must be N or N/Total".

Definition discNumber : Validator := fun v =>
  if test re_position v then None else Some "Must be N or N/Total".

Definition commentLang : Validator := fun v =>
  if test re_lang v then None else Some "3 lowercase letters (ISO 639-2)".

Definition lyricsLang : Validator := fun v =>
  if test re_lang v then None else Some "3 lowercase letters (ISO 639-2)".

Definition TKEY : Validator := fun v =>
  if test re_key v then None else Some "Invalid musical key (e.g. Am, C#, Db)".

Definition TSRC : Validator := fun v =>
  if test re_isrc v then None else Some "Invalid ISRC".

(** The names of the members of [Object.prototype]. *)
Definition Object_prototype : list string :=
  ["constructor"; "hasOwnProperty"; "isPrototypeOf"; "propertyIsEnumerable";
   "toLocaleString"; "toString"; "valueOf"; "__proto__";
   "__defineGetter__"; "__defineSetter__"; "__lookupGetter__"; "__lookupSetter__"].

(** A key that [FIELD_VALIDATORS[key]] looks up in the table alone. *)
Definition plain_key (key : string) : Prop := key ∉ Object_prototype.

(** The registry, read as [FIELD_VALIDATORS[key]] on its own keys:
    [None] is the [undefined] of a key that the table does not have.  The
    table is an object literal, so for a key that is not [plain_key] the
    code finds the member of [Object.prototype] of that name instead of
    [undefined]; the field names that the panel reads are plain, and what
    is said of the frame id of a tag is said of plain ids. *)
Definition FIELD_VALIDATORS (key : string) : option Validator :=
  match key with
  | "bpm" => Some bpm
  | "year" => Some year
  | "trackNumber" => Some trackNumber
  | "discNumber" => Some discNumber
  | "commentLang" => Some commentLang
  | "lyricsLang" => Some lyricsLang
  | "TKEY" => Some TKEY
  | "TSRC" => Some TSRC
  | _ => None
  end.

End Validators.

(** ** The field reconciler ([components/TrackEditorPanel.tsx]) *)

(** The editable attributes of a [TrackRow] of the bindings.  The
    technical ones (duration, format, path, ...) are read by no function
    of the model and are left out. *)
Module Track.

Record TrackRow := {
  id : Z;
  title : string;
  artistName : option string;
  albumTitle : option string;
  albumArtist : option string;
  composer : option string;
  year : option Z;
  genre : option string;
  trackNumber : option Z;
  trackTotal : option Z;
  discNumber : option Z;
  discTotal : option Z;
  bpm : option Z;
  comment : option string;
  commentLang : option string;
  lyrics : option string;
  lyricsLang : option string
}.

End Track.

Module Editor.
Import JS.
Export Track(TrackRow).

Inductive FieldState (T : Type) :=
| uniform (value : T)
| divergent (values : list T)
| edited (value : T).

Arguments uniform {T} value.
Arguments divergent {T} values.
Arguments edited {T} value.

(** [fs.kind === "edited"] *)
Definition is_edited {T} (fs : FieldState T) : bool :=
  match fs with
  | edited _ => true
  | _ => false
  end.

(** The default equality of [computeField], [a === b], on strings and
    [null]. *)
Definition strict_eq {T} `{EqDecision T} (a b : T) : bool := bool_decide (a = b).

Section ComputeField.
Context {Row T : Type} `{Inhabited T}.

(** [values[0]] is [values !!! 0]: on an empty array JavaScript gives
    [undefined], which [T] does not have, and the model gives the
    inhabitant of [T]. *)
Definition computeField (tracks : list Row) (extract : Row -> T)
           (eq : T -> T -> bool) : FieldState T :=
  let values := map extract tracks in
  if forallb (fun v => eq v (values !!! 0%nat)) values
  then uniform (values !!! 0%nat)
  else divergent values.

End ComputeField.

Definition displayValue {T} (fs : FieldState T) : option T :=
  match fs with
  | divergent _ => None
  | uniform v => Some v
  | edited v => Some v
  end.

Record EditState := {
  title : FieldState (string);
  artistNames : FieldState (list string);
  albumTitle : FieldState (option string);
  albumArtist : FieldState (option string);
  composer : FieldState (option string);
  year : FieldState (option string);
  genre : FieldState (option string);
  trackNumber : FieldState (option string);
  discNumber : FieldState (option string);
  bpm : FieldState (option string);
  comment : FieldState (option string);
  commentLang : FieldState (option string);
  lyrics : FieldState (option string);
  lyricsLang : FieldState (option string)
}.

(** The projection of the artist field: split on [" / "], trim, drop the
    empty segments. *)
Definition artistList (t : TrackRow) : list string :=
  match Track.artistName t with
  | Some a =>
      if truthy a
      then filter (fun s => truthy s = true) (map trim (split " / " a))
      else []
  | None => []
  end.

(** The projection of a position: [N/Total], [N] or [null]. *)
Definition positionString (number total : option Z) : option string :=
  match number with
  | None => None
  | Some n =>
      match total with
      | Some t => Some (String_of n +:+ "/" +:+ String_of t)
      | None => Some (String_of n)
      end
  end.

Definition buildEditState (tracks : list TrackRow) : EditState := {|
  title := computeField tracks Track.title strict_eq;
  artistNames :=
    computeField tracks artistList
                 (fun a b => bool_decide (join "," a = join "," b));
  albumTitle := computeField tracks Track.albumTitle strict_eq;
  albumArtist := computeField tracks Track.albumArtist strict_eq;
  composer := computeField tracks Track.composer strict_eq;
  year := computeField tracks (fun t => String_of <$> Track.year t) strict_eq;
  genre := computeField tracks Track.genre strict_eq;
  trackNumber :=
    computeField tracks
                 (fun t => positionString (Track.trackNumber t) (Track.trackTotal t))
                 strict_eq;
  discNumber :=
    computeField tracks
                 (fun t => positionString (Track.discNumber t) (Track.discTotal t))
                 strict_eq;
  bpm := computeField tracks (fun t => String_of <$> Track.bpm t) strict_eq;
  comment := computeField tracks Track.comment strict_eq;
  commentLang := computeField tracks Track.commentLang strict_eq;
  lyrics := computeField tracks Track.lyrics strict_eq;
  lyricsLang := computeField tracks Track.lyricsLang strict_eq
|}.

Record TrackDisc := { num : option number; total : option number }.

(** [parts[0]] of a non-empty string always exists; were it missing,
    [parseInt(undefined)] would be [NaN]. *)
Definition parseTrackDisc (val : option string) : TrackDisc :=
  match val with
  | None => {| num := None; total := None |}
  | Some v =>
      if negb (truthy v) then {| num := None; total := None |}
      else
        let parts := split "/" v in
        {| num := or_null (from_option parseInt NaN (parts !! 0%nat));
           total :=
             match parts !! 1%nat with
             | Some p1 => if truthy p1 then or_null (parseInt p1) else None
             | None => None
             end |}
  end.

(** The keys of the editor's fields. *)
Inductive FieldKey :=
| K_title
| K_artistNames
| K_albumTitle
| K_albumArtist
| K_composer
| K_year
| K_genre
| K_trackNumber
| K_discNumber
| K_bpm
| K_comment
| K_commentLang
| K_lyrics
| K_lyricsLang.

#[global] Instance FieldKey_eq_dec : EqDecision FieldKey.
Proof. solve_decision. Defined.

Definition all_keys : list FieldKey :=
  [K_title; K_artistNames; K_albumTitle; K_albumArtist; K_composer; K_year; K_genre; K_trackNumber; K_discNumber; K_bpm; K_comment; K_commentLang; K_lyrics; K_lyricsLang].

Definition fieldType (k : FieldKey) : Type :=
  match k with
  | K_title => string
  | K_artistNames => list string
  | _ => option string
  end.

(** [editState[field]] *)
Definition getField (k : FieldKey) (es : EditState) : FieldState (fieldType k) :=
  match k with
  | K_title => title es
  | K_artistNames => artistNames es
  | K_albumTitle => albumTitle es
  | K_albumArtist => albumArtist es
  | K_composer => composer es
  | K_year => year es
  | K_genre => genre es
  | K_trackNumber => trackNumber es
  | K_discNumber => discNumber es
  | K_bpm => bpm es
  | K_comment => comment es
  | K_commentLang => commentLang es
  | K_lyrics => lyrics es
  | K_lyricsLang => lyricsLang es
  end.

(** [{ ...prev, [field]: fs }] *)
Definition withField (k : FieldKey) : FieldState (fieldType k) -> EditState -> EditState :=
  match k with
  | K_title => fun fs es =>
      {| title := fs; artistNames := artistNames es; albumTitle := albumTitle es; albumArtist := albumArtist es; composer := composer es;
         year := year es; genre := genre es; trackNumber := trackNumber es; discNumber := discNumber es; bpm := bpm es;
         comment := comment es; commentLang := commentLang es; lyrics := lyrics es; lyricsLang := lyricsLang es |}
  | K_artistNames => fun fs es =>
      {| title := title es; artistNames := fs; albumTitle := albumTitle es; albumArtist := albumArtist es; composer := composer es;
         year := year es; genre := genre es; trackNumber := trackNumber es; discNumber := discNumber es; bpm := bpm es;
         comment := comment es; commentLang := commentLang es; lyrics := lyrics es; lyricsLang := lyricsLang es |}
  | K_albumTitle => fun fs es =>
      {| title := title es; artistNames := artistNames es; albumTitle := fs; albumArtist := albumArtist es; composer := composer es;
         year := year es; genre := genre es; trackNumber := trackNumber es; discNumber := discNumber es; bpm := bpm es;
         comment := comment es; commentLang := commentLang es; lyrics := lyrics es; lyricsLang := lyricsLang es |}
  | K_albumArtist => fun fs es =>
      {| title := title es; artistNames := artistNames es; albumTitle := albumTitle es; albumArtist := fs; composer := composer es;
         year := year es; genre := genre es; trackNumber := trackNumber es; discNumber := discNumber es; bpm := bpm es;
         comment := comment es; commentLang := commentLang es; lyrics := lyrics es; lyricsLang := lyricsLang es |}
  | K_composer => fun fs es =>
      {| title := title es; artistNames := artistNames es; albumTitle := albumTitle es; albumArtist := albumArtist es; composer := fs;
         year := year es; genre := genre es; trackNumber := trackNumber es; discNumber := discNumber es; bpm := bpm es;
         comment := comment es; commentLang := commentLang es; lyrics := lyrics es; lyricsLang := lyricsLang es |}
  | K_year => fun fs es =>
      {| title := title es; artistNames := artistNames es; albumTitle := albumTitle es; albumArtist := albumArtist es; composer := composer es;
         year := fs; genre := genre es; trackNumber := trackNumber es; discNumber := discNumber es; bpm := bpm es;
         comment := comment es; commentLang := commentLang es; lyrics := lyrics es; lyricsLang := lyricsLang es |}
  | K_genre => fun fs es =>
      {| title := title es; artistNames := artistNames es; albumTitle := albumTitle es; albumArtist := albumArtist es; composer := composer es;
         year := year es; genre := fs; trackNumber := trackNumber es; discNumber := discNumber es; bpm := bpm es;
         comment := comment es; commentLang := commentLang es; lyrics := lyrics es; lyricsLang := lyricsLang es |}
  | K_trackNumber => fun fs es =>
      {| title := title es; artistNames := artistNames es; albumTitle := albumTitle es; albumArtist := albumArtist es; composer := composer es;
         year := year es; genre := genre es; trackNumber := fs; discNumber := discNumber es; bpm := bpm es;
         comment := comment es; commentLang := commentLang es; lyrics := lyrics es; lyricsLang := lyricsLang es |}
  | K_discNumber => fun fs es =>
      {| title := title es; artistNames := artistNames es; albumTitle := albumTitle es; albumArtist := albumArtist es; composer := composer es;
         year := year es; genre := genre es; trackNumber := trackNumber es; discNumber := fs; bpm := bpm es;
         comment := comment es; commentLang := commentLang es; lyrics := lyrics es; lyricsLang := lyricsLang es |}
  | K_bpm => fun fs es =>
      {| title := title es; artistNames := artistNames es; albumTitle := albumTitle es; albumArtist := albumArtist es; composer := composer es;
         year := year es; genre := genre es; trackNumber := trackNumber es; discNumber := discNumber es; bpm := fs;
         comment := comment es; commentLang := commentLang es; lyrics := lyrics es; lyricsLang := lyricsLang es |}
  | K_comment => fun fs es =>
      {| title := title es; artistNames := artistNames es; albumTitle := albumTitle es; albumArtist := albumArtist es; composer := composer es;
         year := year es; genre := genre es; trackNumber := trackNumber es; discNumber := discNumber es; bpm := bpm es;
         comment := fs; commentLang := commentLang es; lyrics := lyrics es; lyricsLang := lyricsLang es |}
  | K_commentLang => fun fs es =>
      {| title := title es; artistNames := artistNames es; albumTitle := albumTitle es; albumArtist := albumArtist es; composer := composer es;
         year := year es; genre := genre es; trackNumber := trackNumber es; discNumber := discNumber es; bpm := bpm es;
         comment := comment es; commentLang := fs; lyrics := lyrics es; lyricsLang := lyricsLang es |}
  | K_lyrics => fun fs es =>
      {| title := title es; artistNames := artistNames es; albumTitle := albumTitle es; albumArtist := albumArtist es; composer := composer es;
         year := year es; genre := genre es; trackNumber := trackNumber es; discNumber := discNumber es; bpm := bpm es;
         comment := comment es; commentLang := commentLang es; lyrics := fs; lyricsLang := lyricsLang es |}
  | K_lyricsLang => fun fs es =>
      {| title := title es; artistNames := artistNames es; albumTitle := albumTitle es; albumArtist := albumArtist es; composer := composer es;
         year := year es; genre := genre es; trackNumber := trackNumber es; discNumber := discNumber es; bpm := bpm es;
         comment := comment es; commentLang := commentLang es; lyrics := lyrics es; lyricsLang := fs |}
  end.

(** [fs.kind === "edited"] at a key. *)
Definition edited_at (es : EditState) (k : FieldKey) : bool :=
  is_edited (getField k es).


(** *** The commit builder *)

(** A [TrackUpdateInput]: an object whose keys are all optional. *)
Abbreviation TrackUpdateInput := (gmap string jsval).

(** [if (fs.kind === "edited") { ... fs.value ... }] on the patch
    being built. *)
Definition when_edited {T} (fs : FieldState T)
           (assign : T -> TrackUpdateInput -> TrackUpdateInput)
           (input : TrackUpdateInput) : TrackUpdateInput :=
  match fs with
  | edited v => assign v input
  | _ => input
  end.

(** [v ? parseInt(v) : null] *)
Definition number_or_null (v : option string) : jsval :=
  match v with
  | Some s => if truthy s then VNum (parseInt s) else VNull
  | None => VNull
  end.

(** The patch of [save], "only include edited fields". *)
Definition buildInput (es : EditState) : TrackUpdateInput :=
  let input : TrackUpdateInput := ∅ in
  let input :=
    when_edited (title es)
      (fun v => <["title" := if truthy v then VStr v else VNull]>) input in
  let input :=
    when_edited (artistNames es)
      (fun v => <["artistName" :=
                    VStr (if bool_decide (0 < length v) then join " / " v else "")]>)
      input in
  let input :=
    when_edited (albumTitle es) (fun v => <["albumTitle" := VStr (default "" v)]>) input in
  let input :=
    when_edited (albumArtist es) (fun v => <["albumArtist" := VStr (default "" v)]>) input in
  let input :=
    when_edited (composer es) (fun v => <["composer" := VStr (default "" v)]>) input in
  let input :=
    when_edited (genre es) (fun v => <["genre" := VStr (default "" v)]>) input in
  let input :=
    when_edited (year es) (fun v => <["year" := number_or_null v]>) input in
  let input :=
    when_edited (bpm es) (fun v => <["bpm" := number_or_null v]>) input in
  let input :=
    when_edited (comment es) (fun v => <["comment" := VStr (default "" v)]>) input in
  let input :=
    when_edited (commentLang es) (fun v => <["commentLang" := VStr (default "" v)]>) input in
  let input :=
    when_edited (lyrics es) (fun v => <["lyrics" := VStr (default "" v)]>) input in
  let input :=
    when_edited (lyricsLang es) (fun v => <["lyricsLang" := VStr (default "" v)]>) input in
  let input :=
    when_edited (trackNumber es)
      (fun v m =>
         let td := parseTrackDisc v in
         <["trackTotal" := of_nullable_number (total td)]>
           (<["trackNumber" := of_nullable_number (num td)]> m))
      input in
  let input :=
    when_edited (discNumber es)
      (fun v m =>
         let td := parseTrackDisc v in
         <["discTotal" := of_nullable_number (total td)]>
           (<["discNumber" := of_nullable_number (num td)]> m))
      input in
  input.

(** *** The panel and its React state *)

Record Artist := { artist_id : Z; name : string }.
Record Album := { album_id : Z; album_title : string }.
Record ExtraTag := { frame_id : string; value : string }.

(** The prop [trackIds] and the state variables of [TrackEditorPanel]. *)
Record Panel := {
  trackIds : list Z;
  tracks : list TrackRow;
  loading : bool;
  saving : bool;
  saved : bool;
  editState : option EditState;
  errors : gmap string string;
  artistSuggestions : list Artist;
  albumSuggestions : list Album;
  extraTags : list ExtraTag;
  extraTagErrors : gmap string string;
  showAddFrame : bool
}.

(** The state a freshly mounted panel starts from. *)
Definition mount (ids : list Z) : Panel := {|
  trackIds := ids; tracks := []; loading := true; saving := false;
  saved := false; editState := None; errors := ∅;
  artistSuggestions := []; albumSuggestions := []; extraTags := [];
  extraTagErrors := ∅; showAddFrame := false
|}.

Definition withTrackIds (v : list Z) (p : Panel) : Panel :=
  {| trackIds := v; tracks := tracks p; loading := loading p; saving := saving p;
     saved := saved p; editState := editState p; errors := errors p; artistSuggestions := artistSuggestions p;
     albumSuggestions := albumSuggestions p; extraTags := extraTags p; extraTagErrors := extraTagErrors p; showAddFrame := showAddFrame p |}.

Definition setTracks (v : list TrackRow) (p : Panel) : Panel :=
  {| trackIds := trackIds p; tracks := v; loading := loading p; saving := saving p;
     saved := saved p; editState := editState p; errors := errors p; artistSuggestions := artistSuggestions p;
     albumSuggestions := albumSuggestions p; extraTags := extraTags p; extraTagErrors := extraTagErrors p; showAddFrame := showAddFrame p |}.

Definition setLoading (v : bool) (p : Panel) : Panel :=
  {| trackIds := trackIds p; tracks := tracks p; loading := v; saving := saving p;
     saved := saved p; editState := editState p; errors := errors p; artistSuggestions := artistSuggestions p;
     albumSuggestions := albumSuggestions p; extraTags := extraTags p; extraTagErrors := extraTagErrors p; showAddFrame := showAddFrame p |}.

Definition setSaving (v : bool) (p : Panel) : Panel :=
  {| trackIds := trackIds p; tracks := tracks p; loading := loading p; saving := v;
     saved := saved p; editState := editState p; errors := errors p; artistSuggestions := artistSuggestions p;
     albumSuggestions := albumSuggestions p; extraTags := extraTags p; extraTagErrors := extraTagErrors p; showAddFrame := showAddFrame p |}.

Definition setSaved (v : bool) (p : Panel) : Panel :=
  {| trackIds := trackIds p; tracks := tracks p; loading := loading p; saving := saving p;
     saved := v; editState := editState p; errors := errors p; artistSuggestions := artistSuggestions p;
     albumSuggestions := albumSuggestions p; extraTags := extraTags p; extraTagErrors := extraTagErrors p; showAddFrame := showAddFrame p |}.

Definition setEditState (v : option EditState) (p : Panel) : Panel :=
  {| trackIds := trackIds p; tracks := tracks p; loading := loading p; saving := saving p;
     saved := saved p; editState := v; errors := errors p; artistSuggestions := artistSuggestions p;
     albumSuggestions := albumSuggestions p; extraTags := extraTags p; extraTagErrors := extraTagErrors p; showAddFrame := showAddFrame p |}.

Definition setErrors (v : gmap string string) (p : Panel) : Panel :=
  {| trackIds := trackIds p; tracks := tracks p; loading := loading p; saving := saving p;
     saved := saved p; editState := editState p; errors := v; artistSuggestions := artistSuggestions p;
     albumSuggestions := albumSuggestions p; extraTags := extraTags p; extraTagErrors := extraTagErrors p; showAddFrame := showAddFrame p |}.

Definition setArtistSuggestions (v : list Artist) (p : Panel) : Panel :=
  {| trackIds := trackIds p; tracks := tracks p; loading := loading p; saving := saving p;
     saved := saved p; editState := editState p; errors := errors p; artistSuggestions := v;
     albumSuggestions := albumSuggestions p; extraTags := extraTags p; extraTagErrors := extraTagErrors p; showAddFrame := showAddFrame p |}.

Definition setAlbumSuggestions (v : list Album) (p : Panel) : Panel :=
  {| trackIds := trackIds p; tracks := tracks p; loading := loading p; saving := saving p;
     saved := saved p; editState := editState p; errors := errors p; artistSuggestions := artistSuggestions p;
     albumSuggestions := v; extraTags := extraTags p; extraTagErrors := extraTagErrors p; showAddFrame := showAddFrame p |}.

Definition setExtraTags (v : list ExtraTag) (p : Panel) : Panel :=
  {| trackIds := trackIds p; tracks := tracks p; loading := loading p; saving := saving p;
     saved := saved p; editState := editState p; errors := errors p; artistSuggestions := artistSuggestions p;
     albumSuggestions := albumSuggestions p; extraTags := v; extraTagErrors := extraTagErrors p; showAddFrame := showAddFrame p |}.

Definition setExtraTagErrors (v : gmap string string) (p : Panel) : Panel :=
  {| trackIds := trackIds p; tracks := tracks p; loading := loading p; saving := saving p;
     saved := saved p; editState := editState p; errors := errors p; artistSuggestions := artistSuggestions p;
     albumSuggestions := albumSuggestions p; extraTags := extraTags p; extraTagErrors := v; showAddFrame := showAddFrame p |}.

Definition setShowAddFrame (v : bool) (p : Panel) : Panel :=
  {| trackIds := trackIds p; tracks := tracks p; loading := loading p; saving := saving p;
     saved := saved p; editState := editState p; errors := errors p; artistSuggestions := artistSuggestions p;
     albumSuggestions := albumSuggestions p; extraTags := extraTags p; extraTagErrors := extraTagErrors p; showAddFrame := v |}.



(** *** Backend commands and asynchronous handlers *)

(** A result of the bindings: [{status: "ok", data}] or
    [{status: "error", error}]. *)
Inductive Result (A : Type) :=
| ok (data : A)
| error (e : string).

Arguments ok {A} data.
Arguments error {A} e.

(** A settled promise.  A command of the bindings rejects when the
    transport throws an [Error] and fulfils with an error result when the
    backend refuses. *)
Inductive Settled (A : Type) :=
| fulfilled (v : A)
| rejected.

Arguments fulfilled {A} v.
Arguments rejected {A}.

(** What the backend answers to each command of [commands]. *)
Record Backend := {
  getTrack : Z -> Settled (Result TrackRow);
  listArtists : Settled (Result (list Artist));
  listAlbums : Settled (Result (list Album));
  getTrackExtraTags : Z -> Settled (Result (list ExtraTag));
  updateTrack : Z -> TrackUpdateInput -> Settled (Result TrackRow);
  setTrackExtraTags : Z -> list ExtraTag -> Settled (Result unit);
  batchUpdateTracks : list Z -> TrackUpdateInput -> Settled (Result unit)
}.

Inductive Call :=
| CallGetTrack (id : Z)
| CallListArtists
| CallListAlbums
| CallGetTrackExtraTags (id : Z)
| CallUpdateTrack (id : Z) (input : TrackUpdateInput)
| CallSetTrackExtraTags (id : Z) (tags : list ExtraTag)
| CallBatchUpdateTracks (ids : list Z) (input : TrackUpdateInput).

(** The one timer of the panel: [() => setSaved(false)]. *)
Inductive Timer := ClearSaved.

Inductive Effect :=
| Invoke (c : Call)
| SetTimeout (t : Timer) (ms : Z).

(** An asynchronous handler, run to completion against the backend's
    answers: it transforms the React state, records what it dispatches
    and settles like the promise of the [async] function. *)
Definition Async (A : Type) : Type :=
  Backend -> Panel -> list Effect -> Settled A * Panel * list Effect.

#[global] Instance Async_ret : MRet Async :=
  fun A a _ p tr => (fulfilled a, p, tr).

#[global] Instance Async_bind : MBind Async :=
  fun A B f m b p tr =>
    match m b p tr with
    | (fulfilled a, p', tr') => f a b p' tr'
    | (rejected, p', tr') => (rejected, p', tr')
    end.

(** A state setter of React. *)
Definition modify (f : Panel -> Panel) : Async unit :=
  fun _ p tr => (fulfilled (), f p, tr).

Definition perform (e : Effect) : Async unit :=
  fun _ p tr => (fulfilled (), p, tr ++ [e]).

(** [await commands.c(...)]: the call is dispatched, and a rejection is
    thrown. *)
Definition await {A} (c : Call) (answer : Backend -> Settled A) : Async A :=
  fun b p tr => (answer b, p, tr ++ [Invoke c]).

(** [try { body } finally { fin }] *)
Definition try_finally {A} (body : Async A) (fin : Async unit) : Async A :=
  fun b p tr =>
    match body b p tr with
    | (r, p', tr') =>
        match fin b p' tr' with
        | (fulfilled _, p'', tr'') => (r, p'', tr'')
        | (rejected, p'', tr'') => (rejected, p'', tr'')
        end
    end.

(** [try { body } catch { }] *)
Definition try_catch (body : Async unit) : Async unit :=
  fun b p tr =>
    match body b p tr with
    | (_, p', tr') => (fulfilled (), p', tr')
    end.

(** [Promise.all] over settled promises: the first rejection wins. *)
Fixpoint all {A} (l : list (Settled A)) : Settled (list A) :=
  match l with
  | [] => fulfilled []
  | rejected :: _ => rejected
  | fulfilled a :: l' =>
      match all l' with
      | fulfilled r => fulfilled (a :: r)
      | rejected => rejected
      end
  end.

(** [await Promise.all(trackIds.map((id) => commands.getTrack(id)))]:
    every call is dispatched before the first answer is read. *)
Definition await_getTracks (ids : list Z) : Async (list (Result TrackRow)) :=
  fun b p tr =>
    (all (map (getTrack b) ids), p, tr ++ map (fun i => Invoke (CallGetTrack i)) ids).

(** [await Promise.all([commands.listArtists(), commands.listAlbums(null)])] *)
Definition await_suggestions : Async (Result (list Artist) * Result (list Album)) :=
  fun b p tr =>
    (match listArtists b, listAlbums b with
     | fulfilled a, fulfilled l => fulfilled (a, l)
     | _, _ => rejected
     end, p, tr ++ [Invoke CallListArtists; Invoke CallListAlbums]).

(** [.filter((r) => r.status === "ok").map((r) => r.data)] *)
Definition oks {A} (l : list (Result A)) : list A :=
  omap (fun r => match r with ok d => Some d | error _ => None end) l.

(** [Object.keys(m).length === 0] *)
Definition no_keys {V} (m : gmap string V) : bool := bool_decide (size m = 0).

(** One of the four field checks of [validate]: the field is edited,
    its value is truthy, and the validator returns a truthy message. *)
Definition check_field (key : string) (validator : Validators.Validator)
           (fs : FieldState (option string)) (errs : gmap string string)
  : gmap string string :=
  match fs with
  | edited (Some v) =>
      if truthy v
      then match validator v with
           | Some e => if truthy e then <[key := e]> errs else errs
           | None => errs
           end
      else errs
  | _ => errs
  end.

(** The loop of [validate] over the extra tags, for a tag whose frame
    id is a plain key. *)
Definition check_tag (eteErrs : gmap string string) (tag : ExtraTag)
  : gmap string string :=
  match Validators.FIELD_VALIDATORS (frame_id tag) with
  | Some validator =>
      if truthy (value tag)
      then match validator (value tag) with
           | Some e => if truthy e then <[frame_id tag := e]> eteErrs else eteErrs
           | None => eteErrs
           end
      else eteErrs
  | None => eteErrs
  end.

Definition field_errors (es : EditState) : gmap string string :=
  let errs : gmap string string := ∅ in
  let errs := check_field "bpm" Validators.bpm (bpm es) errs in
  let errs := check_field "year" Validators.year (year es) errs in
  let errs := check_field "trackNumber" Validators.trackNumber (trackNumber es) errs in
  let errs := check_field "discNumber" Validators.discNumber (discNumber es) errs in
  errs.

Definition tag_errors (tags : list ExtraTag) : gmap string string :=
  fold_left check_tag tags ∅.

(** [validate()], on the [editState] and [extraTags] of the render [r]
    it was created in; [save] calls it with a non-null [editState]. *)
Definition validate (es : EditState) (r : Panel) : Async bool :=
  let errs := field_errors es in
  let eteErrs := tag_errors (extraTags r) in
  modify (setErrors errs);;
  modify (setExtraTagErrors eteErrs);;
  mret (no_keys errs && no_keys eteErrs).

(** [hasAnyEdit] *)
Definition hasAnyEdit (p : Panel) : bool :=
  match editState p with
  | Some es => existsb (edited_at es) all_keys
  | None => false
  end.

Definition hasValidationErrors (p : Panel) : bool :=
  negb (no_keys (errors p)) || negb (no_keys (extraTagErrors p)).

Definition isSingle (p : Panel) : bool := bool_decide (length (trackIds p) = 1).

Definition discard (p : Panel) : Panel :=
  match editState p with
  | None => p
  | Some _ =>
      if bool_decide (length (tracks p) = 0) then p
      else setExtraTagErrors ∅ (setErrors ∅ (setEditState (Some (buildEditState (tracks p))) p))
  end.

(** [save], created in the render [r]: [editState], [extraTags],
    [trackIds] and [isSingle] are those of [r]. *)
Definition save (r : Panel) : Async unit :=
  match editState r with
  | None => mret ()
  | Some es =>
      valid ← validate es r;
      if negb valid then mret ()
      else
        modify (setSaving true);;
        let input := buildInput es in
        try_finally
          ((if isSingle r
            then
              res ← await (CallUpdateTrack (trackIds r !!! 0%nat) input)
                          (fun b => updateTrack b (trackIds r !!! 0%nat) input);
              match res with
              | ok updated =>
                  modify (setTracks [updated]);;
                  modify (setEditState (Some (buildEditState [updated])));;
                  await (CallSetTrackExtraTags (trackIds r !!! 0%nat) (extraTags r))
                        (fun b => setTrackExtraTags b (trackIds r !!! 0%nat) (extraTags r));;
                  mret ()
              | error _ => mret ()
              end
            else
              await (CallBatchUpdateTracks (trackIds r) input)
                    (fun b => batchUpdateTracks b (trackIds r) input);;
              results ← await_getTracks (trackIds r);
              let reloaded := oks results in
              modify (setTracks reloaded);;
              modify (setEditState (Some (buildEditState reloaded))));;
           modify (setSaved true);;
           perform (SetTimeout ClearSaved 1500);;
           '(artistsRes, albumsRes) ← await_suggestions;
           (match artistsRes with
            | ok d => modify (setArtistSuggestions d)
            | error _ => mret ()
            end);;
           (match albumsRes with
            | ok d => modify (setAlbumSuggestions d)
            | error _ => mret ()
            end))
          (modify (setSaving false))
  end.

(** The timer set by a commit fires. *)
Definition fire (t : Timer) (p : Panel) : Panel :=
  match t with
  | ClearSaved => setSaved false p
  end.

(** The editor is on screen: neither "Loading…" nor "Track not found.". *)
Definition rendered (p : Panel) : bool :=
  negb (loading p)
  && match editState p with Some _ => true | None => false end
  && negb (bool_decide (length (tracks p) = 0)).

(** The [disabled] attribute of the Save button. *)
Definition saveDisabled (p : Panel) : bool :=
  negb (hasAnyEdit p) || saving p || saved p || hasValidationErrors p.

(** The [disabled] attribute of the Discard button. *)
Definition discardDisabled (p : Panel) : bool := negb (hasAnyEdit p).

(** A click on Save: a button that is not on screen or is disabled
    dispatches no click; otherwise [onClick={save}] runs. *)
Definition clickSave : Async unit :=
  fun b p tr =>
    if rendered p && negb (saveDisabled p) then save p b p tr
    else (fulfilled (), p, tr).


(** *** Editing *)

(** [setField(field, value)] *)
Definition setField (k : FieldKey) (v : fieldType k) (p : Panel) : Panel :=
  setEditState
    (match editState p with
     | Some prev => Some (withField k (edited v) prev)
     | None => None
     end) p.

(** [e.target.value || null] *)
Definition value_or_null (v : string) : option string :=
  if truthy v then Some v else None.

(** The [onChange] of the four checked inputs (year, track #, disc #,
    BPM): the field is set, and its entry of the error map is written or
    deleted. *)
Definition onChangeChecked (set : option string -> Panel -> Panel) (key : string)
           (validator : Validators.Validator) (v : string) (p : Panel) : Panel :=
  let p := set (value_or_null v) p in
  let err := if truthy v then validator v else None in
  setErrors
    (match err with
     | Some e => if truthy e then <[key := e]> (errors p) else delete key (errors p)
     | None => delete key (errors p)
     end) p.

Definition onChangeYear : string -> Panel -> Panel :=
  onChangeChecked (setField K_year) "year" Validators.year.
Definition onChangeTrackNumber : string -> Panel -> Panel :=
  onChangeChecked (setField K_trackNumber) "trackNumber" Validators.trackNumber.
Definition onChangeDiscNumber : string -> Panel -> Panel :=
  onChangeChecked (setField K_discNumber) "discNumber" Validators.discNumber.
Definition onChangeBpm : string -> Panel -> Panel :=
  onChangeChecked (setField K_bpm) "bpm" Validators.bpm.

(** The [onChange] of an extra-tag input, for a tag whose frame id is a
    plain key or the input empty. *)
Definition onChangeExtraTag (id val : string) (p : Panel) : Panel :=
  let p :=
    setExtraTags
      (map (fun t => if bool_decide (frame_id t = id)
                     then {| frame_id := frame_id t; value := val |} else t)
           (extraTags p)) p in
  match Validators.FIELD_VALIDATORS id with
  | Some validator =>
      if truthy val
      then setExtraTagErrors (<[id := default "" (validator val)]> (extraTagErrors p)) p
      else setExtraTagErrors (delete id (extraTagErrors p)) p
  | None => setExtraTagErrors (delete id (extraTagErrors p)) p
  end.

(** The remove button of an extra tag. *)
Definition onRemoveExtraTag (id : string) (p : Panel) : Panel :=
  let p :=
    setExtraTags (filter (fun t => frame_id t <> id) (extraTags p)) p in
  setExtraTagErrors (delete id (extraTagErrors p)) p.

(** The "Add field" select. *)
Definition onAddExtraTag (id : string) (p : Panel) : Panel :=
  if truthy id
  then setShowAddFrame false
         (setExtraTags (extraTags p ++ [{| frame_id := id; value := "" |}]) p)
  else p.

(** *** Loading *)

(** The key of the loading effect's dependency list,
    [trackIds.join(",")]. *)
Definition deps (ids : list Z) : string := join "," (map String_of ids).

(** The synchronous part of the effect, before [load()] is called. *)
Definition effect_reset (p : Panel) : Panel :=
  setExtraTags [] (setEditState None (setLoading true p)).

(** [await Promise.all([Promise.all(trackIds.map(getTrack)),
    listArtists(), listAlbums(null)])] *)
Definition await_load (ids : list Z)
  : Async (list (Result TrackRow) * Result (list Artist) * Result (list Album)) :=
  fun b p tr =>
    (match all (map (getTrack b) ids), listArtists b, listAlbums b with
     | fulfilled t, fulfilled a, fulfilled l => fulfilled (t, a, l)
     | _, _, _ => rejected
     end,
     p,
     tr ++ map (fun i => Invoke (CallGetTrack i)) ids
        ++ [Invoke CallListArtists; Invoke CallListAlbums]).

(** [load], with the [trackIds] of the render whose effect called it. *)
Definition load (ids : list Z) : Async unit :=
  try_finally
    (try_catch
       ('(trackResults, artistsRes, albumsRes) ← await_load ids;
        let loadedTracks := oks trackResults in
        modify (setTracks loadedTracks);;
        modify (setEditState (Some (buildEditState loadedTracks)));;
        (match artistsRes with
         | ok d => modify (setArtistSuggestions d)
         | error _ => mret ()
         end);;
        (match albumsRes with
         | ok d => modify (setAlbumSuggestions d)
         | error _ => mret ()
         end);;
        if bool_decide (length ids = 1)
        then
          extraRes ← await (CallGetTrackExtraTags (ids !!! 0%nat))
                           (fun b => getTrackExtraTags b (ids !!! 0%nat));
          match extraRes with
          | ok d => modify (setExtraTags d)
          | error _ => mret ()
          end
        else mret ()))
    (modify (setLoading false)).

(** The panel together with the loads that have been started and have
    not arrived yet, each with the ids it was started for. *)
Record Session := { view : Panel; inflight : list (list Z) }.

Inductive Event :=
| Select (ids : list Z)
| Arrive (k : nat) (b : Backend).

(** The panel is opened on a selection: the effect runs after the first
    render. *)
Definition open (ids : list Z) : Session :=
  {| view := effect_reset (mount ids); inflight := [ids] |}.

(** [Select ids]: the parent renders the panel with another [trackIds];
    the effect runs again when its dependency changed, and nothing is
    done about the loads in flight.  [Arrive k b]: the requests of the
    [k]-th load in flight settle as [b] says and [load] resumes. *)
Definition step (s : Session) (e : Event) : Session :=
  match e with
  | Select ids =>
      let p := withTrackIds ids (view s) in
      if bool_decide (deps ids = deps (trackIds (view s)))
      then {| view := p; inflight := inflight s |}
      else {| view := effect_reset p; inflight := inflight s ++ [ids] |}
  | Arrive k b =>
      match inflight s !! k with
      | Some ids =>
          {| view := (load ids b (view s) []).1.2; inflight := delete k (inflight s) |}
      | None => s
      end
  end.

End Editor.

(** ** The deduplicating cover-art lookups ([hooks/useCoverArt.ts])

    The three hooks of the file share one effect body over their own pair
    of maps; they differ in the key and in the command they call. *)

Module CoverArt.
Import Editor(Result, ok, error, Settled, fulfilled, rejected).

(** The [CoverArt] of the bindings. *)
Record CoverArt := { mimeType : string; data : string }.

(** [`data:${res.data.mimeType};base64,${res.data.data}`] *)
Definition dataUrl (c : CoverArt) : string :=
  "data:" +:+ mimeType c +:+ ";base64," +:+ data c.

(** The promise stored in the in-flight map: [commands.get...(arg)
    .then(...)]. *)
Inductive PromiseState :=
| Pending
| Fulfilled (url : option string)
| Rejected.

(** One call of the backend command and the promise derived from it. *)
Record Request := { req_key : Z; req_arg : Z; req_state : PromiseState }.

(** One run of the effect that went past the cache: the component whose
    [setSrc] it holds, its [key], the promise it attached to, its
    [cancelled] flag, and whether its callback has run. *)
Record Listener := {
  l_component : nat;
  l_key : Z;
  l_promise : nat;
  l_cancelled : bool;
  l_ran : bool
}.

(** The module-level maps ([coverCache]/[pending], or the album or
    artist pair), every request made so far, the listeners and the
    [src] state of the components. *)
Record Store := {
  coverCache : gmap Z (option string);
  pending : gmap Z nat;
  requests : list Request;
  listeners : list Listener;
  src : gmap nat (option string)
}.

Definition init : Store :=
  {| coverCache := ∅; pending := ∅; requests := []; listeners := []; src := ∅ |}.

Inductive Event :=
| Run (c : nat) (key arg : Z)
| Settle (q : nat) (res : Settled (Result (option CoverArt)))
| React (l : nat)
| Cleanup (l : nat).

(** The body of the effect, for component [c]: a cached key is
    answered at once; otherwise the run attaches to the promise in
    flight, issuing the request first when there is none. *)
Definition run_effect (c : nat) (key arg : Z) (s : Store) : Store :=
  match coverCache s !! key with
  | Some v =>
      {| coverCache := coverCache s; pending := pending s; requests := requests s;
         listeners := listeners s; src := <[c := v]> (src s) |}
  | None =>
      let '(q, pending', requests') :=
        match pending s !! key with
        | Some q => (q, pending s, requests s)
        | None =>
            (length (requests s),
             <[key := length (requests s)]> (pending s),
             requests s ++ [{| req_key := key; req_arg := arg; req_state := Pending |}])
        end in
      {| coverCache := coverCache s; pending := pending'; requests := requests';
         listeners :=
           listeners s ++ [{| l_component := c; l_key := key; l_promise := q;
                              l_cancelled := false; l_ran := false |}];
         src := src s |}
  end.

(** [res.status === "ok" && res.data ? url : null] *)
Definition url_of (res : Result (option CoverArt)) : option string :=
  match res with
  | ok (Some d) => Some (dataUrl d)
  | _ => None
  end.

(** The command of request [q] settles and the first [.then] runs: a
    fulfilled answer is written to the cache, a rejection is passed
    on. *)
Definition settle (q : nat) (res : Settled (Result (option CoverArt))) (s : Store)
  : option Store :=
  match requests s !! q with
  | Some {| req_key := key; req_arg := arg; req_state := Pending |} =>
      match res with
      | fulfilled r =>
          Some {| coverCache := <[key := url_of r]> (coverCache s);
                  pending := pending s;
                  requests :=
                    <[q := {| req_key := key; req_arg := arg;
                              req_state := Fulfilled (url_of r) |}]> (requests s);
                  listeners := listeners s; src := src s |}
      | rejected =>
          Some {| coverCache := coverCache s; pending := pending s;
                  requests :=
                    <[q := {| req_key := key; req_arg := arg;
                              req_state := Rejected |}]> (requests s);
                  listeners := listeners s; src := src s |}
      end
  | _ => None
  end.

(** The callback of listener [l] runs, once, after its promise is
    fulfilled: [pending.delete(key); if (!cancelled) setSrc(url)]. *)
Definition react (l : nat) (s : Store) : option Store :=
  match listeners s !! l with
  | Some li =>
      if l_ran li then None
      else
        match requests s !! l_promise li with
        | Some {| req_state := Fulfilled url |} =>
            Some {| coverCache := coverCache s;
                    pending := delete (l_key li) (pending s);
                    requests := requests s;
                    listeners :=
                      <[l := {| l_component := l_component li; l_key := l_key li;
                                l_promise := l_promise li;
                                l_cancelled := l_cancelled li; l_ran := true |}]>
                        (listeners s);
                    src := if l_cancelled li then src s
                           else <[l_component li := url]> (src s) |}
        | _ => None
        end
  | None => None
  end.

(** The cleanup of the effect run: [cancelled = true]. *)
Definition cleanup (l : nat) (s : Store) : option Store :=
  match listeners s !! l with
  | Some li =>
      Some {| coverCache := coverCache s; pending := pending s; requests := requests s;
              listeners :=
                <[l := {| l_component := l_component li; l_key := l_key li;
                          l_promise := l_promise li;
                          l_cancelled := true; l_ran := l_ran li |}]> (listeners s);
              src := src s |}
  | None => None
  end.

(** One turn of the event loop; [None] when the event cannot happen in
    this state. *)
Definition step (s : Store) (e : Event) : option Store :=
  match e with
  | Run c key arg => Some (run_effect c key arg s)
  | Settle q res => settle q res s
  | React l => react l s
  | Cleanup l => cleanup l s
  end.

Fixpoint exec (s : Store) (evs : list Event) : option Store :=
  match evs with
  | [] => Some s
  | e :: evs' =>
      match step s e with
      | Some s' => exec s' evs'
      | None => None
      end
  end.

(** The effect of [useCoverArt(trackId, albumId)]: the key is
    [albumId ?? -trackId] and the command is [getCoverArt(trackId)]. *)
Definition useCoverArt (c : nat) (trackId : Z) (albumId : option Z) : Event :=
  Run c (default (- trackId)%Z albumId) trackId.

(** The effect of [useAlbumCoverArt(albumId)]. *)
Definition useAlbumCoverArt (c : nat) (albumId : Z) : Event :=
  Run c albumId albumId.

(** The effect of [useArtistCoverArt(artistId)]. *)
Definition useArtistCoverArt (c : nat) (artistId : Z) : Event :=
  Run c artistId artistId.

(** The initial [src] of [useCoverArt]. *)
Definition useCoverArt_initial (albumId : option Z) (s : Store) : option string :=
  match albumId with
  | Some a => default None (coverCache s !! a)
  | None => None
  end.

(** The initial [src] of [useAlbumCoverArt] and [useArtistCoverArt]. *)
Definition useAlbumCoverArt_initial (albumId : Z) (s : Store) : option string :=
  default None (coverCache s !! albumId).

(** The number of backend calls made for a key. *)
Definition fetches (key : Z) (s : Store) : nat :=
  length (filter (fun r => req_key r = key) (requests s)).

End CoverArt.

(** ** The artist chips ([ArtistTagInput]) *)

Module ArtistTagInput.
Import JS.

(** The chips [value] that the parent holds (and replaces through
    [onChange]), and the widget's own state. *)
Record Chips := { value : list string; inputText : string; open : bool }.

(** [addArtist(name)] *)
Definition addArtist (name : string) (w : Chips) : Chips :=
  let trimmed := trim name in
  if negb (truthy trimmed) || bool_decide (trimmed ∈ value w) then w
  else {| value := value w ++ [trimmed]; inputText := ""; open := false |}.

(** [removeArtist(name)] *)
Definition removeArtist (name : string) (w : Chips) : Chips :=
  {| value := filter (fun v => v <> name) (value w);
     inputText := inputText w; open := open w |}.

(** [value.slice(0, -1)] *)
Definition dropLast (l : list string) : list string := take (length l - 1) l.

(** [handleKeyDown], on [e.key]. *)
Definition handleKeyDown (key : string) (w : Chips) : Chips :=
  if bool_decide (key = "Enter") || bool_decide (key = ",") then addArtist (inputText w) w
  else if bool_decide (key = "Backspace") && bool_decide (inputText w = "")
          && bool_decide (0 < length (value w))
       then {| value := dropLast (value w); inputText := inputText w; open := open w |}
  else if bool_decide (key = "Escape")
       then {| value := value w; inputText := inputText w; open := false |}
  else w.

(** The [onChange] of the text input. *)
Definition type (text : string) (w : Chips) : Chips :=
  {| value := value w; inputText := text; open := true |}.

(** The [onBlur] of the text input, and the "+" button. *)
Definition commitText (w : Chips) : Chips :=
  if truthy (trim (inputText w)) then addArtist (inputText w) w else w.

Inductive Action :=
| Type_ (text : string)
| KeyDown (key : string)
| Blur
| ClickAdd
| ClickSuggestion (name : string)
| ClickRemove (name : string).

Definition act (w : Chips) (a : Action) : Chips :=
  match a with
  | Type_ text => type text w
  | KeyDown key => handleKeyDown key w
  | Blur => commitText w
  | ClickAdd => addArtist (inputText w) w
  | ClickSuggestion name => addArtist name w
  | ClickRemove name => removeArtist name w
  end.

End ArtistTagInput.

(** ** The rows of the extra tags (the "Extra Tags" section) *)

Module ExtraTagRows.
Import JS Editor.

(** [ADDABLE_FRAMES], as pairs of an id and a label. *)
Definition ADDABLE_FRAMES : list (string * string) :=
  [("TKEY", "Initial Key"); ("TCOP", "Copyright"); ("TPUB", "Publisher");
   ("TIT3", "Subtitle"); ("TIT1", "Grouping"); ("TEXT", "Lyricist");
   ("TENC", "Encoded By"); ("TMED", "Media Type"); ("TSRC", "ISRC");
   ("TOPE", "Original Artist")].

(** The options of the "Add field" select:
    [ADDABLE_FRAMES.filter((f) => !extraTags.some((t) => t.frame_id === f.id))]. *)
Definition offered (p : Panel) : list (string * string) :=
  filter (fun f => existsb (fun t => bool_decide (frame_id t = f.1)) (extraTags p) = false)
         ADDABLE_FRAMES.

(** What the user does to the rows. *)
Inductive TagAction :=
| ChangeTag (id val : string)
| RemoveTag (id : string)
| AddTag (id : string).

Definition tag_act (p : Panel) (a : TagAction) : Panel :=
  match a with
  | ChangeTag id val => onChangeExtraTag id val p
  | RemoveTag id => onRemoveExtraTag id p
  | AddTag id => onAddExtraTag id p
  end.

(** The frame ids of the rows, in order. *)
Definition ids (p : Panel) : list string := map frame_id (extraTags p).

(** The select holds the placeholder, whose value is empty, and the
    offered options. *)
Definition selectable (p : Panel) (a : TagAction) : Prop :=
  match a with
  | AddTag id => id = "" \/ id ∈ map fst (offered p)
  | _ => True
  end.

End ExtraTagRows.

(** ** The duration shown ([formatDuration]) *)

Module Duration.
Import JS.

(** [s.padStart(n, c)] with a filler of one character. *)
Definition padStart (n : nat) (c : ascii) (s : string) : string :=
  string_of_list_ascii (replicate (n - String.length s) c) +:+ s.

(** [formatDuration(secs)] on a whole number of seconds or [null]:
    [Math.floor(secs / 60)] is the quotient rounded down, [secs % 60] has
    the sign of [secs], and [Math.floor] of it is itself. *)
Definition formatDuration (secs : option Z) : string :=
  match secs with
  | None => "—"
  | Some x =>
      let m := (x / 60)%Z in
      let s := padStart 2 "0" (String_of (Z.rem x 60)) in
      String_of m +:+ ":" +:+ s
  end.

End Duration.

(** * Properties *)

(** ** The primitives on the inputs the editor meets *)

Module JSFacts.
Import JS.

Example parseInt_decimal :
  map parseInt ["5"; "12"; "007"; " 42"; "12abc"; "+7"; "-3"]
  = [Num 5; Num 12; Num 7; Num 42; Num 12; Num 7; Num (-3)].
Proof. reflexivity. Qed.

Example parseInt_hex : map parseInt ["0x1F"; "0X10"; "0x"] = [Num 31; Num 16; NaN].
Proof. reflexivity. Qed.

Example parseInt_unparsable : map parseInt ["x"; ""; "-"; "abc"; " "] = [NaN; NaN; NaN; NaN; NaN].
Proof. reflexivity. Qed.

Example split_slash :
  (split "/" "5/12", split "/" "5", split "/" "", split "/" "5/", split "/" "1/2/3")
  = (["5"; "12"], ["5"], [""], ["5"; ""], ["1"; "2"; "3"]).
Proof. reflexivity. Qed.

Example split_artists :
  filter (fun s => truthy s = true) (map trim (split " / " "Alice / Bob /  / "))
  = ["Alice"; "Bob"].
Proof. reflexivity. Qed.

Example join_artists :
  (join " / " ["Alice"; "Bob"], join " / " ["Alice"], join "," [])
  = ("Alice / Bob", "Alice", "").
Proof. reflexivity. Qed.

Example String_of_integers :
  map String_of [0; 5; 2024; -12]%Z = ["0"; "5"; "2024"; "-12"].
Proof. reflexivity. Qed.

Example decimalValue_year : Validators.decimalValue "2024" = 2024%Z.
Proof. reflexivity. Qed.

End JSFacts.

(** ** The matcher decides the language of a pattern *)

Module RegexFacts.
Import Regex.

Lemma lang_nil_nullable r : lang r [] -> nullable r = true.
Proof.
  intros H. remember [] as w eqn:Hw. induction H; simpl; try done.
  - apply app_eq_nil in Hw as [-> ->]. rewrite IHlang1, IHlang2; done.
  - rewrite IHlang; done.
  - rewrite IHlang; [apply orb_true_r | done].
Qed.

Lemma nullable_lang_nil r : nullable r = true -> lang r [].
Proof.
  induction r; simpl; intros Hn; try done.
  - constructor.
  - apply andb_true_iff in Hn as [H1 H2].
    change (@nil ascii) with (@nil ascii ++ []). constructor; auto.
  - apply orb_true_iff in Hn as [H1 | H2].
    + apply lang_alt_l; auto.
    + apply lang_alt_r; auto.
  - constructor.
Qed.

(** A non-empty word of a starred pattern starts with a non-empty word
    of the pattern. *)
Lemma lang_star_cons r c w :
  lang (Star r) (c :: w) ->
  exists w1 w2, w = w1 ++ w2 /\ lang r (c :: w1) /\ lang (Star r) w2.
Proof.
  intros H. remember (Star r) as r' eqn:Hr. remember (c :: w) as w' eqn:Hw.
  revert w Hw. induction H; intros u Hu; try discriminate.
  injection Hr as ->. destruct w1 as [| c1 w1]; simpl in Hu.
  - apply IHlang2; done.
  - injection Hu as -> <-. exists w1, w2. done.
Qed.

Lemma deriv_lang c r : forall w, lang (deriv c r) w <-> lang r (c :: w).
Proof.
  induction r as [| | p | r1 IH1 r2 IH2 | r1 IH1 r2 IH2 | r IH]; intros w; simpl.
  - split; intros H; inversion H.
  - split; intros H; inversion H.
  - split.
    + destruct (p c) eqn:Hp; intros H; inversion H; subst. by constructor.
    + intros H; inversion H; subst. rewrite H2. constructor.
  - split.
    + destruct (nullable r1) eqn:Hn; intros H.
      * inversion H as [| | | ? ? ? H1 | ? ? ? H1 | |]; subst.
        -- inversion H1; subst.
           change (c :: w1 ++ w2) with ((c :: w1) ++ w2).
           constructor; [by apply IH1 | done].
        -- change (c :: w) with ([] ++ c :: w).
           constructor; [by apply nullable_lang_nil | by apply IH2].
      * inversion H; subst.
        change (c :: w1 ++ w2) with ((c :: w1) ++ w2).
        constructor; [by apply IH1 | done].
    + intros H. inversion H as [| | ? ? w1 w2 H1 H2 [Hr1 Hr2] | | | |]; subst.
      destruct w1 as [| c1 w1]; simpl in *; subst.
      * rewrite (lang_nil_nullable _ H1). apply lang_alt_r. by apply IH2.
      * match goal with E : _ :: _ = _ :: _ |- _ => injection E as -> <- end.
        assert (lang (Cat (deriv c r1) r2) (w1 ++ w2)) as Hc
          by (constructor; [by apply IH1 | done]).
        destruct (nullable r1); [by apply lang_alt_l | done].
  - split; intros H; inversion H; subst.
    + apply lang_alt_l. by apply IH1.
    + apply lang_alt_r. by apply IH2.
    + apply lang_alt_l. by apply IH1.
    + apply lang_alt_r. by apply IH2.
  - split; intros H.
    + inversion H; subst.
      change (c :: w1 ++ w2) with ((c :: w1) ++ w2).
      apply lang_star_app; [by apply IH | done].
    + apply lang_star_cons in H as (w1 & w2 & -> & H1 & H2).
      constructor; [by apply IH | done].
Qed.

Theorem matches_lang r w : matches r w = true <-> lang r w.
Proof.
  revert r. induction w as [| c w IH]; intros r; simpl.
  - split; [apply nullable_lang_nil | apply lang_nil_nullable].
  - rewrite IH. apply deriv_lang.
Qed.

(** *** The languages of the shapes the registry uses *)

Lemma lang_class p w : lang (Class p) w <-> exists c, w = [c] /\ p c = true.
Proof.
  split.
  - intros H; inversion H; subst; eauto.
  - intros (c & -> & Hp). by constructor.
Qed.

Lemma lang_cat_iff r1 r2 w :
  lang (Cat r1 r2) w <-> exists w1 w2, w = w1 ++ w2 /\ lang r1 w1 /\ lang r2 w2.
Proof.
  split.
  - intros H; inversion H; subst; eauto.
  - intros (w1 & w2 & -> & H1 & H2). by constructor.
Qed.

Lemma lang_alt_iff r1 r2 w : lang (Alt r1 r2) w <-> lang r1 w \/ lang r2 w.
Proof.
  split.
  - intros H; inversion H; subst; auto.
  - intros [H | H]; [by apply lang_alt_l | by apply lang_alt_r].
Qed.

Lemma lang_eps_iff w : lang Eps w <-> w = [].
Proof.
  split.
  - intros H; by inversion H.
  - intros ->; constructor.
Qed.

Lemma lang_star_class p w : lang (Star (Class p)) w <-> forallb p w = true.
Proof.
  split.
  - intros H. remember (Star (Class p)) as r eqn:Hr.
    induction H; try discriminate; [done |].
    injection Hr as ->. inversion H; subst. simpl.
    rewrite IHlang2 by done. by rewrite andb_true_r.
  - induction w as [| c w IH]; simpl; intros H; [constructor |].
    apply andb_true_iff in H as [Hc Hw].
    change (c :: w) with ([c] ++ w). constructor; [by constructor | auto].
Qed.

Lemma lang_plus_class p w :
  lang (Plus (Class p)) w <-> w <> [] /\ forallb p w = true.
Proof.
  unfold Plus. rewrite lang_cat_iff. split.
  - intros (w1 & w2 & -> & H1 & H2).
    apply lang_class in H1 as (c & -> & Hc). apply lang_star_class in H2.
    simpl. rewrite Hc, H2. done.
  - intros [Hne H]. destruct w as [| c w]; [done |]. simpl in H.
    apply andb_true_iff in H as [Hc Hw].
    exists [c], w. split; [done |]. split; [by constructor | by apply lang_star_class].
Qed.

Lemma lang_rep_class n p : forall w,
  lang (Rep n (Class p)) w <-> length w = n /\ forallb p w = true.
Proof.
  induction n as [| n IH]; intros w; simpl.
  - rewrite lang_eps_iff. split.
    + intros ->; done.
    + intros [H _]. by destruct w.
  - rewrite lang_cat_iff. split.
    + intros (w1 & w2 & -> & H1 & H2).
      apply lang_class in H1 as (c & -> & Hc). apply IH in H2 as [Hl Hw].
      simpl. rewrite Hc, Hw, Hl. done.
    + intros [Hl H]. destruct w as [| c w]; [done |]. simpl in *.
      apply andb_true_iff in H as [Hc Hw].
      exists [c], w. split; [done |].
      split; [by constructor | apply IH; split; [lia | done]].
Qed.

Lemma lang_chr c w : lang (Chr c) w <-> w = [c].
Proof.
  unfold Chr. rewrite lang_class. split.
  - intros (x & -> & Hx). apply bool_decide_eq_true in Hx. by subst.
  - intros ->. exists c. split; [done | by apply bool_decide_eq_true].
Qed.

End RegexFacts.

(** ** The validator registry *)

Module ValidatorFacts.
Import Regex RegexFacts Validators.

(** The characters of a string. *)
Definition chars (v : string) : list ascii := list_ascii_of_string v.

(** Every character of [v] is in the class [p]. *)
Definition all_chars (p : ascii -> bool) (v : string) : Prop :=
  forallb p (chars v) = true.

(** [v] is a non-empty string of decimal digits: a non-negative integer
    written out. *)
Definition digit_string (v : string) : Prop := v <> "" /\ all_chars digit v.

(** [v] reads [N] or [N/Total]. *)
Definition position_string (v : string) : Prop :=
  digit_string v \/
  exists n t, v = n +:+ "/" +:+ t /\ digit_string n /\ digit_string t.

Lemma test_lang r v : test r v = true <-> lang r (chars v).
Proof. apply matches_lang. Qed.

Lemma chars_app a b : chars (a +:+ b) = chars a ++ chars b.
Proof. induction a as [| c a IH]; simpl; [done | by rewrite IH]. Qed.

Lemma chars_nil v : chars v = [] <-> v = "".
Proof. destruct v; simpl; split; intros; done. Qed.

Lemma chars_length v : length (chars v) = String.length v.
Proof. induction v as [| c v IH]; simpl; [done | by rewrite IH]. Qed.

Lemma chars_of_list w : chars (string_of_list_ascii w) = w.
Proof. apply list_ascii_of_string_of_list_ascii. Qed.

Lemma of_list_chars v : string_of_list_ascii (chars v) = v.
Proof. apply string_of_list_ascii_of_string. Qed.

Lemma digits_lang v : lang re_digits (chars v) <-> digit_string v.
Proof.
  unfold re_digits, digit_string, all_chars. rewrite lang_plus_class.
  by rewrite chars_nil.
Qed.

Lemma position_lang v : lang re_position (chars v) <-> position_string v.
Proof.
  unfold re_position, Opt, position_string. rewrite lang_cat_iff. split.
  - intros (w1 & w2 & Hv & H1 & H2).
    assert (v = string_of_list_ascii w1 +:+ string_of_list_ascii w2) as Hs.
    { rewrite <- (of_list_chars v), Hv.
      rewrite <- (chars_of_list w1), <- (chars_of_list w2) at 1.
      by rewrite <- chars_app, of_list_chars. }
    rewrite <- (chars_of_list w1) in H1. apply digits_lang in H1.
    apply lang_alt_iff in H2 as [H2 | H2].
    + right. apply lang_cat_iff in H2 as (s & w3 & -> & Hs1 & H3).
      apply lang_chr in Hs1 as ->.
      rewrite <- (chars_of_list w3) in H3. apply digits_lang in H3.
      exists (string_of_list_ascii w1), (string_of_list_ascii w3).
      split; [| done]. by rewrite Hs.
    + left. apply lang_eps_iff in H2 as ->. simpl in Hs.
      replace v with (string_of_list_ascii w1); [done |].
      rewrite Hs. clear. generalize (string_of_list_ascii w1) as s.
      induction s as [| c s IH]; [done | by rewrite IH at 1].
  - intros [Hd | (n & t & -> & Hn & Ht)].
    + exists (chars v), []. rewrite app_nil_r.
      split; [done |]. split; [by apply digits_lang |].
      apply lang_alt_r. constructor.
    + exists (chars n), (chars ("/" +:+ t)). rewrite <- chars_app.
      split; [done |]. split; [by apply digits_lang |].
      apply lang_alt_l. change (chars ("/" +:+ t)) with (["/"%char] ++ chars t).
      constructor; [by apply lang_chr | by apply digits_lang].
Qed.

Lemma bpm_valid v : bpm v = None <-> digit_string v.
Proof.
  unfold bpm. rewrite <- digits_lang, <- test_lang.
  destruct (test re_digits v); split; intros; done.
Qed.

Lemma year_valid v :
  year v = None <->
  String.length v = 4 /\ all_chars digit v /\ (1000 <= decimalValue v <= 2099)%Z.
Proof.
  unfold year, re_year, all_chars. rewrite <- chars_length.
  pose proof (test_lang (Rep 4 (Class digit)) v) as Ht.
  rewrite lang_rep_class in Ht.
  destruct (test (Rep 4 (Class digit)) v); simpl.
  - destruct Ht as [Ht _]. destruct (Ht eq_refl) as [Hl Hd].
    destruct (Z.leb_spec 1000 (decimalValue v)),
             (Z.leb_spec (decimalValue v) 2099); simpl;
      (split; [intros Hy; try discriminate Hy | intros (_ & _ & Hr)]);
      try done; try lia.
  - split; [done |]. intros (Hl & Hd & _). destruct Ht as [_ Ht].
    discriminate Ht. done.
Qed.

Lemma trackNumber_valid v : trackNumber v = None <-> position_string v.
Proof.
  unfold trackNumber. rewrite <- position_lang, <- test_lang.
  destruct (test re_position v); split; intros; done.
Qed.

Lemma discNumber_valid v : discNumber v = None <-> position_string v.
Proof.
  unfold discNumber. rewrite <- position_lang, <- test_lang.
  destruct (test re_position v); split; intros; done.
Qed.

Lemma lang_valid (f : Validator) v :
  f = commentLang \/ f = lyricsLang ->
  f v = None <-> String.length v = 3 /\ all_chars lower v.
Proof.
  intros Hf. unfold all_chars. rewrite <- chars_length.
  rewrite <- (lang_rep_class 3 lower), <- test_lang.
  destruct Hf as [-> | ->]; unfold commentLang, lyricsLang, re_lang;
    destruct (test (Rep 3 (Class lower)) v); split; intros; done.
Qed.

End ValidatorFacts.

(** C9: the registry holds one pure function per key; [bpm] accepts
    exactly the non-empty strings of decimal digits, [year] exactly the
    strings of four digits whose value lies in [1000, 2099], [trackNumber]
    and [discNumber] exactly the strings [N] and [N/Total], [commentLang]
    and [lyricsLang] exactly the strings of three lowercase letters; and
    the six scenarios of the specification evaluate as it says. *)
Theorem validators_accept_exactly :
  Validators.FIELD_VALIDATORS "bpm" = Some Validators.bpm /\
  Validators.FIELD_VALIDATORS "year" = Some Validators.year /\
  Validators.FIELD_VALIDATORS "trackNumber" = Some Validators.trackNumber /\
  Validators.FIELD_VALIDATORS "discNumber" = Some Validators.discNumber /\
  Validators.FIELD_VALIDATORS "commentLang" = Some Validators.commentLang /\
  Validators.FIELD_VALIDATORS "lyricsLang" = Some Validators.lyricsLang /\
  (forall v, Validators.bpm v = None <-> ValidatorFacts.digit_string v) /\
  (forall v, Validators.year v = None <->
             String.length v = 4 /\ ValidatorFacts.all_chars Regex.digit v /\
             (1000 <= Validators.decimalValue v <= 2099)%Z) /\
  (forall v, Validators.trackNumber v = None <-> ValidatorFacts.position_string v) /\
  (forall v, Validators.discNumber v = None <-> ValidatorFacts.position_string v) /\
  (forall v, Validators.commentLang v = None <->
             String.length v = 3 /\ ValidatorFacts.all_chars Regex.lower v) /\
  (forall v, Validators.lyricsLang v = None <->
             String.length v = 3 /\ ValidatorFacts.all_chars Regex.lower v) /\
  Validators.bpm "abc" = Some "Must be a non-negative integer" /\
  Validators.bpm "128" = None /\
  Validators.year "99" = Some "4-digit year (1000–2099)" /\
  Validators.year "2024" = None /\
  Validators.trackNumber "3/10" = None /\
  Validators.trackNumber "x" = Some "Must be N or N/Total".
Proof.
  repeat apply conj; try reflexivity; intros v.
  - apply ValidatorFacts.bpm_valid.
  - apply ValidatorFacts.year_valid.
  - apply ValidatorFacts.trackNumber_valid.
  - apply ValidatorFacts.discNumber_valid.
  - apply ValidatorFacts.lang_valid; auto.
  - apply ValidatorFacts.lang_valid; auto.
Qed.

(** ** The field reconciler *)

Module ReconcilerFacts.
Import JS Editor.

Section ComputeField.
Context {Row T : Type} `{Inhabited T}.
Implicit Types (tracks : list Row) (extract : Row -> T) (eq : T -> T -> bool).

(** All records agree with the first one, under [eq]. *)
Definition agree tracks extract eq (r0 : Row) : Prop :=
  forall r, r ∈ tracks -> eq (extract r) (extract r0) = true.

Lemma every_agree r0 tracks extract eq :
  forallb (fun v => eq v (extract r0)) (map extract tracks) = true <->
  agree tracks extract eq r0.
Proof.
  unfold agree. induction tracks as [| r tracks IH]; simpl.
  - split; [intros _ r Hr; by apply elem_of_nil in Hr | done].
  - rewrite andb_true_iff, IH. split.
    + intros [Hr Hall] r' Hin. apply elem_of_cons in Hin as [-> | Hin]; auto.
    + intros Hall. split; [apply Hall; left | intros r' Hin; apply Hall; by right].
Qed.

Lemma computeField_agree r0 rest extract eq :
  agree (r0 :: rest) extract eq r0 ->
  computeField (r0 :: rest) extract eq = uniform (extract r0).
Proof.
  intros Ha. apply every_agree in Ha. unfold computeField.
  change (map extract (r0 :: rest) !!! 0%nat) with (extract r0).
  by rewrite Ha.
Qed.

Lemma computeField_disagree r0 rest extract eq :
  ~ agree (r0 :: rest) extract eq r0 ->
  computeField (r0 :: rest) extract eq = divergent (map extract (r0 :: rest)).
Proof.
  intros Ha. unfold computeField.
  change (map extract (r0 :: rest) !!! 0%nat) with (extract r0).
  destruct (forallb _ _) eqn:E; [| done].
  exfalso. apply Ha. by apply every_agree.
Qed.

(** A reconciliation never starts in [edited]. *)
Lemma computeField_not_edited tracks extract eq :
  is_edited (computeField tracks extract eq) = false.
Proof. unfold computeField. by destruct (forallb _ _). Qed.

End ComputeField.

Lemma buildEditState_not_edited tracks k :
  edited_at (buildEditState tracks) k = false.
Proof. destruct k; apply computeField_not_edited. Qed.

End ReconcilerFacts.

(** C3: on a non-empty list of records, [computeField] returns
    [uniform] of the first projected value when every projected value is
    [equals] to it, and otherwise [divergent] of the projected values: one
    entry per record, the [i]-th entry being the projection of the [i]-th
    record. *)
Theorem computeField_uniform_or_divergent
        {Row T : Type} `{Inhabited T}
        (r0 : Row) (rest : list Row) (extract : Row -> T) (equals : T -> T -> bool) :
  let records := r0 :: rest in
  ((forall r, r ∈ records -> equals (extract r) (extract r0) = true) ->
   Editor.computeField records extract equals = Editor.uniform (extract r0)) /\
  (~ (forall r, r ∈ records -> equals (extract r) (extract r0) = true) ->
   exists values,
     Editor.computeField records extract equals = Editor.divergent values /\
     length values = length records /\
     forall i r, records !! i = Some r -> values !! i = Some (extract r)).
Proof.
  intros records. split.
  - apply ReconcilerFacts.computeField_agree.
  - intros Hd. exists (map extract records). split; [| split].
    + by apply ReconcilerFacts.computeField_disagree.
    + apply length_map.
    + intros i r Hi. by rewrite list_lookup_fmap, Hi.
Qed.

(** The theorem at two records with different titles, and at two equal
    ones. *)
Lemma computeField_uniform_or_divergent_witness :
  Editor.computeField ["Title A"; "Title A"] id Editor.strict_eq = Editor.uniform "Title A" /\
  exists values,
    Editor.computeField ["Title A"; "Title B"] id Editor.strict_eq = Editor.divergent values /\
    length values = 2 /\
    forall i r, ["Title A"; "Title B"] !! i = Some r -> values !! i = Some r.
Proof.
  split.
  - apply (computeField_uniform_or_divergent "Title A" ["Title A"] id Editor.strict_eq).
    intros r Hr. apply elem_of_cons in Hr as [-> | Hr]; [done |].
    apply list_elem_of_singleton in Hr as ->. done.
  - apply (computeField_uniform_or_divergent "Title A" ["Title B"] id Editor.strict_eq).
    intros Hall. specialize (Hall "Title B"). discriminate Hall.
    right; left.
Defined.

(** ** The commit builder *)

Module CommitFacts.
Import JS Editor.

Lemma prefix_empty s : String.prefix "" s = true.
Proof. by destruct s. Qed.

Lemma append_empty_r s : s +:+ "" = s.
Proof. induction s as [| c s IH]; [done | by rewrite <- IH at 2]. Qed.

Lemma append_assoc a b c : (a +:+ b) +:+ c = a +:+ (b +:+ c).
Proof.
  induction a as [| x a IH]; [done |].
  change (String x (((a +:+ b) +:+ c)) = String x (a +:+ (b +:+ c))).
  by rewrite IH.
Qed.

(** A string without the separator is its own single segment. *)
Lemma split_go_no_slash v : forall cur,
  "/"%char ∉ list_ascii_of_string v -> split_go "/" 0 cur v = [cur +:+ v].
Proof.
  induction v as [| c v IH]; intros cur Hno.
  - simpl. by rewrite append_empty_r.
  - apply not_elem_of_cons in Hno as [Hc Hv].
    change (split_go "/" 0 cur (String c v))
      with (if (if ascii_dec "/" c then String.prefix "" v else false)
            then cur :: split_go "/" 0 "" v
            else split_go "/" 0 (cur +:+ String c "") v).
    destruct (ascii_dec "/" c) as [E | _]; [by destruct Hc |].
    rewrite IH by done. by rewrite append_assoc.
Qed.

Lemma split_no_slash v :
  "/"%char ∉ list_ascii_of_string v -> split "/" v = [v].
Proof. intros Hno. unfold split. by rewrite split_go_no_slash. Qed.

Lemma or_null_not_zero n : or_null n <> Some (Num 0).
Proof. destruct n as [| [| z | z]]; simpl; congruence. Qed.

Lemma parseTrackDisc_not_zero val :
  num (parseTrackDisc val) <> Some (Num 0) /\
  total (parseTrackDisc val) <> Some (Num 0).
Proof.
  unfold parseTrackDisc. destruct val as [v |]; [| done].
  destruct (truthy v); simpl; [| done].
  split; [apply or_null_not_zero |].
  destruct (split "/" v !! 1%nat) as [p1 |]; [| done].
  destruct (truthy p1); [apply or_null_not_zero | done].
Qed.

(** *** The patch, layer by layer *)

Lemma lookup_when_edited_other {T} (fs : FieldState T) assign m (key : string) :
  (forall v m', assign v m' !! key = m' !! key) ->
  when_edited fs assign m !! key = m !! key.
Proof. intros Ha. destruct fs; simpl; auto. Qed.

Lemma dom_when_edited_1 {T} (fs : FieldState T) (k : string) (f : T -> jsval)
      (m : gmap string jsval) :
  dom (when_edited fs (fun v => <[k := f v]>) m)
  = (if is_edited fs then {[k]} else ∅) ∪ dom m.
Proof. destruct fs; simpl; rewrite ?dom_insert_L; set_solver. Qed.

Lemma dom_when_edited_2 {T} (fs : FieldState T) (k1 k2 : string) (f1 f2 : T -> jsval)
      (m : gmap string jsval) :
  dom (when_edited fs (fun v m' => <[k2 := f2 v]> (<[k1 := f1 v]> m')) m)
  = (if is_edited fs then {[k1; k2]} else ∅) ∪ dom m.
Proof. destruct fs; simpl; rewrite ?dom_insert_L; set_solver. Qed.

(** The keys of the patch that a field of the editor writes. *)
Definition patch_keys (k : FieldKey) : list string :=
  match k with
  | K_title => ["title"]
  | K_artistNames => ["artistName"]
  | K_albumTitle => ["albumTitle"]
  | K_albumArtist => ["albumArtist"]
  | K_composer => ["composer"]
  | K_year => ["year"]
  | K_genre => ["genre"]
  | K_trackNumber => ["trackNumber"; "trackTotal"]
  | K_discNumber => ["discNumber"; "discTotal"]
  | K_bpm => ["bpm"]
  | K_comment => ["comment"]
  | K_commentLang => ["commentLang"]
  | K_lyrics => ["lyrics"]
  | K_lyricsLang => ["lyricsLang"]
  end.

Lemma elem_of_if_singleton (b : bool) (x : string) (X : gset string) :
  x ∈ (if b then X else ∅) <-> b = true /\ x ∈ X.
Proof. destruct b; set_solver. Qed.

Lemma dom_buildInput es :
  dom (buildInput es) =
    (if is_edited (discNumber es) then {["discNumber"; "discTotal"]} else ∅) ∪
    ((if is_edited (trackNumber es) then {["trackNumber"; "trackTotal"]} else ∅) ∪
    ((if is_edited (lyricsLang es) then {["lyricsLang"]} else ∅) ∪
    ((if is_edited (lyrics es) then {["lyrics"]} else ∅) ∪
    ((if is_edited (commentLang es) then {["commentLang"]} else ∅) ∪
    ((if is_edited (comment es) then {["comment"]} else ∅) ∪
    ((if is_edited (bpm es) then {["bpm"]} else ∅) ∪
    ((if is_edited (year es) then {["year"]} else ∅) ∪
    ((if is_edited (genre es) then {["genre"]} else ∅) ∪
    ((if is_edited (composer es) then {["composer"]} else ∅) ∪
    ((if is_edited (albumArtist es) then {["albumArtist"]} else ∅) ∪
    ((if is_edited (albumTitle es) then {["albumTitle"]} else ∅) ∪
    ((if is_edited (artistNames es) then {["artistName"]} else ∅) ∪
    ((if is_edited (title es) then {["title"]} else ∅) ∪ ∅))))))))))))).
Proof.
  unfold buildInput. cbv zeta.
  rewrite !dom_when_edited_2, !dom_when_edited_1, dom_empty_L. done.
Qed.

(** Splits the first disjunct off [Hk] and closes it with the field
    [k]. *)
Local Ltac pick Hk k :=
  let He := fresh "He" in
  destruct Hk as [[He Hk] | Hk];
  [exists k; split; [exact He | simpl; set_solver] |].

(** A key is in the patch exactly when it is a key of an edited
    field. *)
Lemma elem_of_dom_buildInput es key :
  key ∈ dom (buildInput es) <->
  exists k, edited_at es k = true /\ key ∈ patch_keys k.
Proof.
  rewrite dom_buildInput. rewrite !elem_of_union, !elem_of_if_singleton.
  split.
  - intros Hk.
    pick Hk K_discNumber. pick Hk K_trackNumber. pick Hk K_lyricsLang.
    pick Hk K_lyrics. pick Hk K_commentLang. pick Hk K_comment.
    pick Hk K_bpm. pick Hk K_year. pick Hk K_genre. pick Hk K_composer.
    pick Hk K_albumArtist. pick Hk K_albumTitle. pick Hk K_artistNames.
    pick Hk K_title. set_solver.
  - intros (k & He & Hk). unfold edited_at in He.
    destruct k; simpl in He, Hk; rewrite He; set_solver.
Qed.

Lemma buildInput_position_not_zero es key :
  key ∈ ["trackNumber"; "trackTotal"; "discNumber"; "discTotal"] ->
  buildInput es !! key <> Some (VNum (Num 0)).
Proof.
  intros Hk.
  assert (forall o, of_nullable_number o = VNum (Num 0) -> o = Some (Num 0)) as Hof
    by (intros [n |]; simpl; congruence).
  unfold buildInput. cbv zeta.
  destruct (discNumber es) as [? | ? | dn], (trackNumber es) as [? | ? | tn];
    simpl;
    repeat (rewrite lookup_when_edited_other
              by (intros; repeat (rewrite lookup_insert_ne by set_solver); done));
    try (pose proof (parseTrackDisc_not_zero dn) as [Hd1 Hd2]);
    try (pose proof (parseTrackDisc_not_zero tn) as [Ht1 Ht2]);
    repeat (apply elem_of_cons in Hk as [-> | Hk]);
    try (by apply elem_of_nil in Hk);
    repeat (rewrite lookup_insert_eq || rewrite lookup_insert_ne by done);
    repeat (rewrite lookup_when_edited_other
              by (intros; repeat (rewrite lookup_insert_ne by done); done));
    rewrite ?lookup_empty; try done;
    intros [= Heq]; apply Hof in Heq; done.
Qed.

End CommitFacts.

(** C2: the patch built by [save] holds a key of a field exactly when the
    field is [edited] (the two position fields write their number and
    their total), and holds nothing else; with no edited field it is
    empty, and with only the title edited its keys are exactly
    [title]. *)
Theorem patch_has_exactly_the_edited_fields (es : Editor.EditState) :
  (forall k key, key ∈ CommitFacts.patch_keys k ->
     (is_Some (Editor.buildInput es !! key) <-> Editor.edited_at es k = true)) /\
  (forall key, is_Some (Editor.buildInput es !! key) ->
     exists k, key ∈ CommitFacts.patch_keys k) /\
  ((forall k, Editor.edited_at es k = false) -> Editor.buildInput es = ∅) /\
  (Editor.edited_at es Editor.K_title = true ->
   (forall k, k <> Editor.K_title -> Editor.edited_at es k = false) ->
   dom (Editor.buildInput es) = {["title"]}).
Proof.
  repeat apply conj.
  - intros k key Hk. rewrite <- elem_of_dom, CommitFacts.elem_of_dom_buildInput.
    split; [| by exists k].
    intros (k' & He & Hk'). replace k with k'; [done |].
    destruct k, k'; simpl in Hk, Hk'; set_solver.
  - intros key Hs. apply elem_of_dom, CommitFacts.elem_of_dom_buildInput in Hs.
    destruct Hs as (k & _ & Hk). by exists k.
  - intros Hno. apply map_empty. intros key. apply not_elem_of_dom.
    rewrite CommitFacts.elem_of_dom_buildInput. intros (k & He & _).
    by rewrite Hno in He.
  - intros Ht Hother. apply set_eq. intros key.
    rewrite CommitFacts.elem_of_dom_buildInput, elem_of_singleton. split.
    + intros (k & He & Hk). destruct (decide (k = Editor.K_title)) as [-> | Hne].
      * simpl in Hk. set_solver.
      * by rewrite Hother in He.
    + intros ->. exists Editor.K_title. split; [done | simpl; set_solver].
Qed.

(** The theorem at a session where only the title was edited. *)
Lemma patch_has_exactly_the_edited_fields_witness :
  dom (Editor.buildInput
         (Editor.withField Editor.K_title (Editor.edited "New Title")
                           (Editor.buildEditState []))) = {["title"]}.
Proof.
  apply (patch_has_exactly_the_edited_fields
           (Editor.withField Editor.K_title (Editor.edited "New Title")
                             (Editor.buildEditState []))).
  - reflexivity.
  - intros k Hk. destruct k; try reflexivity. by destruct Hk.
Defined.

(** The part of an input before its first slash. *)
Definition numerator (v : string) : string := default "" (head (JS.split "/" v)).

(** The parser reads the two sides of the slash one without the other:
    in ["x/12"], which no caller passes, the numerator is unparsable and
    the total is 12. *)
Lemma parseTrackDisc_total_survives_bad_numerator :
  numerator "x/12" = "x" /\
  JS.parseInt "x" = JS.NaN /\
  Editor.parseTrackDisc (Some "x/12")
  = {| Editor.num := None; Editor.total := Some (JS.Num 12) |} /\
  ~ (forall v, JS.parseInt (numerator v) = JS.NaN ->
               Editor.parseTrackDisc (Some v)
               = {| Editor.num := None; Editor.total := None |}).
Proof.
  repeat apply conj; try reflexivity.
  intros Hall. specialize (Hall "x/12" eq_refl). discriminate Hall.
Qed.

(** C10: ["0"] is read as absent: [parseTrackDisc] gives a [null] number
    on ["0"] and ["0/12"] and a [null] total on ["5/0"], although the
    validators of both position fields accept ["0"] and ["0/12"]; no
    input parses to a zero number or total, and no patch carries a zero
    track or disc position. *)
Theorem zero_position_is_never_committed :
  Editor.num (Editor.parseTrackDisc (Some "0")) = None /\
  Editor.num (Editor.parseTrackDisc (Some "0/12")) = None /\
  Editor.total (Editor.parseTrackDisc (Some "5/0")) = None /\
  Validators.trackNumber "0" = None /\
  Validators.trackNumber "0/12" = None /\
  Validators.discNumber "0" = None /\
  Validators.discNumber "0/12" = None /\
  (forall val, Editor.num (Editor.parseTrackDisc val) <> Some (JS.Num 0) /\
               Editor.total (Editor.parseTrackDisc val) <> Some (JS.Num 0)) /\
  (forall es key,
     key ∈ ["trackNumber"; "trackTotal"; "discNumber"; "discTotal"] ->
     Editor.buildInput es !! key <> Some (JS.VNum (JS.Num 0))).
Proof.
  repeat apply conj; try reflexivity.
  - apply CommitFacts.parseTrackDisc_not_zero.
  - apply CommitFacts.buildInput_position_not_zero.
Qed.

(** The theorem at a session whose track number was edited to ["0/12"]:
    the patch carries a [null] number. *)
Lemma zero_position_is_never_committed_witness :
  Editor.buildInput
    (Editor.withField Editor.K_trackNumber (Editor.edited (Some "0/12"))
                      (Editor.buildEditState []))
  !! "trackNumber" <> Some (JS.VNum (JS.Num 0)).
Proof.
  apply zero_position_is_never_committed. left.
Defined.

(** ** The panel: editing, discarding, committing, loading *)

Module PanelFacts.
Import JS Editor.

(** What the user can do to a session between a load and a commit: any
    call of [setField], a change of one of the four checked inputs, a
    change, removal or addition of an extra tag, and any write to either
    error map (which covers what [validate] writes). *)
Inductive Edit :=
| SetField (k : FieldKey) (v : fieldType k)
| ChangeYear (v : string)
| ChangeTrackNumber (v : string)
| ChangeDiscNumber (v : string)
| ChangeBpm (v : string)
| ChangeExtraTag (id val : string)
| RemoveExtraTag (id : string)
| AddExtraTag (id : string)
| SetErrors (errs : gmap string string)
| SetExtraTagErrors (errs : gmap string string).

Definition apply_edit (p : Panel) (e : Edit) : Panel :=
  match e with
  | SetField k v => setField k v p
  | ChangeYear v => onChangeYear v p
  | ChangeTrackNumber v => onChangeTrackNumber v p
  | ChangeDiscNumber v => onChangeDiscNumber v p
  | ChangeBpm v => onChangeBpm v p
  | ChangeExtraTag id val => onChangeExtraTag id val p
  | RemoveExtraTag id => onRemoveExtraTag id p
  | AddExtraTag id => onAddExtraTag id p
  | SetErrors errs => setErrors errs p
  | SetExtraTagErrors errs => setExtraTagErrors errs p
  end.

(** No field of the session is [edited]. *)
Definition pristine (p : Panel) : Prop :=
  forall es, editState p = Some es -> forall k, edited_at es k = false.

Lemma setField_tracks k v p : tracks (setField k v p) = tracks p.
Proof. done. Qed.

Lemma setField_live k v p :
  is_Some (editState p) -> is_Some (editState (setField k v p)).
Proof. intros [es Hes]. unfold setField. simpl. rewrite Hes. eauto. Qed.

Lemma onChangeChecked_tracks set key validator v p :
  (forall x q, tracks (set x q) = tracks q) ->
  tracks (onChangeChecked set key validator v p) = tracks p.
Proof. intros Hset. unfold onChangeChecked. simpl. apply Hset. Qed.

Lemma onChangeChecked_live set key validator v p :
  (forall x q, is_Some (editState q) -> is_Some (editState (set x q))) ->
  is_Some (editState p) ->
  is_Some (editState (onChangeChecked set key validator v p)).
Proof. intros Hset Hp. unfold onChangeChecked. simpl. by apply Hset. Qed.

(** Editing leaves the records of the session alone and keeps the
    session. *)
Lemma apply_edit_tracks p e : tracks (apply_edit p e) = tracks p.
Proof.
  destruct e as [k v | v | v | v | v | id val | id | id | errs | errs]; simpl; try done;
    try (apply onChangeChecked_tracks; intros; apply setField_tracks).
  - unfold onChangeExtraTag.
    destruct (Validators.FIELD_VALIDATORS id); [destruct (truthy val) |]; done.
  - unfold onAddExtraTag. by destruct (truthy id).
Qed.

Lemma apply_edit_live p e :
  is_Some (editState p) -> is_Some (editState (apply_edit p e)).
Proof.
  intros Hp.
  destruct e as [k v | v | v | v | v | id val | id | id | errs | errs];
    cbn [apply_edit];
    unfold onChangeYear, onChangeTrackNumber, onChangeDiscNumber, onChangeBpm;
    try (apply onChangeChecked_live; [intros; by apply setField_live | done]);
    try done.
  - by apply setField_live.
  - unfold onChangeExtraTag.
    destruct (Validators.FIELD_VALIDATORS id); [destruct (truthy val) |]; done.
  - unfold onAddExtraTag. by destruct (truthy id).
Qed.

Lemma edits_tracks edits : forall p, tracks (foldl apply_edit p edits) = tracks p.
Proof.
  induction edits as [| e edits IH]; intros p; simpl; [done |].
  by rewrite IH, apply_edit_tracks.
Qed.

Lemma edits_live edits : forall p,
  is_Some (editState p) -> is_Some (editState (foldl apply_edit p edits)).
Proof.
  induction edits as [| e edits IH]; intros p Hp; simpl; [done |].
  by apply IH, apply_edit_live.
Qed.

Lemma discard_live p :
  is_Some (editState p) -> tracks p <> [] ->
  discard p
  = setExtraTagErrors ∅ (setErrors ∅ (setEditState (Some (buildEditState (tracks p))) p)).
Proof.
  intros [es Hes] Ht. unfold discard. rewrite Hes.
  rewrite bool_decide_eq_false_2; [done |]. by destruct (tracks p).
Qed.

Lemma no_keys_false {V} (m : gmap string V) : no_keys m = false <-> m <> ∅.
Proof.
  unfold no_keys. rewrite bool_decide_eq_false. by rewrite map_size_empty_iff.
Qed.

Lemma hasAnyEdit_false p : hasAnyEdit p = false <-> pristine p.
Proof.
  unfold hasAnyEdit, pristine. destruct (editState p) as [es |].
  - split.
    + intros He es' [= <-] k. destruct (edited_at es k) eqn:Hk; [| done].
      assert (existsb (edited_at es) all_keys = true) as Hex; [| congruence].
      apply existsb_exists. exists k. split; [| done].
      destruct k; simpl; tauto.
    + intros Hp. apply not_true_is_false. intros Hex.
      apply existsb_exists in Hex as (k & _ & Hk). by rewrite (Hp es) in Hk.
  - split; [intros _ es [=] | done].
Qed.

(** The Save button is disabled under each of the conditions of a
    refusal. *)
Lemma saveDisabled_true p :
  pristine p \/ saving p = true \/ saved p = true \/
  errors p <> ∅ \/ extraTagErrors p <> ∅ ->
  saveDisabled p = true.
Proof.
  unfold saveDisabled, hasValidationErrors.
  intros [Hp | [Hs | [Hs | [He | He]]]].
  - apply hasAnyEdit_false in Hp. by rewrite Hp.
  - rewrite Hs. by destruct (hasAnyEdit p).
  - rewrite Hs. by destruct (hasAnyEdit p), (saving p).
  - apply no_keys_false in He. rewrite He.
    by destruct (hasAnyEdit p), (saving p), (saved p).
  - apply no_keys_false in He. rewrite He.
    by destruct (hasAnyEdit p), (saving p), (saved p), (no_keys (errors p)).
Qed.

End PanelFacts.

(** C6: a commit is refused when no field is edited, when a commit is in
    flight, when the "saved" acknowledgment is showing, or when either
    error map holds an entry: the click on Save leaves the state as it is
    and dispatches nothing. *)
Theorem commit_refused (b : Editor.Backend) (p : Editor.Panel) (tr : list Editor.Effect) :
  PanelFacts.pristine p \/ Editor.saving p = true \/ Editor.saved p = true \/
  Editor.errors p <> ∅ \/ Editor.extraTagErrors p <> ∅ ->
  Editor.clickSave b p tr = (Editor.fulfilled (), p, tr).
Proof.
  intros Hc. unfold Editor.clickSave.
  rewrite (PanelFacts.saveDisabled_true p Hc). by rewrite andb_false_r.
Qed.

(** C7: whatever was edited and whatever the error maps hold, [discard]
    on a session with records puts every field back to the reconciliation
    of the records the session was loaded with, leaves no field edited and
    empties both error maps. *)
Theorem discard_restores_baseline (p : Editor.Panel) (edits : list PanelFacts.Edit) :
  is_Some (Editor.editState p) -> Editor.tracks p <> [] ->
  let p' := Editor.discard (foldl PanelFacts.apply_edit p edits) in
  Editor.editState p' = Some (Editor.buildEditState (Editor.tracks p)) /\
  PanelFacts.pristine p' /\
  Editor.errors p' = ∅ /\
  Editor.extraTagErrors p' = ∅.
Proof.
  intros Hlive Ht p'. subst p'.
  rewrite PanelFacts.discard_live.
  - rewrite PanelFacts.edits_tracks. simpl. repeat apply conj; try done.
    intros es [= <-] k. apply ReconcilerFacts.buildEditState_not_edited.
  - by apply PanelFacts.edits_live.
  - by rewrite PanelFacts.edits_tracks.
Qed.

(** ** Scenarios *)

Module Scenario.
Import JS Editor.

(** The track of the test fixtures, with an id and a title. *)
Definition track (i : Z) (t : string) : TrackRow :=
  {| Track.id := i; Track.title := t; Track.artistName := Some "Test Artist";
     Track.albumTitle := Some "Test Album"; Track.albumArtist := None;
     Track.composer := None; Track.year := None; Track.genre := None;
     Track.trackNumber := Some 5%Z; Track.trackTotal := None;
     Track.discNumber := Some 1%Z; Track.discTotal := None; Track.bpm := None;
     Track.comment := None; Track.commentLang := None;
     Track.lyrics := Some "Some lyrics here"; Track.lyricsLang := None |}.

(** A backend that holds two tracks and answers the two update commands
    as told. *)
Definition backend (update : Settled (Result TrackRow)) (batch : Settled (Result unit))
  : Backend :=
  {| getTrack := fun i =>
       if bool_decide (i = 1%Z) then fulfilled (ok (track 1 "Title A"))
       else if bool_decide (i = 2%Z) then fulfilled (ok (track 2 "Title B"))
       else fulfilled (error "not found");
     listArtists := fulfilled (ok []);
     listAlbums := fulfilled (ok []);
     getTrackExtraTags := fun _ => fulfilled (ok []);
     updateTrack := fun _ _ => update;
     setTrackExtraTags := fun _ _ => fulfilled (ok ());
     batchUpdateTracks := fun _ _ => batch |}.

(** The backend refuses every update with an error result. *)
Definition refusing : Backend :=
  backend (fulfilled (error "write failed")) (fulfilled (error "write failed")).

(** The transport of every update throws. *)
Definition throwing : Backend := backend rejected rejected.

(** The panel opened on [ids], once its load has arrived. *)
Definition loaded (b : Backend) (ids : list Z) : Panel :=
  (load ids b (effect_reset (mount ids)) []).1.2.

(** The user types a new title. *)
Definition retitled (b : Backend) (ids : list Z) : Panel :=
  setField K_title "New Title" (loaded b ids).

End Scenario.

(** The theorem of C6 at a loaded track with an edited title and a commit
    in flight. *)
Lemma commit_refused_witness :
  Editor.clickSave Scenario.refusing
    (Editor.setSaving true (Scenario.retitled Scenario.refusing [1%Z])) []
  = (Editor.fulfilled (),
     Editor.setSaving true (Scenario.retitled Scenario.refusing [1%Z]), []).
Proof.
  apply (commit_refused Scenario.refusing
           (Editor.setSaving true (Scenario.retitled Scenario.refusing [1%Z])) []).
  right; left. reflexivity.
Defined.

(** The theorem of C7 at a loaded track whose title and BPM were edited,
    the BPM with an invalid value. *)
Lemma discard_restores_baseline_witness :
  let p := Scenario.loaded Scenario.refusing [1%Z] in
  let edits := [PanelFacts.SetField Editor.K_title "Dirty Title"; PanelFacts.ChangeBpm "abc"] in
  Editor.errors (foldl PanelFacts.apply_edit p edits) <> ∅ /\
  let p' := Editor.discard (foldl PanelFacts.apply_edit p edits) in
  Editor.editState p' = Some (Editor.buildEditState [Scenario.track 1 "Title A"]) /\
  PanelFacts.pristine p' /\
  Editor.errors p' = ∅ /\
  Editor.extraTagErrors p' = ∅.
Proof.
  split.
  - intros He. apply (f_equal (fun m => m !! "bpm")) in He. discriminate He.
  - apply (discard_restores_baseline (Scenario.loaded Scenario.refusing [1%Z])).
    + eexists. reflexivity.
    + discriminate.
Defined.

(** A commit whose update call rejects keeps the fields, the records and
    the acknowledgment flag as they were, and the handler rejects. *)
Lemma rejected_update_keeps_session (b : Editor.Backend) (p : Editor.Panel)
      (tr : list Editor.Effect) :
  (forall i input, Editor.updateTrack b i input = Editor.rejected) ->
  (forall ids input, Editor.batchUpdateTracks b ids input = Editor.rejected) ->
  Editor.editState (Editor.clickSave b p tr).1.2 = Editor.editState p /\
  Editor.tracks (Editor.clickSave b p tr).1.2 = Editor.tracks p /\
  Editor.saved (Editor.clickSave b p tr).1.2 = Editor.saved p.
Proof.
  intros Hu Hb. unfold Editor.clickSave.
  destruct (Editor.rendered p && negb (Editor.saveDisabled p)); [| done].
  unfold Editor.save, mbind, Editor.Async_bind, Editor.validate, Editor.modify, mret,
    Editor.Async_ret, Editor.try_finally, Editor.await.
  destruct (Editor.editState p) as [es |] eqn:Hes; simpl; [| by rewrite Hes].
  destruct (Editor.no_keys _ && Editor.no_keys _); simpl; [| by rewrite Hes].
  destruct (Editor.isSingle p); simpl; rewrite ?Hu, ?Hb; simpl; by rewrite Hes.
Qed.

(** A commit whose input fails [validate] writes the error maps and
    dispatches nothing. *)
Lemma invalid_input_dispatches_nothing (b : Editor.Backend) (r p : Editor.Panel)
      (tr : list Editor.Effect) (es : Editor.EditState) :
  Editor.editState r = Some es ->
  Editor.field_errors es <> ∅ \/ Editor.tag_errors (Editor.extraTags r) <> ∅ ->
  (Editor.save r b p tr).2 = tr /\
  Editor.errors (Editor.save r b p tr).1.2 = Editor.field_errors es /\
  Editor.extraTagErrors (Editor.save r b p tr).1.2 = Editor.tag_errors (Editor.extraTags r).
Proof.
  intros Hes Herr.
  unfold Editor.save, mbind, Editor.Async_bind, Editor.validate, Editor.modify, mret,
    Editor.Async_ret.
  rewrite Hes. simpl.
  assert (Editor.no_keys (Editor.field_errors es)
          && Editor.no_keys (Editor.tag_errors (Editor.extraTags r)) = false) as ->.
  { apply andb_false_iff.
    destruct Herr as [He | He]; [left | right]; by apply PanelFacts.no_keys_false. }
  done.
Qed.

(** With one track selected and a valid input, an error result of
    [updateTrack] keeps the fields and sets the "saved" flag, whatever
    the other commands answer. *)
Lemma error_result_sets_saved (b : Editor.Backend) (p : Editor.Panel)
      (tr : list Editor.Effect) (es : Editor.EditState) (e : string) :
  Editor.editState p = Some es ->
  Editor.field_errors es = ∅ -> Editor.tag_errors (Editor.extraTags p) = ∅ ->
  Editor.isSingle p = true ->
  Editor.updateTrack b (Editor.trackIds p !!! 0%nat) (Editor.buildInput es)
  = Editor.fulfilled (Editor.error e) ->
  Editor.saved (Editor.save p b p tr).1.2 = true /\
  Editor.editState (Editor.save p b p tr).1.2 = Some es.
Proof.
  intros Hes Hf Ht Hsingle Hupd.
  unfold Editor.save, mbind, Editor.Async_bind, Editor.validate, Editor.modify, mret,
    Editor.Async_ret, Editor.try_finally, Editor.await, Editor.perform,
    Editor.await_suggestions.
  rewrite Hes, Hf, Ht, Hsingle.
  assert (Editor.no_keys (∅ : gmap string string) = true) as Hnk by done.
  rewrite !Hnk. simpl in Hupd |- *. rewrite Hupd. simpl.
  destruct (Editor.listArtists b) as [[la | ?] |], (Editor.listAlbums b) as [[lb | ?] |];
    simpl; by rewrite Hes.
Qed.

(** C1, evaluated where it fails.  One track is selected, the title is
    edited and [updateTrack] answers with an error result: the fields are
    kept, and the "saved" flag is set and its timer started.  Two tracks
    are selected and [batchUpdateTracks] answers with an error result: the
    answer is not read, the session is rebuilt from the reloaded records,
    so that the edit is gone, and the flag is set. *)
Theorem error_result_is_acknowledged :
  let b := Scenario.refusing in
  let one := Scenario.retitled b [1%Z] in
  let two := Scenario.retitled b [1%Z; 2%Z] in
  Editor.updateTrack b 1 {["title" := JS.VStr "New Title"]}
  = Editor.fulfilled (Editor.error "write failed") /\
  Editor.batchUpdateTracks b [1%Z; 2%Z] {["title" := JS.VStr "New Title"]}
  = Editor.fulfilled (Editor.error "write failed") /\
  (Editor.clickSave b one []).2
  = [Editor.Invoke (Editor.CallUpdateTrack 1 {["title" := JS.VStr "New Title"]});
     Editor.SetTimeout Editor.ClearSaved 1500;
     Editor.Invoke Editor.CallListArtists; Editor.Invoke Editor.CallListAlbums] /\
  Editor.editState (Editor.clickSave b one []).1.2 = Editor.editState one /\
  Editor.saved one = false /\
  Editor.saved (Editor.clickSave b one []).1.2 = true /\
  Editor.title <$> Editor.editState two = Some (Editor.edited "New Title") /\
  Editor.editState (Editor.clickSave b two []).1.2
  = Some (Editor.buildEditState [Scenario.track 1 "Title A"; Scenario.track 2 "Title B"]) /\
  Editor.title <$> Editor.editState (Editor.clickSave b two []).1.2
  = Some (Editor.divergent ["Title A"; "Title B"]) /\
  Editor.saved (Editor.clickSave b two []).1.2 = true.
Proof. repeat apply conj; vm_compute; reflexivity. Qed.

(** C5, evaluated where it fails.  The panel is opened on track 1, the
    selection changes to track 2 before the load arrives, the load of
    track 2 arrives, and then the load of track 1: the panel shows the
    records and the fields of track 1 under the selection of track 2. *)
Theorem stale_load_overwrites_selection :
  let b := Scenario.refusing in
  let newer := foldl Editor.step (Editor.open [1%Z]) [Editor.Select [2%Z]; Editor.Arrive 1 b] in
  let stale := Editor.step newer (Editor.Arrive 0 b) in
  Editor.trackIds (Editor.view newer) = [2%Z] /\
  Editor.tracks (Editor.view newer) = [Scenario.track 2 "Title B"] /\
  Editor.inflight newer = [[1%Z]] /\
  Editor.trackIds (Editor.view stale) = [2%Z] /\
  Editor.tracks (Editor.view stale) = [Scenario.track 1 "Title A"] /\
  Editor.editState (Editor.view stale)
  = Some (Editor.buildEditState [Scenario.track 1 "Title A"]).
Proof. repeat apply conj; vm_compute; reflexivity. Qed.

(** ** The deduplicating lookups *)

Module CoverArtFacts.
Import Editor(Result, ok, error, Settled, fulfilled, rejected).
Import CoverArt.

(** What every reachable store satisfies: a key in flight points to its
    request; the key of every request is cached or in flight; no two
    requests share a key; a fulfilled request has its value in the cache;
    a cached key has been requested; a listener is attached to the request
    of its key. *)
Record invariant (s : Store) : Prop := {
  inv_pending : forall key q,
    pending s !! key = Some q ->
    exists r, requests s !! q = Some r /\ req_key r = key;
  inv_covered : forall q r,
    requests s !! q = Some r ->
    is_Some (coverCache s !! req_key r) \/ is_Some (pending s !! req_key r);
  inv_single : forall q1 q2 r1 r2,
    requests s !! q1 = Some r1 -> requests s !! q2 = Some r2 ->
    req_key r1 = req_key r2 -> q1 = q2;
  inv_fulfilled : forall q r url,
    requests s !! q = Some r -> req_state r = Fulfilled url ->
    coverCache s !! req_key r = Some url;
  inv_cached : forall key,
    is_Some (coverCache s !! key) ->
    exists q r, requests s !! q = Some r /\ req_key r = key;
  inv_listener : forall l li,
    listeners s !! l = Some li ->
    exists r, requests s !! l_promise li = Some r /\ req_key r = l_key li
}.

Lemma invariant_init : invariant init.
Proof.
  constructor; simpl; intros *;
    rewrite ?lookup_empty, ?lookup_nil; try done; by intros [? ?].
Qed.

(** Settling a request rewrites one entry and keeps its key. *)
Lemma settled_lookup (rs : list Request) q r r' q' x' :
  rs !! q = Some r ->
  <[q := r']> rs !! q' = Some x' ->
  req_key r' = req_key r ->
  exists x, rs !! q' = Some x /\ req_key x = req_key x' /\
            (q' <> q -> x' = x) /\ (q' = q -> x' = r').
Proof.
  intros Hq Hx Hk. apply list_lookup_insert_Some in Hx as [(-> & -> & _) | [Hne Hx]].
  - exists r. naive_solver.
  - exists x'. naive_solver.
Qed.

Lemma settled_lookup_rev (rs : list Request) q r r' q' x :
  rs !! q = Some r -> req_key r' = req_key r ->
  rs !! q' = Some x ->
  exists x', <[q := r']> rs !! q' = Some x' /\ req_key x' = req_key x.
Proof.
  intros Hq Hk Hx. destruct (decide (q = q')) as [-> | Hne].
  - exists r'. rewrite list_lookup_insert_eq by (by eapply lookup_lt_Some).
    naive_solver.
  - exists x. by rewrite list_lookup_insert_ne.
Qed.

Lemma invariant_run c key arg s : invariant s -> invariant (run_effect c key arg s).
Proof.
  intros [Hp Hc Hs Hf Hk Hl]. unfold run_effect.
  destruct (coverCache s !! key) as [v |] eqn:Hcache; [by constructor |].
  destruct (pending s !! key) as [q |] eqn:Hpend.
  - constructor; simpl; try done.
    intros l li Hli. apply lookup_snoc_Some in Hli as [[_ Hli] | [_ <-]]; simpl; eauto.
  - constructor; simpl.
    + intros key' q' Hq'. apply lookup_insert_Some in Hq' as [[<- <-] | [Hne Hq']].
      * eexists. split; [by apply list_lookup_middle | done].
      * destruct (Hp _ _ Hq') as (r & Hr & Hkey). exists r.
        split; [by apply lookup_app_l_Some | done].
    + intros q' r Hr. apply lookup_snoc_Some in Hr as [[_ Hr] | [_ <-]]; simpl.
      * destruct (Hc _ _ Hr) as [Hcov | Hcov]; [by left | right].
        apply lookup_insert_is_Some'. by right.
      * right. apply lookup_insert_is_Some'. by left.
    + intros q1 q2 r1 r2 H1 H2 Heq.
      apply lookup_snoc_Some in H1 as [[_ H1] | [-> <-]];
        apply lookup_snoc_Some in H2 as [[_ H2] | [-> <-]]; simpl in *.
      * eauto.
      * destruct (Hc _ _ H1) as [[? Hx] | [? Hx]]; rewrite Heq in Hx; congruence.
      * destruct (Hc _ _ H2) as [[? Hx] | [? Hx]]; rewrite <- Heq in Hx; congruence.
      * done.
    + intros q' r url Hr Hst.
      apply lookup_snoc_Some in Hr as [[_ Hr] | [_ <-]]; simpl in *; [eauto | done].
    + intros key' Hcached. destruct (Hk _ Hcached) as (q' & r & Hr & Hkey).
      exists q', r. split; [by apply lookup_app_l_Some | done].
    + intros l li Hli. apply lookup_snoc_Some in Hli as [[_ Hli] | [_ <-]]; simpl.
      * destruct (Hl _ _ Hli) as (r & Hr & Hkey). exists r.
        split; [by apply lookup_app_l_Some | done].
      * eexists. split; [by apply list_lookup_middle | done].
Qed.

Lemma invariant_settle q res s s' :
  invariant s -> settle q res s = Some s' -> invariant s'.
Proof.
  intros [Hp Hc Hs Hf Hk Hl]. unfold settle.
  destruct (requests s !! q) as [[key arg [| |]] |] eqn:Hq; try done.
  set (r0 := {| req_key := key; req_arg := arg; req_state := Pending |}) in *.
  destruct res as [res |]; intros [= <-]; constructor; simpl.
  - intros key' q' Hq'. destruct (Hp _ _ Hq') as (r & Hr & Hkey).
    destruct (settled_lookup_rev _ q r0 {| req_key := key; req_arg := arg;
                req_state := Fulfilled (url_of res) |} _ _ Hq eq_refl Hr)
      as (x' & Hx' & Hkx). exists x'. split; [done | congruence].
  - intros q' r Hr.
    destruct (settled_lookup _ _ _ _ _ _ Hq Hr eq_refl) as (x & Hx & Hkx & _).
    rewrite <- Hkx. destruct (Hc _ _ Hx) as [Hcov | Hcov]; [left | by right].
    apply lookup_insert_is_Some'. by right.
  - intros q1 q2 r1 r2 H1 H2 Heq.
    destruct (settled_lookup _ _ _ _ _ _ Hq H1 eq_refl) as (x1 & Hx1 & Hk1 & _).
    destruct (settled_lookup _ _ _ _ _ _ Hq H2 eq_refl) as (x2 & Hx2 & Hk2 & _).
    apply (Hs _ _ _ _ Hx1 Hx2). congruence.
  - intros q' r url Hr Hst.
    destruct (settled_lookup _ _ _ _ _ _ Hq Hr eq_refl) as (x & Hx & Hkx & Hne & Heq).
    destruct (decide (q' = q)) as [-> | Hq'].
    + rewrite (Heq eq_refl) in Hst |- *. simpl in *. injection Hst as <-.
      apply lookup_insert_eq.
    + rewrite (Hne Hq') in Hst |- *. rewrite lookup_insert_ne; [eauto |].
      intros Hkey. apply Hq'. apply (Hs _ _ _ _ Hx Hq). by rewrite <- Hkey.
  - intros key' Hcached. apply lookup_insert_is_Some' in Hcached as [<- | Hcached].
    + exists q. eexists.
      split; [by rewrite list_lookup_insert_eq by (by eapply lookup_lt_Some) | done].
    + destruct (Hk _ Hcached) as (q' & r & Hr & Hkey).
      destruct (settled_lookup_rev _ q r0 {| req_key := key; req_arg := arg;
                  req_state := Fulfilled (url_of res) |} _ _ Hq eq_refl Hr)
        as (x' & Hx' & Hkx). exists q', x'. split; [done | congruence].
  - intros l li Hli. destruct (Hl _ _ Hli) as (r & Hr & Hkey).
    destruct (settled_lookup_rev _ q r0 {| req_key := key; req_arg := arg;
                req_state := Fulfilled (url_of res) |} _ _ Hq eq_refl Hr)
      as (x' & Hx' & Hkx). exists x'. split; [done | congruence].
  - intros key' q' Hq'. destruct (Hp _ _ Hq') as (r & Hr & Hkey).
    destruct (settled_lookup_rev _ q r0 {| req_key := key; req_arg := arg;
                req_state := Rejected |} _ _ Hq eq_refl Hr)
      as (x' & Hx' & Hkx). exists x'. split; [done | congruence].
  - intros q' r Hr.
    destruct (settled_lookup _ _ _ _ _ _ Hq Hr eq_refl) as (x & Hx & Hkx & _).
    rewrite <- Hkx. eauto.
  - intros q1 q2 r1 r2 H1 H2 Heq.
    destruct (settled_lookup _ _ _ _ _ _ Hq H1 eq_refl) as (x1 & Hx1 & Hk1 & _).
    destruct (settled_lookup _ _ _ _ _ _ Hq H2 eq_refl) as (x2 & Hx2 & Hk2 & _).
    apply (Hs _ _ _ _ Hx1 Hx2). congruence.
  - intros q' r url Hr Hst.
    destruct (settled_lookup _ _ _ _ _ _ Hq Hr eq_refl) as (x & Hx & Hkx & Hne & Heq).
    destruct (decide (q' = q)) as [-> | Hq'].
    + rewrite (Heq eq_refl) in Hst. done.
    + rewrite (Hne Hq') in Hst |- *. eauto.
  - intros key' Hcached. destruct (Hk _ Hcached) as (q' & r & Hr & Hkey).
    destruct (settled_lookup_rev _ q r0 {| req_key := key; req_arg := arg;
                req_state := Rejected |} _ _ Hq eq_refl Hr)
      as (x' & Hx' & Hkx). exists q', x'. split; [done | congruence].
  - intros l li Hli. destruct (Hl _ _ Hli) as (r & Hr & Hkey).
    destruct (settled_lookup_rev _ q r0 {| req_key := key; req_arg := arg;
                req_state := Rejected |} _ _ Hq eq_refl Hr)
      as (x' & Hx' & Hkx). exists x'. split; [done | congruence].
Qed.

Lemma invariant_react l s s' :
  invariant s -> react l s = Some s' -> invariant s'.
Proof.
  intros [Hp Hc Hs Hf Hk Hl]. unfold react.
  destruct (listeners s !! l) as [li |] eqn:Hli; [| done].
  destruct (l_ran li); [done |].
  destruct (requests s !! l_promise li) as [[key arg [| url |]] |] eqn:Hr; try done.
  intros [= <-].
  destruct (Hl _ _ Hli) as (r & Hr' & Hkey). rewrite Hr in Hr'.
  injection Hr' as <-. simpl in Hkey.
  pose proof (Hf _ _ url Hr eq_refl) as Hcache. simpl in Hcache.
  constructor; simpl; try done.
  - intros key' q' Hq'. apply lookup_delete_Some in Hq' as [_ Hq']. eauto.
  - intros q' r' Hr'. destruct (decide (req_key r' = l_key li)) as [Heq | Hne].
    + left. rewrite Heq, <- Hkey, Hcache. eauto.
    + destruct (Hc _ _ Hr') as [Hcov | Hcov]; [by left | right].
      apply lookup_delete_is_Some. split; [congruence | done].
  - intros l' li' Hli'.
    apply list_lookup_insert_Some in Hli' as [(-> & <- & _) | [_ Hli']]; simpl; eauto.
Qed.

Lemma invariant_cleanup l s s' :
  invariant s -> cleanup l s = Some s' -> invariant s'.
Proof.
  intros [Hp Hc Hs Hf Hk Hl]. unfold cleanup.
  destruct (listeners s !! l) as [li |] eqn:Hli; [| done].
  intros [= <-]. constructor; simpl; try done.
  intros l' li' Hli'.
  apply list_lookup_insert_Some in Hli' as [(-> & <- & _) | [_ Hli']]; simpl; eauto.
Qed.

Lemma invariant_step s e s' : invariant s -> step s e = Some s' -> invariant s'.
Proof.
  intros Hinv. destruct e as [c key arg | q res | l | l]; simpl.
  - intros [= <-]. by apply invariant_run.
  - by apply invariant_settle.
  - by apply invariant_react.
  - by apply invariant_cleanup.
Qed.

Lemma invariant_exec evs : forall s s',
  invariant s -> exec s evs = Some s' -> invariant s'.
Proof.
  induction evs as [| e evs IH]; intros s s' Hinv; simpl.
  - by intros [= <-].
  - destruct (step s e) as [s1 |] eqn:Hstep; [| done].
    apply IH. by eapply invariant_step.
Qed.

(** Every store the event loop can reach satisfies the invariant. *)
Lemma invariant_reachable evs s : exec init evs = Some s -> invariant s.
Proof. apply invariant_exec, invariant_init. Qed.

(** Requests with pairwise different keys: at most one has a given
    key. *)
Lemma single_key_filter (rs : list Request) key :
  (forall q1 q2 r1 r2,
     rs !! q1 = Some r1 -> rs !! q2 = Some r2 -> req_key r1 = req_key r2 -> q1 = q2) ->
  length (filter (fun r => req_key r = key) rs) <= 1.
Proof.
  induction rs as [| r rs IH]; intros Hs; [simpl; lia |].
  assert (length (filter (fun r => req_key r = key) rs) <= 1) as IH'.
  { apply IH. intros q1 q2 r1 r2 H1 H2 Heq.
    apply eq_add_S. by apply (Hs (S q1) (S q2) r1 r2). }
  destruct (decide (req_key r = key)) as [Hr | Hr].
  - rewrite filter_cons_True by done.
    destruct (filter (fun r => req_key r = key) rs) as [| x xs] eqn:E; [simpl; lia |].
    assert (x ∈ filter (fun r => req_key r = key) rs) as Hx by (rewrite E; left).
    apply list_elem_of_filter in Hx as [Hkx Hx].
    apply list_elem_of_lookup in Hx as [i Hi].
    assert (0 = S i) by (apply (Hs 0 (S i) r x); [done | done | congruence]).
    done.
  - by rewrite filter_cons_False.
Qed.

Lemma fetches_le_1 s key : invariant s -> fetches key s <= 1.
Proof. intros Hinv. apply single_key_filter, (inv_single _ Hinv). Qed.

Lemma fetches_zero s key q r :
  fetches key s = 0 -> requests s !! q = Some r -> req_key r <> key.
Proof.
  unfold fetches. intros Hz Hr Hkey. apply length_zero_iff_nil in Hz.
  apply (filter_nil_not_elem_of _ _ r Hz Hkey). apply list_elem_of_lookup. eauto.
Qed.

(** A key that was never requested is neither cached nor in flight. *)
Lemma never_requested s key :
  invariant s -> fetches key s = 0 ->
  coverCache s !! key = None /\ pending s !! key = None.
Proof.
  intros Hinv Hz. split.
  - destruct (coverCache s !! key) eqn:Hc; [| done].
    destruct (inv_cached _ Hinv key) as (q & r & Hr & Hkey); [by rewrite Hc |].
    by destruct (fetches_zero _ _ _ _ Hz Hr).
  - destruct (pending s !! key) as [q |] eqn:Hp; [| done].
    destruct (inv_pending _ Hinv _ _ Hp) as (r & Hr & Hkey).
    by destruct (fetches_zero _ _ _ _ Hz Hr).
Qed.


(** *** The steps, as equations *)

Lemma run_effect_cached c key arg s v :
  coverCache s !! key = Some v ->
  run_effect c key arg s
  = {| coverCache := coverCache s; pending := pending s; requests := requests s;
       listeners := listeners s; src := <[c := v]> (src s) |}.
Proof. unfold run_effect. by intros ->. Qed.

Lemma run_effect_fresh c key arg s :
  coverCache s !! key = None -> pending s !! key = None ->
  run_effect c key arg s
  = {| coverCache := coverCache s;
       pending := <[key := length (requests s)]> (pending s);
       requests :=
         requests s ++ [{| req_key := key; req_arg := arg; req_state := Pending |}];
       listeners :=
         listeners s ++ [{| l_component := c; l_key := key;
                            l_promise := length (requests s);
                            l_cancelled := false; l_ran := false |}];
       src := src s |}.
Proof. unfold run_effect. by intros -> ->. Qed.

Lemma run_effect_attach c key arg s q :
  coverCache s !! key = None -> pending s !! key = Some q ->
  run_effect c key arg s
  = {| coverCache := coverCache s; pending := pending s; requests := requests s;
       listeners :=
         listeners s ++ [{| l_component := c; l_key := key; l_promise := q;
                            l_cancelled := false; l_ran := false |}];
       src := src s |}.
Proof. unfold run_effect. by intros -> ->. Qed.

Lemma settle_fulfilled q res s key arg :
  requests s !! q = Some {| req_key := key; req_arg := arg; req_state := Pending |} ->
  settle q (fulfilled res) s
  = Some {| coverCache := <[key := url_of res]> (coverCache s);
            pending := pending s;
            requests :=
              <[q := {| req_key := key; req_arg := arg;
                        req_state := Fulfilled (url_of res) |}]> (requests s);
            listeners := listeners s; src := src s |}.
Proof. unfold settle. by intros ->. Qed.

Lemma react_fulfilled l s li key arg url :
  listeners s !! l = Some li -> l_ran li = false ->
  requests s !! l_promise li
  = Some {| req_key := key; req_arg := arg; req_state := Fulfilled url |} ->
  react l s
  = Some {| coverCache := coverCache s;
            pending := delete (l_key li) (pending s);
            requests := requests s;
            listeners :=
              <[l := {| l_component := l_component li; l_key := l_key li;
                        l_promise := l_promise li;
                        l_cancelled := l_cancelled li; l_ran := true |}]> (listeners s);
            src := if l_cancelled li then src s else <[l_component li := url]> (src s) |}.
Proof. unfold react. by intros -> -> ->. Qed.

Lemma two_gets_one_fetch s key c1 c2 a1 a2 res :
  invariant s -> fetches key s = 0 ->
  exists s',
    exec s [Run c1 key a1; Run c2 key a2;
            Settle (length (requests s)) (fulfilled res);
            React (length (listeners s)); React (S (length (listeners s)))]
    = Some s' /\
    requests s'
    = requests s ++ [{| req_key := key; req_arg := a1;
                        req_state := Fulfilled (url_of res) |}] /\
    coverCache s' !! key = Some (url_of res) /\
    src s' !! c1 = Some (url_of res) /\
    src s' !! c2 = Some (url_of res).
Proof.
  intros Hinv Hz. destruct (never_requested _ _ Hinv Hz) as [Hc Hp].
  eexists. split.
  - cbn [exec step].
    rewrite (run_effect_fresh c1 key a1 s Hc Hp).
    erewrite (run_effect_attach c2 key a2); [| exact Hc | apply lookup_insert_eq].
    cbn [coverCache pending requests listeners src].
    erewrite settle_fulfilled; [| by apply list_lookup_middle].
    cbn [coverCache pending requests listeners src].
    rewrite (react_fulfilled (length (listeners s)) _
               {| l_component := c1; l_key := key; l_promise := length (requests s);
                  l_cancelled := false; l_ran := false |} key a1 (url_of res));
      cbn [coverCache pending requests listeners src
           l_component l_key l_promise l_cancelled l_ran];
      [| by rewrite <- (assoc_L (++)); apply list_lookup_middle
       | done
       | by apply list_lookup_insert_eq; rewrite length_app; simpl; lia].
    rewrite (react_fulfilled (S (length (listeners s))) _
               {| l_component := c2; l_key := key; l_promise := length (requests s);
                  l_cancelled := false; l_ran := false |} key a1 (url_of res));
      cbn [coverCache pending requests listeners src
           l_component l_key l_promise l_cancelled l_ran];
      [reflexivity
       | rewrite list_lookup_insert_ne by lia;
         apply lookup_snoc_Some; right; split; [rewrite length_app; simpl; lia | done]
       | done
       | by apply list_lookup_insert_eq; rewrite length_app; simpl; lia].
  - cbn [coverCache pending requests listeners src]. repeat apply conj.
    + rewrite insert_app_r_alt by lia. by rewrite Nat.sub_diag.
    + apply lookup_insert_eq.
    + destruct (decide (c1 = c2)) as [-> | Hne]; [apply lookup_insert_eq |].
      rewrite lookup_insert_ne by done. apply lookup_insert_eq.
    + apply lookup_insert_eq.
Qed.

End CoverArtFacts.

(** C8: in every store the event loop can reach, at most one backend
    call has been made for each key; two effect runs for a key that was
    never requested make exactly one call, and once it is fulfilled and
    their callbacks have run both components hold the same value, the one
    written to the cache; an effect run for a cached key makes no call and
    gives the component the cached value. *)
Theorem cover_art_fetched_once :
  (forall evs s key, CoverArt.exec CoverArt.init evs = Some s ->
     CoverArt.fetches key s <= 1) /\
  (forall evs s key c1 c2 a1 a2 res,
     CoverArt.exec CoverArt.init evs = Some s -> CoverArt.fetches key s = 0 ->
     exists s',
       CoverArt.exec s
         [CoverArt.Run c1 key a1; CoverArt.Run c2 key a2;
          CoverArt.Settle (length (CoverArt.requests s)) (Editor.fulfilled res);
          CoverArt.React (length (CoverArt.listeners s));
          CoverArt.React (S (length (CoverArt.listeners s)))] = Some s' /\
       CoverArt.fetches key s' = 1 /\
       CoverArt.coverCache s' !! key = Some (CoverArt.url_of res) /\
       CoverArt.src s' !! c1 = Some (CoverArt.url_of res) /\
       CoverArt.src s' !! c2 = Some (CoverArt.url_of res)) /\
  (forall evs s key v c arg,
     CoverArt.exec CoverArt.init evs = Some s ->
     CoverArt.coverCache s !! key = Some v ->
     exists s',
       CoverArt.step s (CoverArt.Run c key arg) = Some s' /\
       CoverArt.requests s' = CoverArt.requests s /\
       CoverArt.src s' !! c = Some v).
Proof.
  repeat apply conj.
  - intros evs s key Hs. by apply CoverArtFacts.fetches_le_1, (CoverArtFacts.invariant_reachable evs).
  - intros evs s key c1 c2 a1 a2 res Hs Hz.
    pose proof (CoverArtFacts.invariant_reachable _ _ Hs) as Hinv.
    destruct (CoverArtFacts.two_gets_one_fetch s key c1 c2 a1 a2 res Hinv Hz)
      as (s' & Hexec & Hreq & Hcache & H1 & H2).
    exists s'. repeat apply conj; try done.
    unfold CoverArt.fetches in *. rewrite Hreq, filter_app, length_app, Hz.
    by rewrite filter_cons_True by done.
  - intros evs s key v c arg Hs Hv. eexists. simpl.
    rewrite (CoverArtFacts.run_effect_cached c key arg s v Hv).
    repeat apply conj; try done. apply lookup_insert_eq.
Qed.

(** The theorem at two tracks of album 7 rendered together, and a third
    one rendered after the cover arrived. *)
Lemma cover_art_fetched_once_witness :
  let art := {| CoverArt.mimeType := "image/png"; CoverArt.data := "AAAA" |} in
  exists s',
    CoverArt.exec CoverArt.init
      [CoverArt.useCoverArt 0 10 (Some 7%Z); CoverArt.useCoverArt 1 11 (Some 7%Z);
       CoverArt.Settle 0 (Editor.fulfilled (Editor.ok (Some art)));
       CoverArt.React 0; CoverArt.React 1] = Some s' /\
    CoverArt.fetches 7 s' = 1 /\
    CoverArt.coverCache s' !! 7%Z = Some (Some "data:image/png;base64,AAAA") /\
    CoverArt.src s' !! 0 = Some (Some "data:image/png;base64,AAAA") /\
    CoverArt.src s' !! 1 = Some (Some "data:image/png;base64,AAAA").
Proof.
  intros art.
  apply (proj1 (proj2 cover_art_fetched_once) [] CoverArt.init 7%Z 0 1 10%Z 11%Z
               (Editor.ok (Some art))); reflexivity.
Defined.

(** * The rest of the editor *)

(** ** The artist chips *)

Module ArtistFacts.
Import JS Editor ArtistTagInput.

(** A name as a chip holds it: not empty, and with no white space at
    either end. *)
Definition clean (n : string) : Prop := n <> "" /\ trim n = n.

Lemma trimEnd_idem s : trimEnd (trimEnd s) = trimEnd s.
Proof.
  induction s as [| c s IH]; [done |].
  change (trimEnd (String c s))
    with (match trimEnd s with
          | EmptyString => if isWhiteSpace c then EmptyString else String c EmptyString
          | r => String c r
          end).
  destruct (trimEnd s) as [| c' r] eqn:E.
  - destruct (isWhiteSpace c) eqn:Hc; [done |].
    change (trimEnd (String c ""))
      with (if isWhiteSpace c then EmptyString else String c EmptyString).
    by rewrite Hc.
  - change (trimEnd (String c (String c' r)))
      with (match trimEnd (String c' r) with
            | EmptyString => if isWhiteSpace c then EmptyString else String c EmptyString
            | r0 => String c r0
            end).
    by rewrite IH.
Qed.

(** What [trimStart] returns does not start with white space, and
    [trimEnd] keeps it so. *)
Lemma trimStart_head s :
  match trimStart s with
  | EmptyString => True
  | String c _ => isWhiteSpace c = false
  end.
Proof.
  induction s as [| c s IH]; [done |].
  change (trimStart (String c s)) with (if isWhiteSpace c then trimStart s else String c s).
  by destruct (isWhiteSpace c) eqn:Hc.
Qed.

Lemma trimEnd_head c s :
  isWhiteSpace c = false -> exists r, trimEnd (String c s) = String c r.
Proof.
  intros Hc.
  change (trimEnd (String c s))
    with (match trimEnd s with
          | EmptyString => if isWhiteSpace c then EmptyString else String c EmptyString
          | r => String c r
          end).
  destruct (trimEnd s); rewrite ?Hc; eauto.
Qed.

Lemma trimStart_trim s : trimStart (trim s) = trim s.
Proof.
  unfold trim. pose proof (trimStart_head s) as Hh.
  destruct (trimStart s) as [| c r]; [done |].
  destruct (trimEnd_head c r Hh) as [r' ->].
  change (trimStart (String c r')) with (if isWhiteSpace c then trimStart r' else String c r').
  by rewrite Hh.
Qed.

Lemma trim_idem s : trim (trim s) = trim s.
Proof. unfold trim at 1. rewrite trimStart_trim. unfold trim. apply trimEnd_idem. Qed.

Lemma truthy_ne s : truthy s = true <-> s <> "".
Proof. destruct s; simpl; split; intros; done. Qed.

Lemma clean_trim s : truthy (trim s) = true -> clean (trim s).
Proof. intros Ht. split; [by apply truthy_ne | apply trim_idem]. Qed.

(** The chips are in order: no name twice, every name clean. *)
Definition tidy (l : list string) : Prop := NoDup l /\ Forall clean l.

Lemma addArtist_tidy name w : tidy (value w) -> tidy (value (addArtist name w)).
Proof.
  intros [Hnd Hcl]. unfold addArtist.
  destruct (truthy (trim name)) eqn:Ht; simpl; [| done].
  case_bool_decide as Hin; simpl; [done |].
  split.
  - apply NoDup_app. split; [done |]. split; [| apply NoDup_singleton].
    intros x Hx Hx'. apply list_elem_of_singleton in Hx' as ->. done.
  - apply Forall_app. split; [done |]. apply Forall_singleton. by apply clean_trim.
Qed.

Lemma act_tidy w a : tidy (value w) -> tidy (value (act w a)).
Proof.
  intros Hw. destruct a as [text | key | | | name | name]; simpl; try done.
  - unfold handleKeyDown.
    destruct (bool_decide (key = "Enter") || bool_decide (key = ","));
      [by apply addArtist_tidy |].
    destruct (bool_decide (key = "Backspace") && _ && _); simpl.
    + destruct Hw as [Hnd Hcl]. unfold dropLast. split.
      * eapply sublist_NoDup; [done | apply sublist_take].
      * by apply Forall_take.
    + by destruct (bool_decide (key = "Escape")).
  - unfold commitText. destruct (truthy _); [by apply addArtist_tidy | done].
  - by apply addArtist_tidy.
  - by apply addArtist_tidy.
  - destruct Hw as [Hnd Hcl]. split.
    + by apply NoDup_filter.
    + apply Forall_forall. intros x Hx. apply list_elem_of_filter in Hx as [_ Hx].
      by eapply Forall_forall in Hcl.
Qed.

(** What the reconciler reads out of a track is clean, name by name. *)
Lemma artistList_clean t : Forall clean (artistList t).
Proof.
  unfold artistList. destruct (Track.artistName t) as [a |]; [| constructor].
  destruct (truthy a); [| constructor].
  apply Forall_forall. intros n Hn.
  apply list_elem_of_filter in Hn as [Ht Hn].
  apply list_elem_of_fmap in Hn as (s & -> & _). by apply clean_trim.
Qed.

End ArtistFacts.

(** X1: whatever the user does in the artist input (typing, Enter or
    comma, Backspace, Escape, blur, the add button, a suggestion, a remove
    button), chips that held no name twice and only clean names (not
    empty, no white space at either end) still do. *)
Theorem artist_chips_stay_tidy (w : ArtistTagInput.Chips) (actions : list ArtistTagInput.Action) :
  ArtistFacts.tidy (ArtistTagInput.value w) ->
  ArtistFacts.tidy (ArtistTagInput.value (foldl ArtistTagInput.act w actions)).
Proof.
  revert w. induction actions as [| a actions IH]; intros w Hw; simpl; [done |].
  by apply IH, ArtistFacts.act_tidy.
Qed.

(** The theorem at a user who adds Bob twice, with spaces around, and a
    blank name. *)
Lemma artist_chips_stay_tidy_witness :
  ArtistTagInput.value
    (foldl ArtistTagInput.act
       {| ArtistTagInput.value := ["Alice"]; ArtistTagInput.inputText := "";
          ArtistTagInput.open := false |}
       [ArtistTagInput.Type_ " Bob "; ArtistTagInput.KeyDown "Enter";
        ArtistTagInput.ClickSuggestion "Bob"; ArtistTagInput.Type_ "   ";
        ArtistTagInput.KeyDown ","]) = ["Alice"; "Bob"] /\
  ArtistFacts.tidy
    (ArtistTagInput.value
       (foldl ArtistTagInput.act
          {| ArtistTagInput.value := ["Alice"]; ArtistTagInput.inputText := "";
             ArtistTagInput.open := false |}
          [ArtistTagInput.Type_ " Bob "; ArtistTagInput.KeyDown "Enter";
           ArtistTagInput.ClickSuggestion "Bob"; ArtistTagInput.Type_ "   ";
           ArtistTagInput.KeyDown ","])).
Proof.
  split; [reflexivity |].
  apply artist_chips_stay_tidy. split.
  - apply NoDup_singleton.
  - apply Forall_singleton. split; [discriminate | reflexivity].
Defined.

(** ** Artist names through a commit and a reload *)

Module ArtistRoundTrip.
Import JS Editor ArtistFacts CommitFacts.

(** No [" /"] of the name is followed by a space or ends the name: such
    a name cannot be mistaken for two names once it is joined. *)
Fixpoint unambiguous (s : string) : bool :=
  match s with
  | EmptyString => true
  | String c s' => negb (String.prefix " / " (s +:+ " ")) && unambiguous s'
  end.

Lemma prefix_cons a s1 b s2 :
  String.prefix (String a s1) (String b s2)
  = if ascii_dec a b then String.prefix s1 s2 else false.
Proof. done. Qed.

Lemma split_go_cons sep cur c s :
  split_go sep 0 cur (String c s)
  = if String.prefix sep (String c s)
    then cur :: split_go sep (String.length sep - 1) "" s
    else split_go sep 0 (cur +:+ String c "") s.
Proof. done. Qed.

(** Inside an unambiguous name no separator starts, whatever follows the
    name after a space. *)
Lemma no_separator_inside c n rest :
  String.prefix " / " (String c n +:+ " ") = false ->
  String.prefix " / " (String c n +:+ " " +:+ rest) = false.
Proof.
  change (String c n +:+ " ") with (String c (n +:+ " ")).
  change (String c n +:+ " " +:+ rest) with (String c (n +:+ " " +:+ rest)).
  rewrite !prefix_cons. destruct (ascii_dec " " c) as [_ | _]; [| done].
  destruct n as [| c2 n]; [done |].
  change (String c2 n +:+ " ") with (String c2 (n +:+ " ")).
  change (String c2 n +:+ " " +:+ rest) with (String c2 (n +:+ " " +:+ rest)).
  rewrite !prefix_cons. destruct (ascii_dec "/" c2) as [_ | _]; [| done].
  destruct n as [| c3 n]; [done |].
  change (String c3 n +:+ " ") with (String c3 (n +:+ " ")).
  change (String c3 n +:+ " " +:+ rest) with (String c3 (n +:+ " " +:+ rest)).
  rewrite !prefix_cons. destruct (ascii_dec " " c3) as [_ | _]; [| done].
  by rewrite !prefix_empty.
Qed.

Lemma no_separator_at_end c n :
  String.prefix " / " (String c n +:+ " ") = false ->
  String.prefix " / " (String c n) = false.
Proof.
  change (String c n +:+ " ") with (String c (n +:+ " ")).
  rewrite !prefix_cons. destruct (ascii_dec " " c) as [_ | _]; [| done].
  destruct n as [| c2 n]; [done |].
  change (String c2 n +:+ " ") with (String c2 (n +:+ " ")).
  rewrite !prefix_cons. destruct (ascii_dec "/" c2) as [_ | _]; [| done].
  destruct n as [| c3 n]; [done |].
  change (String c3 n +:+ " ") with (String c3 (n +:+ " ")).
  rewrite !prefix_cons. destruct (ascii_dec " " c3) as [_ | _]; [| done].
  by rewrite !prefix_empty.
Qed.

(** The last name of a joined string is one segment. *)
Lemma split_go_last n : forall cur,
  unambiguous n = true -> split_go " / " 0 cur n = [cur +:+ n].
Proof.
  induction n as [| c n IH]; intros cur Hn.
  - simpl. by rewrite append_empty_r.
  - change (unambiguous (String c n))
      with (negb (String.prefix " / " (String c n +:+ " ")) && unambiguous n) in Hn.
    apply andb_true_iff in Hn as [Hc Hn]. apply negb_true_iff in Hc.
    rewrite split_go_cons, (no_separator_at_end _ _ Hc), IH by done.
    by rewrite append_assoc.
Qed.

(** A name followed by the separator is one segment, and the scan goes on
    behind the separator. *)
Lemma split_go_name n : forall cur rest,
  unambiguous n = true ->
  split_go " / " 0 cur (n +:+ " / " +:+ rest) = (cur +:+ n) :: split_go " / " 0 "" rest.
Proof.
  induction n as [| c n IH]; intros cur rest Hn.
  - change ("" +:+ " / " +:+ rest) with (String " " (String "/" (String " " rest))).
    rewrite split_go_cons, !prefix_cons.
    destruct (ascii_dec " " " ") as [_ | Hne]; [| done].
    destruct (ascii_dec "/" "/") as [_ | Hne]; [| done].
    rewrite prefix_empty, append_empty_r. done.
  - change (unambiguous (String c n))
      with (negb (String.prefix " / " (String c n +:+ " ")) && unambiguous n) in Hn.
    apply andb_true_iff in Hn as [Hc Hn]. apply negb_true_iff in Hc.
    change (String c n +:+ " / " +:+ rest) with (String c (n +:+ " / " +:+ rest)).
    rewrite split_go_cons.
    change (String c (n +:+ " / " +:+ rest)) with (String c n +:+ " " +:+ ("/ " +:+ rest)).
    rewrite (no_separator_inside _ _ _ Hc).
    change (n +:+ " " +:+ "/ " +:+ rest) with (n +:+ " / " +:+ rest).
    rewrite IH by done. by rewrite append_assoc.
Qed.

Lemma join_cons_cons sep x y l :
  join sep (x :: y :: l) = x +:+ sep +:+ join sep (y :: l).
Proof. done. Qed.

(** Splitting what was joined gives the names back. *)
Lemma split_join names :
  names <> [] -> Forall (fun n => unambiguous n = true) names ->
  split " / " (join " / " names) = names.
Proof.
  unfold split. induction names as [| x l IH]; intros Hne Hall; [done |].
  inversion Hall as [| ? ? Hx Hl]; subst. destruct l as [| y l].
  - change (join " / " [x]) with x. by rewrite split_go_last.
  - rewrite join_cons_cons, split_go_name by done.
    change ("" +:+ x) with x. f_equal. by apply IH.
Qed.

Lemma join_nonempty names :
  names <> [] -> Forall clean names -> join " / " names <> "".
Proof.
  destruct names as [| x l]; intros Hne Hall; [done |].
  inversion Hall as [| ? ? [Hx _] _]; subst. destruct l as [| y l]; [done |].
  rewrite join_cons_cons. by destruct x.
Qed.

Lemma map_trim_clean names : Forall clean names -> map trim names = names.
Proof.
  induction 1 as [| x l [_ Hx] _ IH]; simpl; [done |]. by rewrite Hx, IH.
Qed.

Lemma filter_truthy_clean names :
  Forall clean names -> filter (fun s => truthy s = true) names = names.
Proof.
  induction 1 as [| x l [Hx _] _ IH]; [done |].
  rewrite filter_cons_True by (by apply truthy_ne). by rewrite IH.
Qed.

(** The [artistName] that [save] writes for the chips [names]. *)
Definition written (names : list string) : string :=
  if bool_decide (0 < length names) then join " / " names else "".

Lemma artistList_written names t :
  Forall clean names -> Forall (fun n => unambiguous n = true) names ->
  Track.artistName t = Some (written names) ->
  artistList t = names.
Proof.
  intros Hcl Hun Ht. unfold artistList, written in *. rewrite Ht.
  destruct names as [| x l]; [done |].
  rewrite bool_decide_eq_true_2 by (simpl; lia).
  assert (truthy (join " / " (x :: l)) = true) as ->
    by (apply truthy_ne, join_nonempty; done).
  rewrite split_join by done.
  by rewrite map_trim_clean, filter_truthy_clean.
Qed.

Lemma buildInput_artistName es :
  buildInput es !! "artistName"
  = match artistNames es with
    | edited names => Some (VStr (written names))
    | _ => None
    end.
Proof.
  unfold buildInput. cbv zeta.
  do 12 (rewrite lookup_when_edited_other
           by (intros; repeat (rewrite lookup_insert_ne by done); done)).
  unfold when_edited at 1, written. destruct (artistNames es); simpl.
  - rewrite lookup_when_edited_other by (intros; by rewrite lookup_insert_ne). done.
  - rewrite lookup_when_edited_other by (intros; by rewrite lookup_insert_ne). done.
  - by rewrite lookup_insert_eq.
Qed.

(** What [save] writes is the names joined by [" / "]. *)
Lemma written_join names : written names = join " / " names.
Proof. unfold written. by destruct names. Qed.

(** The reconciler on records that all hold the string written. *)
Lemma artistNames_written names ts :
  Forall clean names -> Forall (fun n => unambiguous n = true) names ->
  ts <> [] -> Forall (fun t => Track.artistName t = Some (written names)) ts ->
  artistNames (buildEditState ts) = uniform names.
Proof.
  intros Hcl Hun Hne Hall. destruct ts as [| t0 rest]; [done |].
  assert (forall t, t ∈ t0 :: rest -> artistList t = names) as Hlist.
  { intros t Hin. apply artistList_written; [done | done |].
    by apply (proj1 (Forall_forall _ _) Hall). }
  unfold buildEditState. cbn [artistNames].
  rewrite ReconcilerFacts.computeField_agree.
  - f_equal. apply Hlist. left.
  - intros t Hin. rewrite (Hlist t Hin), (Hlist t0) by left.
    by apply bool_decide_eq_true_2.
Qed.

(** The track of the fixtures, credited to [a]. *)
Definition credited (a : string) : TrackRow :=
  {| Track.id := 1; Track.title := "Title A"; Track.artistName := Some a;
     Track.albumTitle := Some "Test Album"; Track.albumArtist := None;
     Track.composer := None; Track.year := None; Track.genre := None;
     Track.trackNumber := Some 5%Z; Track.trackTotal := None;
     Track.discNumber := Some 1%Z; Track.discTotal := None; Track.bpm := None;
     Track.comment := None; Track.commentLang := None;
     Track.lyrics := Some "Some lyrics here"; Track.lyricsLang := None |}.

End ArtistRoundTrip.

(** X2: the artist names of a commit survive the reload.  When the artist
    chips are edited to [names], all clean and unambiguous, the patch
    carries under [artistName] the names joined by [" / "] (the empty
    string for no name), and [buildEditState] on records that all hold
    this string gives the artist field back as uniform [names]: the panel
    shows exactly the names that were committed. *)
Theorem artist_names_round_trip (es : Editor.EditState) (names : list string)
        (ts : list Track.TrackRow) :
  Editor.artistNames es = Editor.edited names ->
  Forall ArtistFacts.clean names ->
  Forall (fun n => ArtistRoundTrip.unambiguous n = true) names ->
  Editor.buildInput es !! "artistName" = Some (JS.VStr (JS.join " / " names)) /\
  (names = [] -> JS.join " / " names = "") /\
  (ts <> [] ->
   Forall (fun t => Track.artistName t = Some (JS.join " / " names)) ts ->
   Editor.artistNames (Editor.buildEditState ts) = Editor.uniform names /\
   Editor.displayValue (Editor.artistNames (Editor.buildEditState ts)) = Some names).
Proof.
  intros Hes Hcl Hun. repeat apply conj.
  - by rewrite ArtistRoundTrip.buildInput_artistName, Hes, ArtistRoundTrip.written_join.
  - by intros ->.
  - intros Hne Hall. rewrite <- ArtistRoundTrip.written_join in Hall.
    rewrite (ArtistRoundTrip.artistNames_written names ts Hcl Hun Hne Hall). done.
Qed.

(** The theorem at Alice and AC/DC: the patch carries
    ["Alice / AC/DC"], and a track that holds it shows the two names. *)
Lemma artist_names_round_trip_witness :
  Editor.buildInput
    (Editor.withField Editor.K_artistNames (Editor.edited ["Alice"; "AC/DC"])
                      (Editor.buildEditState [])) !! "artistName"
  = Some (JS.VStr "Alice / AC/DC") /\
  Editor.artistNames (Editor.buildEditState [ArtistRoundTrip.credited "Alice / AC/DC"])
  = Editor.uniform ["Alice"; "AC/DC"].
Proof.
  destruct (artist_names_round_trip
              (Editor.withField Editor.K_artistNames (Editor.edited ["Alice"; "AC/DC"])
                                (Editor.buildEditState []))
              ["Alice"; "AC/DC"] [ArtistRoundTrip.credited "Alice / AC/DC"])
    as (Hpatch & _ & Hread).
  - reflexivity.
  - repeat constructor; discriminate.
  - repeat constructor.
  - split; [exact Hpatch |].
    apply Hread; [discriminate | repeat constructor].
Defined.

(** Without the second hypothesis the round trip fails: ["a /"] and ["b"]
    are written as ["a / / b"], which reads back as ["a"] and ["/ b"]. *)
Example ambiguous_name_is_split :
  ArtistRoundTrip.unambiguous "a /" = false /\
  ArtistRoundTrip.written ["a /"; "b"] = "a / / b" /\
  filter (fun s => JS.truthy s = true) (map JS.trim (JS.split " / " "a / / b")) = ["a"; "/ b"].
Proof. repeat apply conj; reflexivity. Qed.

(** ** What a validated input is parsed to *)

Module ParseFacts.
Import JS Editor Regex Validators ValidatorFacts CommitFacts.

Lemma digit_code c :
  digit c = true <-> 48 <= nat_of_ascii c <= 57.
Proof.
  unfold digit, in_range. change (nat_of_ascii "0") with 48. change (nat_of_ascii "9") with 57.
  rewrite andb_true_iff, !Nat.leb_le. done.
Qed.

Lemma digitValue_digit c :
  digit c = true ->
  digitValue c = Some (Z.of_nat (nat_of_ascii c) - 48)%Z /\
  (0 <= Z.of_nat (nat_of_ascii c) - 48 < 10)%Z.
Proof.
  intros Hc. apply digit_code in Hc. unfold digitValue.
  destruct (Z.leb_spec 48 (Z.of_nat (nat_of_ascii c))); [| lia].
  destruct (Z.leb_spec (Z.of_nat (nat_of_ascii c)) 57); [| lia].
  simpl. split; [done | lia].
Qed.

Lemma digit_not_space c : digit c = true -> isWhiteSpace c = false.
Proof.
  intros Hc. apply digit_code in Hc. unfold isWhiteSpace.
  repeat (apply orb_false_iff; split); [apply andb_false_iff; right | |];
    (apply Nat.leb_gt || apply Nat.eqb_neq); lia.
Qed.

(** The digits read so far, as a number. *)
Definition digits_from (acc : Z) (w : list ascii) : Z :=
  fold_left (fun a c => (a * 10 + (Z.of_nat (nat_of_ascii c) - 48))%Z) w acc.

Lemma parseDigits_digits v : forall acc,
  all_chars digit v ->
  parseDigits 10 acc v
  = match v with
    | EmptyString => acc
    | String _ _ => Some (digits_from (default 0%Z acc) (chars v))
    end.
Proof.
  unfold all_chars. induction v as [| c v IH]; intros acc Hv; [done |].
  simpl in Hv. apply andb_true_iff in Hv as [Hc Hv].
  destruct (digitValue_digit c Hc) as [Hd Hr].
  change (parseDigits 10 acc (String c v))
    with (match digitValue c with
          | Some d =>
              if (d <? 10)%Z
              then parseDigits 10 (Some (default 0 acc * 10 + d)%Z) v
              else acc
          | None => acc
          end).
  rewrite Hd. destruct (Z.ltb_spec (Z.of_nat (nat_of_ascii c) - 48) 10); [| lia].
  rewrite IH by done. by destruct v.
Qed.

Lemma digits_from_nonneg w : forall acc,
  (0 <= acc)%Z -> forallb digit w = true -> (0 <= digits_from acc w)%Z.
Proof.
  induction w as [| c w IH]; intros acc Hacc Hw; simpl; [done |].
  simpl in Hw. apply andb_true_iff in Hw as [Hc Hw].
  apply IH; [| done]. apply digit_code in Hc. lia.
Qed.

(** On a non-empty string of decimal digits [parseInt] is the decimal
    value: no white space, no sign and no [0x] is there to be read. *)
Lemma parseInt_digits v : digit_string v -> parseInt v = Num (decimalValue v).
Proof.
  intros [Hne Hv]. destruct v as [| c v]; [done |].
  pose proof Hv as Hv'. unfold all_chars in Hv'. simpl in Hv'.
  apply andb_true_iff in Hv' as [Hc Hrest].
  assert (parseDigits 10 None (String c v) = Some (decimalValue (String c v))) as Hp
    by (by rewrite parseDigits_digits).
  unfold parseInt.
  change (trimStart (String c v)) with (if isWhiteSpace c then trimStart v else String c v).
  rewrite (digit_not_space c Hc).
  destruct v as [| c2 v].
  - destruct c as [[] [] [] [] [] [] [] []]; try discriminate Hc; vm_compute; reflexivity.
  - simpl in Hrest. apply andb_true_iff in Hrest as [Hc2 _].
    destruct c as [[] [] [] [] [] [] [] []]; try discriminate Hc;
      try (cbv beta iota; rewrite Hp; f_equal; lia).
    destruct c2 as [[] [] [] [] [] [] [] []]; try discriminate Hc2;
      cbv beta iota; rewrite Hp; f_equal; lia.
Qed.

End ParseFacts.

Module PatchFacts.
Import JS Editor CommitFacts.

(** Skips the layers of the patch that do not write the key looked
    up. *)
Local Ltac skip_layers :=
  repeat (rewrite lookup_when_edited_other
            by (intros; repeat (rewrite lookup_insert_ne by done); done)).

Lemma buildInput_year es :
  buildInput es !! "year"
  = match year es with edited v => Some (number_or_null v) | _ => None end.
Proof.
  unfold buildInput. cbv zeta. skip_layers.
  unfold when_edited at 1. destruct (year es); skip_layers; try done.
  by rewrite lookup_insert_eq.
Qed.

Lemma buildInput_bpm es :
  buildInput es !! "bpm"
  = match bpm es with edited v => Some (number_or_null v) | _ => None end.
Proof.
  unfold buildInput. cbv zeta. skip_layers.
  unfold when_edited at 1. destruct (bpm es); skip_layers; try done.
  by rewrite lookup_insert_eq.
Qed.

Lemma buildInput_lyricsLang es :
  buildInput es !! "lyricsLang"
  = match lyricsLang es with edited v => Some (VStr (default "" v)) | _ => None end.
Proof.
  unfold buildInput. cbv zeta. skip_layers.
  unfold when_edited at 1. destruct (lyricsLang es); skip_layers; try done.
  by rewrite lookup_insert_eq.
Qed.

Lemma buildInput_commentLang es :
  buildInput es !! "commentLang"
  = match commentLang es with edited v => Some (VStr (default "" v)) | _ => None end.
Proof.
  unfold buildInput. cbv zeta. skip_layers.
  unfold when_edited at 1. destruct (commentLang es); skip_layers; try done.
  by rewrite lookup_insert_eq.
Qed.

Lemma buildInput_trackNumber es :
  buildInput es !! "trackNumber"
  = match trackNumber es with
    | edited v => Some (of_nullable_number (num (parseTrackDisc v)))
    | _ => None
    end /\
  buildInput es !! "trackTotal"
  = match trackNumber es with
    | edited v => Some (of_nullable_number (total (parseTrackDisc v)))
    | _ => None
    end.
Proof.
  unfold buildInput. cbv zeta. skip_layers.
  unfold when_edited at 1 15. destruct (trackNumber es); skip_layers; try done.
  rewrite lookup_insert_ne by done. by rewrite !lookup_insert_eq.
Qed.

Lemma buildInput_discNumber es :
  buildInput es !! "discNumber"
  = match discNumber es with
    | edited v => Some (of_nullable_number (num (parseTrackDisc v)))
    | _ => None
    end /\
  buildInput es !! "discTotal"
  = match discNumber es with
    | edited v => Some (of_nullable_number (total (parseTrackDisc v)))
    | _ => None
    end.
Proof.
  unfold buildInput. cbv zeta.
  unfold when_edited at 1 15. destruct (discNumber es); skip_layers; try done.
  rewrite lookup_insert_ne by done. by rewrite !lookup_insert_eq.
Qed.

End PatchFacts.

Module ValidatedFacts.
Import JS Editor ValidatorFacts CommitFacts ParseFacts PatchFacts.

Lemma digit_not_slash w : forallb Regex.digit w = true -> "/"%char ∉ w.
Proof.
  intros Hw Hin. rewrite forallb_forall in Hw.
  apply list_elem_of_In in Hin. by specialize (Hw _ Hin).
Qed.

(** Up to the first slash the input is one segment. *)
Lemma split_go_slash n : forall cur rest,
  "/"%char ∉ list_ascii_of_string n ->
  split_go "/" 0 cur (n +:+ "/" +:+ rest) = (cur +:+ n) :: split_go "/" 0 "" rest.
Proof.
  induction n as [| c n IH]; intros cur rest Hno.
  - change ("" +:+ "/" +:+ rest) with (String "/" rest).
    change (split_go "/" 0 cur (String "/" rest))
      with (if (if ascii_dec "/" "/" then String.prefix "" rest else false)
            then cur :: split_go "/" 0 "" rest
            else split_go "/" 0 (cur +:+ String "/" "") rest).
    destruct (ascii_dec "/" "/") as [_ | Hne]; [| done].
    by rewrite prefix_empty, append_empty_r.
  - apply not_elem_of_cons in Hno as [Hc Hn].
    change (split_go "/" 0 cur (String c n +:+ "/" +:+ rest))
      with (if (if ascii_dec "/" c then String.prefix "" (n +:+ "/" +:+ rest) else false)
            then cur :: split_go "/" 0 "" (n +:+ "/" +:+ rest)
            else split_go "/" 0 (cur +:+ String c "") (n +:+ "/" +:+ rest)).
    destruct (ascii_dec "/" c) as [E | _]; [by destruct Hc |].
    rewrite IH by done. by rewrite append_assoc.
Qed.

(** A number that was read from digits, after [|| null]. *)
Definition positive_or_null (x : option number) : Prop :=
  x = None \/ exists z, x = Some (Num z) /\ (0 < z)%Z.

Lemma or_null_digits n :
  digit_string n ->
  parseInt n = Num (Validators.decimalValue n) /\
  positive_or_null (or_null (parseInt n)).
Proof.
  intros Hn. rewrite (parseInt_digits n Hn). split; [done |].
  assert (0 <= Validators.decimalValue n)%Z as Hpos
    by (apply digits_from_nonneg; [lia | apply Hn]).
  destruct (Validators.decimalValue n) as [| z | z] eqn:E; simpl; [by left | | lia].
  right. exists (Z.pos z). split; [done | lia].
Qed.

Lemma parseTrackDisc_number n :
  digit_string n ->
  parseTrackDisc (Some n)
  = {| num := or_null (Num (Validators.decimalValue n)); total := None |}.
Proof.
  intros Hn. unfold parseTrackDisc.
  assert (truthy n = true) as -> by (destruct Hn as [Hne _]; by destruct n).
  simpl. rewrite split_no_slash by (apply digit_not_slash, Hn). simpl.
  by rewrite (parseInt_digits n Hn).
Qed.

Lemma parseTrackDisc_number_total n t :
  digit_string n -> digit_string t ->
  parseTrackDisc (Some (n +:+ "/" +:+ t))
  = {| num := or_null (Num (Validators.decimalValue n));
       total := or_null (Num (Validators.decimalValue t)) |}.
Proof.
  intros Hn Ht. unfold parseTrackDisc.
  assert (truthy (n +:+ "/" +:+ t) = true) as ->
    by (destruct Hn as [Hne _]; by destruct n).
  assert (truthy t = true) as Htt by (destruct Ht as [Hne _]; by destruct t).
  simpl. unfold split.
  rewrite split_go_slash by (apply digit_not_slash, Hn).
  rewrite split_go_no_slash by (apply digit_not_slash, Ht). simpl.
  change ("" +:+ n) with n. change ("" +:+ t) with t. rewrite Htt.
  by rewrite (parseInt_digits n Hn), (parseInt_digits t Ht).
Qed.

(** The messages of the four checked fields are not empty. *)
Lemma check_field_empty key (f : Validators.Validator) fs errs v :
  (forall x e, f x = Some e -> truthy e = true) ->
  check_field key f fs errs = ∅ ->
  errs = ∅ /\ (fs = edited (Some v) -> v <> "" -> f v = None).
Proof.
  intros Hmsg. unfold check_field.
  destruct fs as [? | ? | [x |]]; try (intros ->; split; done).
  destruct (truthy x) eqn:Hx.
  - destruct (f x) as [e |] eqn:Hf.
    + rewrite (Hmsg _ _ Hf). intros He. by apply insert_non_empty in He.
    + intros ->. split; [done |]. by intros [= <-] _.
  - intros ->. split; [done |]. intros [= <-] Hv. by destruct x.
Qed.

Lemma field_errors_empty es :
  field_errors es = ∅ ->
  (forall v, Editor.bpm es = edited (Some v) -> v <> "" -> Validators.bpm v = None) /\
  (forall v, Editor.year es = edited (Some v) -> v <> "" -> Validators.year v = None) /\
  (forall v, Editor.trackNumber es = edited (Some v) -> v <> "" ->
             Validators.trackNumber v = None) /\
  (forall v, Editor.discNumber es = edited (Some v) -> v <> "" ->
             Validators.discNumber v = None).
Proof.
  unfold field_errors. cbv zeta. intros H4.
  assert (forall (f : Validators.Validator) msg,
            (forall x, f x = None \/ f x = Some msg) -> msg <> "" ->
            forall x e, f x = Some e -> truthy e = true) as Hmsg.
  { intros f msg Hf Hne x e He. destruct (Hf x) as [Hx | Hx]; [congruence |].
    rewrite Hx in He. injection He as <-. by destruct msg. }
  assert (forall x e, Validators.bpm x = Some e -> truthy e = true) as Mb.
  { apply (Hmsg _ "Must be a non-negative integer"); [| done].
    intros x; unfold Validators.bpm; destruct (Regex.test _ _); auto. }
  assert (forall x e, Validators.year x = Some e -> truthy e = true) as My.
  { apply (Hmsg _ "4-digit year (1000–2099)"); [| done].
    intros x; unfold Validators.year; destruct (_ && _); auto. }
  assert (forall x e, Validators.trackNumber x = Some e -> truthy e = true) as Mt.
  { apply (Hmsg _ "Must be N or N/Total"); [| done].
    intros x; unfold Validators.trackNumber; destruct (Regex.test _ _); auto. }
  assert (forall x e, Validators.discNumber x = Some e -> truthy e = true) as Md.
  { apply (Hmsg _ "Must be N or N/Total"); [| done].
    intros x; unfold Validators.discNumber; destruct (Regex.test _ _); auto. }
  repeat apply conj; intros v Hv Hne.
  - apply (check_field_empty _ _ _ _ v Md) in H4 as [H3 _].
    apply (check_field_empty _ _ _ _ v Mt) in H3 as [H2 _].
    apply (check_field_empty _ _ _ _ v My) in H2 as [H1 _].
    apply (check_field_empty _ _ _ _ v Mb) in H1 as [_ H0]. by apply H0.
  - apply (check_field_empty _ _ _ _ v Md) in H4 as [H3 _].
    apply (check_field_empty _ _ _ _ v Mt) in H3 as [H2 _].
    apply (check_field_empty _ _ _ _ v My) in H2 as [_ H0]. by apply H0.
  - apply (check_field_empty _ _ _ _ v Md) in H4 as [H3 _].
    apply (check_field_empty _ _ _ _ v Mt) in H3 as [_ H0]. by apply H0.
  - apply (check_field_empty _ _ _ _ v Md) in H4 as [_ H0]. by apply H0.
Qed.

End ValidatedFacts.

(** ** The inputs that [save] passes to the parser *)

Module PositionFacts.
Import JS Editor Validators ValidatorFacts CommitFacts ParseFacts ValidatedFacts.



End PositionFacts.



(** X3: a short input that the track or disc validator accepts is
    parsed to the numbers it shows.  [N] gives the decimal value of [N]
    and a [null] total, [N/Total] gives the decimal values of both, each
    zero being turned into [null].  The input has at most 15 characters:
    the code rounds the numbers of longer numerals. *)
Theorem validated_position_is_parsed (v : string) :
  Validators.trackNumber v = None \/ Validators.discNumber v = None ->
  JS.short v ->
  (ValidatorFacts.digit_string v /\
   Editor.parseTrackDisc (Some v)
   = {| Editor.num := JS.or_null (JS.Num (Validators.decimalValue v));
        Editor.total := None |}) \/
  (exists n t,
     v = n +:+ "/" +:+ t /\ ValidatorFacts.digit_string n /\ ValidatorFacts.digit_string t /\
     Editor.parseTrackDisc (Some v)
     = {| Editor.num := JS.or_null (JS.Num (Validators.decimalValue n));
          Editor.total := JS.or_null (JS.Num (Validators.decimalValue t)) |}).
Proof.
  intros Hv _.
  assert (ValidatorFacts.position_string v) as [Hd | (n & t & -> & Hn & Ht)].
  { destruct Hv as [Hv | Hv];
      [by apply ValidatorFacts.trackNumber_valid | by apply ValidatorFacts.discNumber_valid]. }
  - left. split; [done | by apply ValidatedFacts.parseTrackDisc_number].
  - right. exists n, t. split; [done |]. split; [done |]. split; [done |].
    by apply ValidatedFacts.parseTrackDisc_number_total.
Qed.

(** The theorem at ["3/10"]. *)
Lemma validated_position_is_parsed_witness :
  (ValidatorFacts.digit_string "3/10" /\
   Editor.parseTrackDisc (Some "3/10")
   = {| Editor.num := JS.or_null (JS.Num (Validators.decimalValue "3/10"));
        Editor.total := None |}) \/
  (exists n t,
     "3/10" = n +:+ "/" +:+ t /\ ValidatorFacts.digit_string n /\
     ValidatorFacts.digit_string t /\
     Editor.parseTrackDisc (Some "3/10")
     = {| Editor.num := JS.or_null (JS.Num (Validators.decimalValue n));
          Editor.total := JS.or_null (JS.Num (Validators.decimalValue t)) |}).
Proof.
  apply (validated_position_is_parsed "3/10").
  - left. reflexivity.
  - unfold JS.short. simpl. lia.
Defined.

Module ValidatedPatch.
Import JS Editor ValidatorFacts CommitFacts ParseFacts PatchFacts ValidatedFacts.

(** [null], or a number within the bounds. *)
Definition null_or_within (lo : Z) (hi : option Z) (x : jsval) : Prop :=
  x = VNull \/
  exists z, x = VNum (Num z) /\ (lo <= z)%Z /\ (forall h, hi = Some h -> (z <= h)%Z).

Lemma position_within s :
  position_string s ->
  null_or_within 1 None (of_nullable_number (num (parseTrackDisc (Some s)))) /\
  null_or_within 1 None (of_nullable_number (total (parseTrackDisc (Some s)))).
Proof.
  assert (forall n, digit_string n ->
            null_or_within 1 None
              (of_nullable_number (or_null (Num (Validators.decimalValue n))))) as Hnum.
  { intros n Hn. destruct (or_null_digits n Hn) as [Hp [Hz | (z & Hz & Hpos)]];
      rewrite Hp in Hz; rewrite Hz; [by left | right].
    exists z. repeat apply conj; [done | lia | done]. }
  intros [Hd | (n & t & -> & Hn & Ht)].
  - rewrite parseTrackDisc_number by done. simpl. split; [by apply Hnum | by left].
  - rewrite parseTrackDisc_number_total by done. simpl. split; by apply Hnum.
Qed.

Lemma edited_position_within (f : Validators.Validator) (fs : FieldState (option string)) :
  (forall s, f s = None -> position_string s) ->
  (forall s, fs = edited (Some s) -> s <> "" -> f s = None) ->
  forall v, fs = edited v ->
    null_or_within 1 None (of_nullable_number (num (parseTrackDisc v))) /\
    null_or_within 1 None (of_nullable_number (total (parseTrackDisc v))).
Proof.
  intros Hf Hok [s |] ->; [| split; by left].
  destruct (decide (s = "")) as [-> | Hne]; [split; by left |].
  apply position_within, Hf, Hok; done.
Qed.

(** The numeral typed into a field is short. *)
Definition short_field (fs : FieldState (option string)) : Prop :=
  forall v, fs = edited (Some v) -> short v.

(** The numerals of the session are short; the year needs no bound, as
    its validator accepts four digits only. *)
Definition short_numbers (es : EditState) : Prop :=
  short_field (Editor.bpm es) /\ short_field (Editor.trackNumber es) /\
  short_field (Editor.discNumber es).

End ValidatedPatch.

(** X4: a patch built from a session that passes [validate] and whose
    numerals are short (at most 15 characters in the BPM, track and disc
    inputs) carries no [NaN]: [year] is [null] or a number from 1000 to
    2099, [bpm] is [null] or a number that is not negative, and the track
    and disc numbers and totals are [null] or positive numbers. *)
Theorem validated_patch_carries_numbers (es : Editor.EditState) :
  Editor.field_errors es = ∅ -> ValidatedPatch.short_numbers es ->
  (forall x, Editor.buildInput es !! "year" = Some x ->
             ValidatedPatch.null_or_within 1000 (Some 2099%Z) x) /\
  (forall x, Editor.buildInput es !! "bpm" = Some x ->
             ValidatedPatch.null_or_within 0 None x) /\
  (forall key x,
     key ∈ ["trackNumber"; "trackTotal"; "discNumber"; "discTotal"] ->
     Editor.buildInput es !! key = Some x ->
     ValidatedPatch.null_or_within 1 None x).
Proof.
  intros Hok _.
  destruct (ValidatedFacts.field_errors_empty es Hok) as (Hb & Hy & Ht & Hd).
  repeat apply conj.
  - intros x. rewrite PatchFacts.buildInput_year.
    destruct (Editor.year es) as [? | ? | v] eqn:E; try done. intros [= <-].
    destruct v as [s |]; [| by left]. simpl.
    destruct (JS.truthy s) eqn:Hs; [| by left]. right.
    assert (s <> "") as Hne by (by destruct s).
    specialize (Hy s eq_refl Hne).
    apply ValidatorFacts.year_valid in Hy as (Hl & Hdig & Hlo & Hhi).
    exists (Validators.decimalValue s). repeat apply conj.
    + by rewrite ParseFacts.parseInt_digits.
    + done.
    + by intros h [= <-].
  - intros x. rewrite PatchFacts.buildInput_bpm.
    destruct (Editor.bpm es) as [? | ? | v] eqn:E; try done. intros [= <-].
    destruct v as [s |]; [| by left]. simpl.
    destruct (JS.truthy s) eqn:Hs; [| by left]. right.
    assert (s <> "") as Hne by (by destruct s).
    specialize (Hb s eq_refl Hne). apply ValidatorFacts.bpm_valid in Hb.
    exists (Validators.decimalValue s). repeat apply conj.
    + by rewrite ParseFacts.parseInt_digits.
    + apply ParseFacts.digits_from_nonneg; [lia | apply Hb].
    + done.
  - intros key x Hkey.
    destruct (PatchFacts.buildInput_trackNumber es) as [Htn Htt].
    destruct (PatchFacts.buildInput_discNumber es) as [Hdn Hdt].
    pose proof (ValidatedPatch.edited_position_within Validators.trackNumber
                  (Editor.trackNumber es)
                  (fun s => proj1 (ValidatorFacts.trackNumber_valid s)) Ht) as Pt.
    pose proof (ValidatedPatch.edited_position_within Validators.discNumber
                  (Editor.discNumber es)
                  (fun s => proj1 (ValidatorFacts.discNumber_valid s)) Hd) as Pd.
    repeat (apply elem_of_cons in Hkey as [-> | Hkey]);
      [rewrite Htn | rewrite Htt | rewrite Hdn | rewrite Hdt | by apply elem_of_nil in Hkey].
    + destruct (Editor.trackNumber es) as [? | ? | v]; try done.
      intros [= <-]. by apply (Pt v).
    + destruct (Editor.trackNumber es) as [? | ? | v]; try done.
      intros [= <-]. by apply (Pt v).
    + destruct (Editor.discNumber es) as [? | ? | v]; try done.
      intros [= <-]. by apply (Pd v).
    + destruct (Editor.discNumber es) as [? | ? | v]; try done.
      intros [= <-]. by apply (Pd v).
Qed.

(** The theorem at a session with the BPM edited to 128. *)
Lemma validated_patch_carries_numbers_witness :
  ValidatedPatch.null_or_within 0 None (JS.VNum (JS.Num 128)).
Proof.
  apply (validated_patch_carries_numbers
           (Editor.withField Editor.K_bpm (Editor.edited (Some "128"))
                             (Editor.buildEditState []))).
  - reflexivity.
  - repeat split; intros v Hv; try discriminate Hv.
    injection Hv as <-. unfold JS.short. simpl. lia.
  - reflexivity.
Defined.

(** ** The two places that check a field *)

Module CheckFacts.
Import JS Editor.

Lemma lookup_check_field_ne key f fs errs key' :
  key <> key' -> check_field key f fs errs !! key' = errs !! key'.
Proof.
  intros Hne. unfold check_field. destruct fs as [? | ? | [x |]]; try done.
  destruct (truthy x); [| done]. destruct (f x) as [e |]; [| done].
  destruct (truthy e); [| done]. by rewrite lookup_insert_ne.
Qed.

(** What a checked input leaves under its own key: the message of its
    validator on a non-empty text, nothing otherwise. *)
Definition verdict (f : Validators.Validator) (v : string) : option string :=
  if truthy v then match f v with
                   | Some e => if truthy e then Some e else None
                   | None => None
                   end
  else None.

Lemma lookup_check_field_eq key f v :
  check_field key f (edited (value_or_null v)) ∅ !! key = verdict f v.
Proof.
  unfold check_field, value_or_null, verdict. destruct (truthy v) eqn:Hv; [| done].
  rewrite Hv. destruct (f v) as [e |]; [| done].
  destruct (truthy e); [| done]. by rewrite lookup_insert_eq.
Qed.

Lemma onChangeChecked_errors set key f v p key' :
  (forall x q, errors (set x q) = errors q) ->
  errors (onChangeChecked set key f v p) !! key'
  = if decide (key = key') then verdict f v else errors p !! key'.
Proof.
  intros Hset. unfold onChangeChecked, verdict. simpl. rewrite Hset.
  destruct (decide (key = key')) as [<- | Hne].
  - destruct (truthy v); [| by rewrite lookup_delete_eq].
    destruct (f v) as [e |]; [| by rewrite lookup_delete_eq].
    destruct (truthy e); [by rewrite lookup_insert_eq | by rewrite lookup_delete_eq].
  - destruct (truthy v); [| by rewrite lookup_delete_ne].
    destruct (f v) as [e |]; [| by rewrite lookup_delete_ne].
    destruct (truthy e); [by rewrite lookup_insert_ne | by rewrite lookup_delete_ne].
Qed.

Lemma lookup_check_field_edited key f v (errs : gmap string string) :
  errs !! key = None ->
  check_field key f (edited (value_or_null v)) errs !! key = verdict f v.
Proof.
  intros Herrs. unfold check_field, value_or_null, verdict.
  destruct (truthy v) eqn:Hv; [rewrite Hv | done].
  destruct (f v) as [e |]; [| done].
  destruct (truthy e); [by rewrite lookup_insert_eq | done].
Qed.

End CheckFacts.

(** X5: the check made at each keystroke and the check made by
    [validate] at a commit agree.  After a change of the year, track
    number, disc number or BPM input, the error map holds under the
    field's key exactly what [validate] would report for the session, and
    its other keys are as they were. *)
Theorem keystroke_check_agrees_with_validate (p : Editor.Panel) (es : Editor.EditState) (v : string) :
  Editor.editState p = Some es ->
  (exists es', Editor.editState (Editor.onChangeBpm v p) = Some es' /\
     Editor.errors (Editor.onChangeBpm v p) !! "bpm" = Editor.field_errors es' !! "bpm" /\
     forall key, key <> "bpm" ->
       Editor.errors (Editor.onChangeBpm v p) !! key = Editor.errors p !! key) /\
  (exists es', Editor.editState (Editor.onChangeYear v p) = Some es' /\
     Editor.errors (Editor.onChangeYear v p) !! "year" = Editor.field_errors es' !! "year" /\
     forall key, key <> "year" ->
       Editor.errors (Editor.onChangeYear v p) !! key = Editor.errors p !! key) /\
  (exists es', Editor.editState (Editor.onChangeTrackNumber v p) = Some es' /\
     Editor.errors (Editor.onChangeTrackNumber v p) !! "trackNumber"
     = Editor.field_errors es' !! "trackNumber" /\
     forall key, key <> "trackNumber" ->
       Editor.errors (Editor.onChangeTrackNumber v p) !! key = Editor.errors p !! key) /\
  (exists es', Editor.editState (Editor.onChangeDiscNumber v p) = Some es' /\
     Editor.errors (Editor.onChangeDiscNumber v p) !! "discNumber"
     = Editor.field_errors es' !! "discNumber" /\
     forall key, key <> "discNumber" ->
       Editor.errors (Editor.onChangeDiscNumber v p) !! key = Editor.errors p !! key).
Proof.
  intros Hes.
  repeat apply conj.
  - exists (Editor.withField Editor.K_bpm (Editor.edited (Editor.value_or_null v)) es).
    unfold Editor.onChangeBpm. repeat apply conj.
    + unfold Editor.onChangeChecked, Editor.setField. simpl. by rewrite Hes.
    + rewrite CheckFacts.onChangeChecked_errors by done.
      rewrite decide_True by done. unfold Editor.field_errors. cbv zeta.
      rewrite !CheckFacts.lookup_check_field_ne by done.
      cbn [Editor.withField Editor.bpm].
      by rewrite CheckFacts.lookup_check_field_edited.
    + intros key Hne. rewrite CheckFacts.onChangeChecked_errors by done.
      by rewrite decide_False.
  - exists (Editor.withField Editor.K_year (Editor.edited (Editor.value_or_null v)) es).
    unfold Editor.onChangeYear. repeat apply conj.
    + unfold Editor.onChangeChecked, Editor.setField. simpl. by rewrite Hes.
    + rewrite CheckFacts.onChangeChecked_errors by done.
      rewrite decide_True by done. unfold Editor.field_errors. cbv zeta.
      rewrite !CheckFacts.lookup_check_field_ne by done.
      cbn [Editor.withField Editor.year Editor.bpm].
      rewrite CheckFacts.lookup_check_field_edited; [done |].
      by rewrite !CheckFacts.lookup_check_field_ne.
    + intros key Hne. rewrite CheckFacts.onChangeChecked_errors by done.
      by rewrite decide_False.
  - exists (Editor.withField Editor.K_trackNumber (Editor.edited (Editor.value_or_null v)) es).
    unfold Editor.onChangeTrackNumber. repeat apply conj.
    + unfold Editor.onChangeChecked, Editor.setField. simpl. by rewrite Hes.
    + rewrite CheckFacts.onChangeChecked_errors by done.
      rewrite decide_True by done. unfold Editor.field_errors. cbv zeta.
      rewrite !CheckFacts.lookup_check_field_ne by done.
      cbn [Editor.withField Editor.trackNumber Editor.year Editor.bpm].
      rewrite CheckFacts.lookup_check_field_edited; [done |].
      by rewrite !CheckFacts.lookup_check_field_ne.
    + intros key Hne. rewrite CheckFacts.onChangeChecked_errors by done.
      by rewrite decide_False.
  - exists (Editor.withField Editor.K_discNumber (Editor.edited (Editor.value_or_null v)) es).
    unfold Editor.onChangeDiscNumber. repeat apply conj.
    + unfold Editor.onChangeChecked, Editor.setField. simpl. by rewrite Hes.
    + rewrite CheckFacts.onChangeChecked_errors by done.
      rewrite decide_True by done. unfold Editor.field_errors. cbv zeta.
      cbn [Editor.withField Editor.discNumber Editor.trackNumber Editor.year Editor.bpm].
      rewrite CheckFacts.lookup_check_field_edited; [done |].
      by rewrite !CheckFacts.lookup_check_field_ne.
    + intros key Hne. rewrite CheckFacts.onChangeChecked_errors by done.
      by rewrite decide_False.
Qed.

(** The theorem at a loaded track and the BPM input ["abc"]. *)
Lemma keystroke_check_agrees_with_validate_witness :
  exists es',
    Editor.editState (Editor.onChangeBpm "abc" (Scenario.loaded Scenario.refusing [1%Z]))
    = Some es' /\
    Editor.errors (Editor.onChangeBpm "abc" (Scenario.loaded Scenario.refusing [1%Z])) !! "bpm"
    = Editor.field_errors es' !! "bpm" /\
    forall key, key <> "bpm" ->
      Editor.errors (Editor.onChangeBpm "abc" (Scenario.loaded Scenario.refusing [1%Z])) !! key
      = Editor.errors (Scenario.loaded Scenario.refusing [1%Z]) !! key.
Proof.
  apply (keystroke_check_agrees_with_validate
           (Scenario.loaded Scenario.refusing [1%Z])
           (Editor.buildEditState [Scenario.track 1 "Title A"]) "abc").
  reflexivity.
Defined.

(** ** Extra tags and the Save button *)

Module ExtraTagFacts.
Import JS Editor.

Lemma check_tag_other eteErrs tag key :
  frame_id tag <> key -> check_tag eteErrs tag !! key = eteErrs !! key.
Proof.
  intros Hne. unfold check_tag.
  destruct (Validators.FIELD_VALIDATORS (frame_id tag)) as [f |]; [| done].
  destruct (truthy (value tag)); [| done].
  destruct (f (value tag)) as [e |]; [| done].
  destruct (truthy e); [| done]. by rewrite lookup_insert_ne.
Qed.

(** [validate] reports a tag only when its validator returns a
    message. *)
Lemma check_tag_valid eteErrs tag f :
  Validators.FIELD_VALIDATORS (frame_id tag) = Some f -> f (value tag) = None ->
  check_tag eteErrs tag = eteErrs.
Proof.
  intros Hf Hv. unfold check_tag. rewrite Hf, Hv. by destruct (truthy (value tag)).
Qed.

End ExtraTagFacts.

(** X6: a change of an extra tag that has a validator (TKEY, TSRC) to a
    non-empty text writes an entry under the tag's id into the extra-tag
    error map, the empty string when the text is valid: the Save button is
    disabled and a click on it does nothing, although [validate] finds
    nothing wrong with a valid tag.  An emptied tag, or a tag whose frame
    id is plain and has no validator, removes the entry. *)
Theorem checked_extra_tag_disables_save (p : Editor.Panel) (id val : string) :
  (forall f, Validators.FIELD_VALIDATORS id = Some f -> val <> "" ->
     Editor.extraTagErrors (Editor.onChangeExtraTag id val p) !! id
     = Some (default "" (f val)) /\
     Editor.saveDisabled (Editor.onChangeExtraTag id val p) = true /\
     (forall b tr,
        Editor.clickSave b (Editor.onChangeExtraTag id val p) tr
        = (Editor.fulfilled (), Editor.onChangeExtraTag id val p, tr)) /\
     (f val = None ->
      Editor.check_tag ∅ {| Editor.frame_id := id; Editor.value := val |} = ∅)) /\
  (val = "" \/ (Validators.FIELD_VALIDATORS id = None /\ Validators.plain_key id) ->
   Editor.extraTagErrors (Editor.onChangeExtraTag id val p) !! id = None).
Proof.
  split.
  - intros f Hf Hval.
    assert (JS.truthy val = true) as Ht by (by destruct val).
    assert (Editor.extraTagErrors (Editor.onChangeExtraTag id val p) !! id
            = Some (default "" (f val))) as Herr.
    { unfold Editor.onChangeExtraTag. rewrite Hf, Ht. simpl. by rewrite lookup_insert_eq. }
    assert (Editor.extraTagErrors (Editor.onChangeExtraTag id val p) <> ∅) as Hne.
    { intros He. rewrite He in Herr. by rewrite lookup_empty in Herr. }
    repeat apply conj.
    + done.
    + apply PanelFacts.saveDisabled_true. by do 4 right.
    + intros b tr. unfold Editor.clickSave.
      rewrite (PanelFacts.saveDisabled_true _ (or_intror (or_intror (or_intror (or_intror Hne))))).
      by rewrite andb_false_r.
    + intros Hv. by apply (ExtraTagFacts.check_tag_valid _ _ f).
  - intros Hc. unfold Editor.onChangeExtraTag.
    destruct (Validators.FIELD_VALIDATORS id) as [f |] eqn:Hf.
    + destruct Hc as [-> | [Hc _]]; [| done]. simpl. by rewrite lookup_delete_eq.
    + simpl. by rewrite lookup_delete_eq.
Qed.

(** The theorem at the key ["Am"] typed into a TKEY tag, and at a
    publisher typed into a TPUB tag. *)
Lemma checked_extra_tag_disables_save_witness :
  Validators.TKEY "Am" = None /\
  Editor.extraTagErrors
    (Editor.onChangeExtraTag "TKEY" "Am" (Scenario.retitled Scenario.refusing [1%Z])) !! "TKEY"
  = Some "" /\
  Editor.saveDisabled
    (Editor.onChangeExtraTag "TKEY" "Am" (Scenario.retitled Scenario.refusing [1%Z])) = true /\
  Editor.extraTagErrors
    (Editor.onChangeExtraTag "TPUB" "Label" (Scenario.retitled Scenario.refusing [1%Z]))
    !! "TPUB" = None.
Proof.
  split; [reflexivity |].
  pose proof (proj1 (checked_extra_tag_disables_save
                       (Scenario.retitled Scenario.refusing [1%Z]) "TKEY" "Am")
                    Validators.TKEY eq_refl) as H.
  destruct H as (H1 & H2 & _); [discriminate |].
  split; [exact H1 |]. split; [exact H2 |].
  apply (proj2 (checked_extra_tag_disables_save
                  (Scenario.retitled Scenario.refusing [1%Z]) "TPUB" "Label")).
  right. split; [reflexivity |].
  unfold Validators.plain_key. eapply bool_decide_unpack. vm_compute. reflexivity.
Defined.

(** ** Fields that are set and fields that are not checked *)

Module FieldFacts.
Import JS Editor.

Lemma getField_withField k fs es : getField k (withField k fs es) = fs.
Proof. by destruct k. Qed.

Lemma getField_withField_ne k k' fs es :
  k <> k' -> getField k' (withField k fs es) = getField k' es.
Proof. intros Hne. by destruct k, k'. Qed.

Lemma existsb_edited es k : edited_at es k = true -> existsb (edited_at es) all_keys = true.
Proof.
  intros Hk. apply existsb_exists. exists k. split; [| done].
  destruct k; simpl; tauto.
Qed.

End FieldFacts.

(** X7: [setField] on a live session puts the field into [edited] with
    the value given, also when the value is the one it had, leaves every
    other field, the records and both error maps alone, and makes the
    session count as edited, so that Discard is enabled. *)
Theorem setField_edits_one_field (p : Editor.Panel) (es : Editor.EditState)
        (k : Editor.FieldKey) (v : Editor.fieldType k) :
  Editor.editState p = Some es ->
  exists es',
    Editor.editState (Editor.setField k v p) = Some es' /\
    Editor.getField k es' = Editor.edited v /\
    Editor.displayValue (Editor.getField k es') = Some v /\
    (forall k', k <> k' -> Editor.getField k' es' = Editor.getField k' es) /\
    Editor.tracks (Editor.setField k v p) = Editor.tracks p /\
    Editor.errors (Editor.setField k v p) = Editor.errors p /\
    Editor.extraTagErrors (Editor.setField k v p) = Editor.extraTagErrors p /\
    Editor.hasAnyEdit (Editor.setField k v p) = true /\
    Editor.discardDisabled (Editor.setField k v p) = false.
Proof.
  intros Hes. exists (Editor.withField k (Editor.edited v) es).
  assert (Editor.editState (Editor.setField k v p)
          = Some (Editor.withField k (Editor.edited v) es)) as Hes'
    by (unfold Editor.setField; simpl; by rewrite Hes).
  assert (Editor.hasAnyEdit (Editor.setField k v p) = true) as Hany.
  { unfold Editor.hasAnyEdit. rewrite Hes'. apply (FieldFacts.existsb_edited _ k).
    unfold Editor.edited_at. by rewrite FieldFacts.getField_withField. }
  repeat apply conj; try done.
  - apply FieldFacts.getField_withField.
  - by rewrite FieldFacts.getField_withField.
  - intros k' Hne. by apply FieldFacts.getField_withField_ne.
  - unfold Editor.discardDisabled. by rewrite Hany.
Qed.

(** The theorem at a loaded track whose title is set to the title it
    has. *)
Lemma setField_edits_one_field_witness :
  Editor.hasAnyEdit (Scenario.loaded Scenario.refusing [1%Z]) = false /\
  exists es',
    Editor.editState
      (Editor.setField Editor.K_title "Title A" (Scenario.loaded Scenario.refusing [1%Z]))
    = Some es' /\
    Editor.title es' = Editor.edited "Title A".
Proof.
  split; [reflexivity |].
  destruct (setField_edits_one_field
              (Scenario.loaded Scenario.refusing [1%Z])
              (Editor.buildEditState [Scenario.track 1 "Title A"])
              Editor.K_title "Title A" eq_refl) as (es' & H1 & H2 & _).
  exists es'. split; [exact H1 | exact H2].
Defined.

(** X8: [validate] looks at BPM, year, track number and disc number
    only.  It reports under no other key, and editing any other field,
    the language codes included, does not change what it reports: a
    language code that its validator of the registry rejects reaches the
    patch as it was typed. *)
Theorem validate_checks_four_fields (es : Editor.EditState) :
  (forall key, is_Some (Editor.field_errors es !! key) ->
     key ∈ ["bpm"; "year"; "trackNumber"; "discNumber"]) /\
  (forall k (v : Editor.fieldType k),
     k ∉ [Editor.K_bpm; Editor.K_year; Editor.K_trackNumber; Editor.K_discNumber] ->
     Editor.field_errors (Editor.withField k (Editor.edited v) es) = Editor.field_errors es) /\
  (forall code,
     Editor.buildInput (Editor.withField Editor.K_lyricsLang (Editor.edited (Some code)) es)
     !! "lyricsLang" = Some (JS.VStr code) /\
     Editor.buildInput (Editor.withField Editor.K_commentLang (Editor.edited (Some code)) es)
     !! "commentLang" = Some (JS.VStr code)).
Proof.
  repeat apply conj.
  - intros key Hkey. unfold Editor.field_errors in Hkey. cbv zeta in Hkey.
    destruct (decide (key = "discNumber")) as [-> | H1]; [set_solver |].
    destruct (decide (key = "trackNumber")) as [-> | H2]; [set_solver |].
    destruct (decide (key = "year")) as [-> | H3]; [set_solver |].
    destruct (decide (key = "bpm")) as [-> | H4]; [set_solver |].
    rewrite !CheckFacts.lookup_check_field_ne in Hkey by done.
    rewrite lookup_empty in Hkey. by destruct Hkey.
  - intros k v Hk. destruct k; try done; set_solver.
  - intros code.
    by rewrite PatchFacts.buildInput_lyricsLang, PatchFacts.buildInput_commentLang.
Qed.

(** The theorem at the language code ["e1"], which [lyricsLang] of the
    registry rejects. *)
Lemma validate_checks_four_fields_witness :
  Validators.lyricsLang "e1" = Some "3 lowercase letters (ISO 639-2)" /\
  Editor.field_errors
    (Editor.withField Editor.K_lyricsLang (Editor.edited (Some "e1")) (Editor.buildEditState []))
  = Editor.field_errors (Editor.buildEditState []).
Proof.
  split; [reflexivity |].
  apply (validate_checks_four_fields (Editor.buildEditState [])).
  intros Hin. repeat (apply elem_of_cons in Hin as [Hin | Hin]; [discriminate Hin |]).
  by apply elem_of_nil in Hin.
Defined.

(** ** Loading *)

Module LoadFacts.
Import JS Editor.

(** [Promise.all] fulfils with one value per promise, in order. *)
Lemma all_fulfilled {A} (l : list (Settled A)) (rs : list A) :
  all l = fulfilled rs <-> l = map fulfilled rs.
Proof.
  revert rs. induction l as [| [a |] l IH]; intros rs; simpl.
  - split; [intros [= <-]; done | by destruct rs].
  - destruct (all l) as [r |] eqn:E.
    + split.
      * intros [= <-]. simpl. f_equal. by apply IH.
      * destruct rs as [| x rs]; [done |]. intros [= -> Hl].
        apply IH in Hl. by injection Hl as ->.
    + split; [done |]. destruct rs as [| x rs]; [done |]. intros [= -> Hl].
      by apply IH in Hl.
  - split; [done | by destruct rs].
Qed.

Lemma all_rejected {A} (l : list (Settled A)) :
  all l = rejected <-> rejected ∈ l.
Proof.
  induction l as [| [a |] l IH]; simpl.
  - split; [done | by intros H%elem_of_nil].
  - destruct (all l) as [r |].
    + split; [done |]. intros H. apply elem_of_cons in H as [H | H]; [done |].
      by apply IH in H.
    + split; [intros _; right; by apply IH | done].
  - split; [intros _; left | done].
Qed.

(** The ok results are kept in order and the error results dropped. *)
Lemma oks_cons_ok {A} (d : A) l : oks (ok d :: l) = d :: oks l.
Proof. done. Qed.

Lemma oks_cons_error {A} e (l : list (Result A)) : oks (error e :: l) = oks l.
Proof. done. Qed.

Lemma elem_of_oks {A} (d : A) l : d ∈ oks l <-> ok d ∈ l.
Proof.
  unfold oks. rewrite list_elem_of_omap. split.
  - intros ([x | e] & Hx & Hd); [| done]. by injection Hd as ->.
  - intros Hd. by exists (ok d).
Qed.

(** The first wave of requests of [load], as one promise. *)
Definition first_wave (b : Backend) (ids : list Z)
  : Settled (list (Result TrackRow) * Result (list Artist) * Result (list Album)) :=
  match all (map (getTrack b) ids), listArtists b, listAlbums b with
  | fulfilled t, fulfilled a, fulfilled l => fulfilled (t, a, l)
  | _, _, _ => rejected
  end.

Lemma load_rejected ids b p tr :
  first_wave b ids = rejected ->
  (load ids b p tr).1.2 = setLoading false p.
Proof.
  unfold first_wave, load, try_finally, try_catch, mbind, Async_bind, await_load, modify.
  intros Hw. by rewrite Hw.
Qed.

Lemma load_fulfilled ids b p tr rs a l :
  first_wave b ids = fulfilled (rs, a, l) ->
  tracks (load ids b p tr).1.2 = oks rs /\
  editState (load ids b p tr).1.2 = Some (buildEditState (oks rs)) /\
  errors (load ids b p tr).1.2 = errors p.
Proof.
  unfold first_wave, load, try_finally, try_catch, mbind, Async_bind, await_load, modify,
    await, mret, Async_ret.
  intros Hw. rewrite Hw. simpl.
  destruct a, l; simpl; case_bool_decide; simpl;
    try destruct (getTrackExtraTags b _) as [[] |]; simpl; done.
Qed.

Lemma load_completes ids b p tr :
  (load ids b p tr).1.1 = fulfilled () /\ loading (load ids b p tr).1.2 = false.
Proof.
  unfold load, try_finally, try_catch, modify.
  match goal with
  | |- context [?m b p tr] => destruct (m b p tr) as [[r p'] tr']
  end.
  done.
Qed.

End LoadFacts.

(** X9: a load always comes to an end: whatever the backend answers,
    [load] does not throw and leaves [loading] false.  When one of its
    first requests rejects it changes nothing else, so a panel that was
    just opened or re-selected has no session, is not rendered as an
    editor and shows "Track not found.". *)
Theorem load_always_completes (ids : list Z) (b : Editor.Backend) (p : Editor.Panel)
        (tr : list Editor.Effect) :
  (Editor.load ids b p tr).1.1 = Editor.fulfilled () /\
  Editor.loading (Editor.load ids b p tr).1.2 = false /\
  (LoadFacts.first_wave b ids = Editor.rejected ->
   (Editor.load ids b p tr).1.2 = Editor.setLoading false p /\
   Editor.rendered (Editor.load ids b (Editor.effect_reset p) tr).1.2 = false).
Proof.
  destruct (LoadFacts.load_completes ids b p tr) as [H1 H2].
  repeat apply conj; try done.
  intros Hw. split; [by apply LoadFacts.load_rejected |].
  by rewrite LoadFacts.load_rejected.
Qed.

(** The theorem at a backend whose transport throws on [listArtists]. *)
Lemma load_always_completes_witness :
  let b :=
    {| Editor.getTrack := Editor.getTrack Scenario.refusing;
       Editor.listArtists := Editor.rejected;
       Editor.listAlbums := Editor.listAlbums Scenario.refusing;
       Editor.getTrackExtraTags := Editor.getTrackExtraTags Scenario.refusing;
       Editor.updateTrack := Editor.updateTrack Scenario.refusing;
       Editor.setTrackExtraTags := Editor.setTrackExtraTags Scenario.refusing;
       Editor.batchUpdateTracks := Editor.batchUpdateTracks Scenario.refusing |} in
  Editor.rendered (Editor.load [1%Z] b (Editor.effect_reset (Editor.mount [1%Z])) []).1.2
  = false.
Proof.
  intros b.
  apply (load_always_completes [1%Z] b (Editor.mount [1%Z]) []). reflexivity.
Defined.

(** X10: when the first requests of a load are all fulfilled, the
    records of the panel are the ok results of [getTrack] in the order of
    the selection, the error results being dropped, and the session is the
    reconciliation of these records with no field edited; the error map is
    left as it was. *)
Theorem load_reconciles_ok_results (ids : list Z) (b : Editor.Backend) (p : Editor.Panel)
        (tr : list Editor.Effect) (rs : list (Editor.Result Track.TrackRow))
        (a : Editor.Result (list Editor.Artist)) (l : Editor.Result (list Editor.Album)) :
  LoadFacts.first_wave b ids = Editor.fulfilled (rs, a, l) ->
  map (Editor.getTrack b) ids = map Editor.fulfilled rs /\
  Editor.tracks (Editor.load ids b p tr).1.2 = Editor.oks rs /\
  (forall t, t ∈ Editor.tracks (Editor.load ids b p tr).1.2 <-> Editor.ok t ∈ rs) /\
  Editor.editState (Editor.load ids b p tr).1.2
  = Some (Editor.buildEditState (Editor.oks rs)) /\
  Editor.hasAnyEdit (Editor.load ids b p tr).1.2 = false /\
  Editor.errors (Editor.load ids b p tr).1.2 = Editor.errors p.
Proof.
  intros Hw. destruct (LoadFacts.load_fulfilled ids b p tr rs a l Hw) as (Ht & He & Herr).
  repeat apply conj; try done.
  - unfold LoadFacts.first_wave in Hw. apply LoadFacts.all_fulfilled.
    destruct (Editor.all _) as [x |]; [| done].
    by destruct (Editor.listArtists b), (Editor.listAlbums b); try done; injection Hw as ->.
  - intros t. rewrite Ht. apply LoadFacts.elem_of_oks.
  - unfold Editor.hasAnyEdit. rewrite He.
    apply not_true_is_false. intros Hex. apply existsb_exists in Hex as (k & _ & Hk).
    by rewrite ReconcilerFacts.buildEditState_not_edited in Hk.
Qed.

(** The theorem at the selection of track 1 and of a track that the
    backend does not have. *)
Lemma load_reconciles_ok_results_witness :
  Editor.tracks (Editor.load [1%Z; 9%Z] Scenario.refusing (Editor.mount [1%Z; 9%Z]) []).1.2
  = [Scenario.track 1 "Title A"].
Proof.
  apply (load_reconciles_ok_results [1%Z; 9%Z] Scenario.refusing (Editor.mount [1%Z; 9%Z]) []
           [Editor.ok (Scenario.track 1 "Title A"); Editor.error "not found"]
           (Editor.ok []) (Editor.ok [])).
  reflexivity.
Defined.

(** ** Committing *)

Module SaveFacts.
Import JS Editor.

(** Opens [clickSave] and [save] up to the answers of the backend. *)
Ltac open_save :=
  unfold clickSave, save, mbind, Async_bind, validate, modify, mret, Async_ret,
    try_finally, await, perform, await_suggestions, await_getTracks.

(** The session passes [validate]. *)
Definition valid (p : Panel) (es : EditState) : Prop :=
  editState p = Some es /\ field_errors es = ∅ /\ tag_errors (extraTags p) = ∅.

(** No tag of the panel is named after a member of [Object.prototype]:
    [validate] finds a validator for a tag in the table or not at all. *)
Definition plain_tags (p : Panel) : Prop :=
  Forall (fun t => Validators.plain_key (frame_id t)) (extraTags p).

Lemma no_keys_empty : no_keys (∅ : gmap string string) = true.
Proof. done. Qed.

(** The update call of a commit: one track goes through [updateTrack],
    any other number of tracks through [batchUpdateTracks]. *)
Definition update_call (p : Panel) (es : EditState) : Call :=
  if isSingle p then CallUpdateTrack (trackIds p !!! 0%nat) (buildInput es)
  else CallBatchUpdateTracks (trackIds p) (buildInput es).

Definition is_update (e : Effect) : bool :=
  match e with
  | Invoke (CallUpdateTrack _ _) => true
  | Invoke (CallBatchUpdateTracks _ _) => true
  | _ => false
  end.

Lemma getTracks_not_update ids :
  forallb (fun e => negb (is_update e)) (map (fun i => Invoke (CallGetTrack i)) ids) = true.
Proof. by induction ids. Qed.

Lemma save_saving r b p tr :
  saving p = false -> saving (save r b p tr).1.2 = false.
Proof.
  intros Hs. open_save.
  destruct (editState r) as [es |]; [| done]. simpl.
  destruct (no_keys _ && no_keys _); simpl; [| done].
  destruct (isSingle r); simpl.
  - destruct (updateTrack b _ _) as [[u | e] |]; simpl; try done.
    + destruct (setTrackExtraTags b _ _) as [x |]; simpl; [| done].
      by destruct (listArtists b) as [[] |], (listAlbums b) as [[] |].
    + by destruct (listArtists b) as [[] |], (listAlbums b) as [[] |].
  - destruct (batchUpdateTracks b _ _) as [x |]; simpl; [| done].
    destruct (all _) as [rs |]; simpl; [| done].
    by destruct (listArtists b) as [[] |], (listAlbums b) as [[] |].
Qed.

Lemma save_single_ok r b p tr es u :
  valid r es -> isSingle r = true ->
  updateTrack b (trackIds r !!! 0%nat) (buildInput es) = fulfilled (ok u) ->
  tracks (save r b p tr).1.2 = [u] /\
  editState (save r b p tr).1.2 = Some (buildEditState [u]) /\
  (is_Some (match setTrackExtraTags b (trackIds r !!! 0%nat) (extraTags r) with
            | fulfilled x => Some x
            | rejected => None
            end) ->
   saved (save r b p tr).1.2 = true).
Proof.
  intros (Hes & Hf & Ht) Hsingle Hupd. open_save.
  rewrite Hes, Hf, Ht, !no_keys_empty, Hsingle. simpl in Hupd |- *. rewrite Hupd. simpl.
  destruct (setTrackExtraTags b _ _) as [x |]; simpl.
  - by destruct (listArtists b) as [[] |], (listAlbums b) as [[] |].
  - repeat apply conj; try done.
Qed.

Lemma save_batch_ok r b p tr es x rs :
  valid r es -> isSingle r = false ->
  batchUpdateTracks b (trackIds r) (buildInput es) = fulfilled x ->
  all (map (getTrack b) (trackIds r)) = fulfilled rs ->
  tracks (save r b p tr).1.2 = oks rs /\
  editState (save r b p tr).1.2 = Some (buildEditState (oks rs)) /\
  saved (save r b p tr).1.2 = true.
Proof.
  intros (Hes & Hf & Ht) Hsingle Hupd Hall. open_save.
  rewrite Hes, Hf, Ht, !no_keys_empty, Hsingle. simpl in Hupd |- *.
  rewrite Hupd. simpl. rewrite Hall. simpl.
  by destruct (listArtists b) as [[] |], (listAlbums b) as [[] |].
Qed.

Lemma save_trace r b p tr es :
  valid r es ->
  exists rest,
    (save r b p tr).2 = tr ++ Invoke (update_call r es) :: rest /\
    forallb (fun e => negb (is_update e)) rest = true.
Proof.
  intros (Hes & Hf & Ht). open_save. unfold update_call.
  rewrite Hes, Hf, Ht, !no_keys_empty. simpl.
  destruct (isSingle r); simpl.
  - destruct (updateTrack b _ _) as [[u | e] |]; simpl.
    + destruct (setTrackExtraTags b _ _) as [x |]; simpl.
      * destruct (listArtists b) as [[] |], (listAlbums b) as [[] |]; simpl;
          rewrite <- !(assoc_L (++)); eexists; (split; [reflexivity | done]).
      * rewrite <- !(assoc_L (++)); eexists; (split; [reflexivity | done]).
    + destruct (listArtists b) as [[] |], (listAlbums b) as [[] |]; simpl;
        rewrite <- !(assoc_L (++)); eexists; (split; [reflexivity | done]).
    + exists []. done.
  - destruct (batchUpdateTracks b _ _) as [x |]; simpl.
    + destruct (all _) as [rs |]; simpl.
      * destruct (listArtists b) as [[] |], (listAlbums b) as [[] |]; simpl;
          rewrite <- !(assoc_L (++)); eexists; (split; [reflexivity |]);
          simpl; rewrite forallb_app, getTracks_not_update; done.
      * rewrite <- !(assoc_L (++)); eexists; (split; [reflexivity |]).
        simpl. apply getTracks_not_update.
    + exists []. done.
Qed.

End SaveFacts.

(** X11: a click on Save never leaves the panel in "Saving…": once the
    handler has run, whatever the backend answered and also when a call
    threw, [saving] is what it was before the click. *)
Theorem commit_restores_saving (b : Editor.Backend) (p : Editor.Panel) (tr : list Editor.Effect) :
  Editor.saving (Editor.clickSave b p tr).1.2 = Editor.saving p.
Proof.
  unfold Editor.clickSave.
  destruct (Editor.rendered p && negb (Editor.saveDisabled p)) eqn:Hc; [| done].
  apply andb_true_iff in Hc as [_ Hd]. apply negb_true_iff in Hd.
  unfold Editor.saveDisabled in Hd.
  assert (Editor.saving p = false) as Hs
    by (destruct (Editor.saving p); [by rewrite orb_true_r in Hd | done]).
  rewrite Hs. by apply SaveFacts.save_saving.
Qed.

(** The backend accepts every update and returns the track retitled. *)
Definition accepting : Editor.Backend :=
  Scenario.backend (Editor.fulfilled (Editor.ok (Scenario.track 1 "New Title")))
                   (Editor.fulfilled (Editor.ok ())).

(** X12: a commit that the backend accepts replaces the session.  With
    one track selected and [updateTrack] answering ok with a record, the
    records are that record alone and the session is its reconciliation;
    with several tracks and [batchUpdateTracks] fulfilled, the records are
    the ok results of the reload and the session is their reconciliation.
    In both cases no field is edited any more, and the "saved" flag is set
    (for one track: once [setTrackExtraTags] has answered, with ok or with
    an error), so that Save is disabled.  The tags of the panel have plain
    frame ids and the numerals of the session are short. *)
Theorem accepted_commit_rebuilds_session (b : Editor.Backend) (p : Editor.Panel)
        (tr : list Editor.Effect) (es : Editor.EditState) :
  Editor.rendered p = true -> Editor.saveDisabled p = false -> SaveFacts.valid p es ->
  SaveFacts.plain_tags p -> ValidatedPatch.short_numbers es ->
  (forall u x,
     Editor.isSingle p = true ->
     Editor.updateTrack b (Editor.trackIds p !!! 0%nat) (Editor.buildInput es)
     = Editor.fulfilled (Editor.ok u) ->
     Editor.setTrackExtraTags b (Editor.trackIds p !!! 0%nat) (Editor.extraTags p)
     = Editor.fulfilled x ->
     Editor.tracks (Editor.clickSave b p tr).1.2 = [u] /\
     Editor.editState (Editor.clickSave b p tr).1.2 = Some (Editor.buildEditState [u]) /\
     Editor.hasAnyEdit (Editor.clickSave b p tr).1.2 = false /\
     Editor.saved (Editor.clickSave b p tr).1.2 = true /\
     Editor.saveDisabled (Editor.clickSave b p tr).1.2 = true) /\
  (forall x rs,
     Editor.isSingle p = false ->
     Editor.batchUpdateTracks b (Editor.trackIds p) (Editor.buildInput es)
     = Editor.fulfilled x ->
     Editor.all (map (Editor.getTrack b) (Editor.trackIds p)) = Editor.fulfilled rs ->
     Editor.tracks (Editor.clickSave b p tr).1.2 = Editor.oks rs /\
     Editor.editState (Editor.clickSave b p tr).1.2
     = Some (Editor.buildEditState (Editor.oks rs)) /\
     Editor.hasAnyEdit (Editor.clickSave b p tr).1.2 = false /\
     Editor.saved (Editor.clickSave b p tr).1.2 = true /\
     Editor.saveDisabled (Editor.clickSave b p tr).1.2 = true).
Proof.
  intros Hr Hd Hv _ _.
  assert (Editor.clickSave b p tr = Editor.save p b p tr) as ->
    by (unfold Editor.clickSave; by rewrite Hr, Hd).
  assert (forall q ts,
            Editor.editState q = Some (Editor.buildEditState ts) ->
            Editor.hasAnyEdit q = false) as Hpristine.
  { intros q ts Hq. unfold Editor.hasAnyEdit. rewrite Hq.
    apply not_true_is_false. intros Hex. apply existsb_exists in Hex as (k & _ & Hk).
    by rewrite ReconcilerFacts.buildEditState_not_edited in Hk. }
  split.
  - intros u x Hsingle Hupd Htags.
    destruct (SaveFacts.save_single_ok p b p tr es u Hv Hsingle Hupd) as (Ht & He & Hs).
    rewrite Htags in Hs. specialize (Hs (mk_is_Some _ _ eq_refl)).
    pose proof (Hpristine _ _ He) as Hany.
    repeat apply conj; try done.
    unfold Editor.saveDisabled. by rewrite Hany.
  - intros x rs Hsingle Hupd Hall.
    destruct (SaveFacts.save_batch_ok p b p tr es x rs Hv Hsingle Hupd Hall) as (Ht & He & Hs).
    pose proof (Hpristine _ _ He) as Hany.
    repeat apply conj; try done.
    unfold Editor.saveDisabled. by rewrite Hany.
Qed.

(** The theorem at one track retitled and accepted. *)
Lemma accepted_commit_rebuilds_session_witness :
  Editor.tracks (Editor.clickSave accepting (Scenario.retitled accepting [1%Z]) []).1.2
  = [Scenario.track 1 "New Title"] /\
  Editor.editState (Editor.clickSave accepting (Scenario.retitled accepting [1%Z]) []).1.2
  = Some (Editor.buildEditState [Scenario.track 1 "New Title"]) /\
  Editor.hasAnyEdit (Editor.clickSave accepting (Scenario.retitled accepting [1%Z]) []).1.2
  = false /\
  Editor.saved (Editor.clickSave accepting (Scenario.retitled accepting [1%Z]) []).1.2 = true /\
  Editor.saveDisabled (Editor.clickSave accepting (Scenario.retitled accepting [1%Z]) []).1.2
  = true.
Proof.
  assert (SaveFacts.plain_tags (Scenario.retitled accepting [1%Z])) as Hplain
    by constructor.
  assert (ValidatedPatch.short_numbers
            (Editor.withField Editor.K_title (Editor.edited "New Title")
               (Editor.buildEditState [Scenario.track 1 "Title A"]))) as Hshort
    by (repeat split; intros v Hv; vm_compute in Hv; discriminate Hv).
  apply (proj1 (accepted_commit_rebuilds_session accepting
                  (Scenario.retitled accepting [1%Z]) []
                  (Editor.withField Editor.K_title (Editor.edited "New Title")
                     (Editor.buildEditState [Scenario.track 1 "Title A"]))
                  eq_refl eq_refl (conj eq_refl (conj eq_refl eq_refl)) Hplain Hshort)
               (Scenario.track 1 "New Title") (Editor.ok ()));
    reflexivity.
Defined.

(** X13: a commit makes one update call.  When a click on Save is let
    through and the session passes [validate], the first thing dispatched
    is [updateTrack] on the one selected id, or [batchUpdateTracks] on the
    selected ids when their number is not one, with the patch of the
    session; nothing dispatched after it is an update call.  The tags of
    the panel have plain frame ids and the numerals of the session are
    short. *)
Theorem commit_makes_one_update_call (b : Editor.Backend) (p : Editor.Panel)
        (tr : list Editor.Effect) (es : Editor.EditState) :
  Editor.rendered p = true -> Editor.saveDisabled p = false -> SaveFacts.valid p es ->
  SaveFacts.plain_tags p -> ValidatedPatch.short_numbers es ->
  exists rest,
    (Editor.clickSave b p tr).2
    = tr ++ Editor.Invoke (SaveFacts.update_call p es) :: rest /\
    forallb (fun e => negb (SaveFacts.is_update e)) rest = true.
Proof.
  intros Hr Hd Hv _ _.
  assert (Editor.clickSave b p tr = Editor.save p b p tr) as ->
    by (unfold Editor.clickSave; by rewrite Hr, Hd).
  by apply SaveFacts.save_trace.
Qed.

(** The theorem at two tracks retitled: the batch call comes first, then
    the reload. *)
Lemma commit_makes_one_update_call_witness :
  exists rest,
    (Editor.clickSave accepting (Scenario.retitled accepting [1%Z; 2%Z]) []).2
    = [] ++ Editor.Invoke
              (Editor.CallBatchUpdateTracks [1%Z; 2%Z] {["title" := JS.VStr "New Title"]})
            :: rest /\
    forallb (fun e => negb (SaveFacts.is_update e)) rest = true.
Proof.
  apply (commit_makes_one_update_call accepting (Scenario.retitled accepting [1%Z; 2%Z]) []
           (Editor.withField Editor.K_title (Editor.edited "New Title")
              (Editor.buildEditState [Scenario.track 1 "Title A"; Scenario.track 2 "Title B"]))).
  - reflexivity.
  - reflexivity.
  - repeat split; reflexivity.
  - constructor.
  - repeat split; intros v Hv; vm_compute in Hv; discriminate Hv.
Defined.

(** ** What a selection change leaves behind *)

Module SelectionFacts.
Import JS Editor.

(** [load] writes the records, the session, the suggestions, the extra
    tags and [loading], and nothing else. *)
Lemma load_keeps ids b p tr :
  errors (load ids b p tr).1.2 = errors p /\
  extraTagErrors (load ids b p tr).1.2 = extraTagErrors p /\
  showAddFrame (load ids b p tr).1.2 = showAddFrame p.
Proof.
  destruct (LoadFacts.first_wave b ids) as [[[rs a] l] |] eqn:Hw.
  - revert Hw.
    unfold LoadFacts.first_wave, load, try_finally, try_catch, mbind, Async_bind,
      await_load, modify, await, mret, Async_ret.
    intros Hw. rewrite Hw. simpl.
    destruct a, l; simpl; case_bool_decide; simpl;
      try destruct (getTrackExtraTags b _) as [[] |]; simpl; done.
  - by rewrite LoadFacts.load_rejected.
Qed.

Lemma step_keeps s e :
  errors (view (step s e)) = errors (view s) /\
  extraTagErrors (view (step s e)) = extraTagErrors (view s).
Proof.
  destruct e as [ids | k b]; simpl.
  - by case_bool_decide.
  - destruct (inflight s !! k) as [ids |]; [| done]. simpl.
    destruct (load_keeps ids b (view s) []) as (H1 & H2 & _). by rewrite H1, H2.
Qed.

Lemma run_keeps evs : forall s,
  errors (view (foldl step s evs)) = errors (view s) /\
  extraTagErrors (view (foldl step s evs)) = extraTagErrors (view s).
Proof.
  induction evs as [| e evs IH]; intros s; simpl; [done |].
  destruct (IH (step s e)) as [H1 H2], (step_keeps s e) as [H3 H4].
  by rewrite H1, H2, H3, H4.
Qed.

End SelectionFacts.

(** X14: the two error maps outlive the selection they were written
    for.  Whatever selections are made and whatever loads arrive, the
    error map and the extra-tag error map of the panel stay what they
    were: the load effect resets the session and the extra tags, not the
    errors.  A panel that held an error keeps the Save button disabled on
    every later selection, and a click on Save does nothing there. *)
Theorem validation_errors_outlive_selection (s : Editor.Session) (evs : list Editor.Event) :
  Editor.errors (Editor.view (foldl Editor.step s evs)) = Editor.errors (Editor.view s) /\
  Editor.extraTagErrors (Editor.view (foldl Editor.step s evs))
  = Editor.extraTagErrors (Editor.view s) /\
  (Editor.errors (Editor.view s) <> ∅ \/ Editor.extraTagErrors (Editor.view s) <> ∅ ->
   Editor.saveDisabled (Editor.view (foldl Editor.step s evs)) = true /\
   forall b tr,
     Editor.clickSave b (Editor.view (foldl Editor.step s evs)) tr
     = (Editor.fulfilled (), Editor.view (foldl Editor.step s evs), tr)).
Proof.
  destruct (SelectionFacts.run_keeps evs s) as [H1 H2].
  split; [done |]. split; [done |]. intros Herr.
  assert (Editor.saveDisabled (Editor.view (foldl Editor.step s evs)) = true) as Hd.
  { apply PanelFacts.saveDisabled_true. rewrite H1, H2. tauto. }
  split; [done |]. intros b tr. unfold Editor.clickSave.
  by rewrite Hd, andb_false_r.
Qed.

(** The theorem at track 1 with the year ["99"] typed in, then track 2
    selected and loaded: the title of track 2 is edited and Save is
    disabled by the year of track 1. *)
Lemma validation_errors_outlive_selection_witness :
  let b := Scenario.refusing in
  let s := {| Editor.view := Editor.onChangeYear "99" (Scenario.loaded b [1%Z]);
              Editor.inflight := [] |} in
  let s' := foldl Editor.step s [Editor.Select [2%Z]; Editor.Arrive 0 b] in
  Editor.tracks (Editor.view s') = [Scenario.track 2 "Title B"] /\
  Editor.errors (Editor.view s') = {["year" := "4-digit year (1000–2099)"]} /\
  Editor.saveDisabled (Editor.setField Editor.K_title "New Title" (Editor.view s')) = true /\
  Editor.saveDisabled (Editor.view s') = true.
Proof.
  intros b s s'. split; [reflexivity |]. split; [reflexivity |]. split; [reflexivity |].
  apply (validation_errors_outlive_selection s [Editor.Select [2%Z]; Editor.Arrive 0 b]).
  left. intros He. apply (f_equal (fun m => m !! "year")) in He. discriminate He.
Defined.

(** ** What the lookups never do *)

Module CoverArtSettled.
Import Editor(Result, ok, error, Settled, fulfilled, rejected).
Import CoverArt CoverArtFacts.

Definition is_fulfilled (st : PromiseState) : bool :=
  match st with
  | Fulfilled _ => true
  | _ => false
  end.

(** A request that is in flight or was rejected is still the one in the
    in-flight map under its key, and its key is not cached. *)
Definition unsettled (s : Store) : Prop :=
  forall q r,
    requests s !! q = Some r -> is_fulfilled (req_state r) = false ->
    pending s !! req_key r = Some q /\ coverCache s !! req_key r = None.

(** The callback of a listener has run only on a fulfilled request. *)
Definition ran_on_fulfilled (s : Store) : Prop :=
  forall l li,
    listeners s !! l = Some li -> l_ran li = true ->
    exists r, requests s !! l_promise li = Some r /\ is_fulfilled (req_state r) = true.

Lemma unsettled_init : unsettled init.
Proof. intros q r Hr. simpl in Hr. by rewrite lookup_nil in Hr. Qed.

Lemma ran_on_fulfilled_init : ran_on_fulfilled init.
Proof. intros l li Hl. simpl in Hl. by rewrite lookup_nil in Hl. Qed.

Lemma unsettled_step s e s' :
  invariant s -> unsettled s -> step s e = Some s' -> unsettled s'.
Proof.
  intros [Hp Hc Hs Hf Hk Hl] Hu. destruct e as [c key arg | q0 res | l | l]; simpl.
  - intros [= <-]. unfold run_effect.
    destruct (coverCache s !! key) as [v |] eqn:Hcache; [exact Hu |].
    destruct (pending s !! key) as [q0 |] eqn:Hpend; [exact Hu |].
    intros q r Hr Hst. simpl in *.
    apply lookup_snoc_Some in Hr as [[_ Hr] | [-> <-]]; simpl.
    + destruct (Hu _ _ Hr Hst) as [H1 H2]. split; [| done].
      rewrite lookup_insert_ne; [done |]. intros Heq. rewrite <- Heq in H1. congruence.
    + split; [apply lookup_insert_eq | done].
  - unfold settle.
    destruct (requests s !! q0) as [[key arg [| |]] |] eqn:Hq; try done.
    destruct res as [res |]; intros [= <-]; intros q r Hr Hst; simpl in *.
    + apply list_lookup_insert_Some in Hr as [(-> & <- & _) | [Hne Hr]]; [done |].
      destruct (Hu _ _ Hr Hst) as [H1 H2]. split; [done |].
      rewrite lookup_insert_ne; [done |]. intros Hkey.
      apply Hne. by apply (Hs _ _ _ _ Hq Hr).
    + apply list_lookup_insert_Some in Hr as [(-> & <- & _) | [Hne Hr]]; simpl.
      * by apply (Hu _ _ Hq).
      * by apply Hu.
  - unfold react.
    destruct (listeners s !! l) as [li |] eqn:Hli; [| done].
    destruct (l_ran li); [done |].
    destruct (requests s !! l_promise li) as [[key arg [| url |]] |] eqn:Hr; try done.
    intros [= <-]. intros q r Hq Hst; simpl in *.
    destruct (Hu _ _ Hq Hst) as [H1 H2]. split; [| done].
    rewrite lookup_delete_ne; [done |]. intros Hkey.
    destruct (Hl _ _ Hli) as (r' & Hr' & Hkey').
    assert (l_promise li = q) as Heq by (apply (Hs _ _ _ _ Hr' Hq); congruence).
    rewrite Heq, Hq in Hr. injection Hr as ->. done.
  - unfold cleanup.
    destruct (listeners s !! l) as [li |] eqn:Hli; [| done].
    intros [= <-]. exact Hu.
Qed.

(** A request that has settled stays as it is. *)
Lemma settled_stays s e s' q r :
  step s e = Some s' -> requests s !! q = Some r -> req_state r <> Pending ->
  requests s' !! q = Some r.
Proof.
  destruct e as [c key arg | q0 res | l | l]; simpl.
  - intros [= <-] Hr _. unfold run_effect.
    destruct (coverCache s !! key); [done |].
    destruct (pending s !! key); [done |]. simpl. by apply lookup_app_l_Some.
  - unfold settle.
    destruct (requests s !! q0) as [[key arg [| |]] |] eqn:Hq; try done.
    destruct res as [res |]; intros [= <-] Hr Hst; simpl;
      (rewrite list_lookup_insert_ne; [done |]); intros <-;
      rewrite Hq in Hr; injection Hr as <-; done.
  - unfold react.
    destruct (listeners s !! l) as [li |]; [| done].
    destruct (l_ran li); [done |].
    destruct (requests s !! l_promise li) as [[key arg [| url |]] |]; try done.
    by intros [= <-].
  - unfold cleanup. destruct (listeners s !! l) as [li |]; [| done]. by intros [= <-].
Qed.

Lemma ran_on_fulfilled_step s e s' :
  ran_on_fulfilled s -> step s e = Some s' -> ran_on_fulfilled s'.
Proof.
  intros Hran Hstep.
  assert (forall q r, requests s !! q = Some r -> is_fulfilled (req_state r) = true ->
                      requests s' !! q = Some r) as Hstay.
  { intros q r Hr Hst. apply (settled_stays s e s' q r Hstep Hr).
    by destruct (req_state r). }
  destruct e as [c key arg | q0 res | l | l]; simpl in Hstep.
  - injection Hstep as <-. unfold run_effect in *.
    destruct (coverCache s !! key) as [v |] eqn:Hcache.
    { intros l li Hli Hr. destruct (Hran _ _ Hli Hr) as (r & Hq & Hst). eauto. }
    destruct (pending s !! key) as [q0 |] eqn:Hpend; simpl in *;
      intros l li Hli Hr;
      (apply lookup_snoc_Some in Hli as [[_ Hli] | [_ <-]]; [| done]);
      destruct (Hran _ _ Hli Hr) as (r & Hq & Hst); eauto.
  - intros l li Hli Hr.
    assert (listeners s' = listeners s) as Hsame.
    { unfold settle in Hstep.
      destruct (requests s !! q0) as [[key arg [| |]] |]; try done.
      destruct res; by injection Hstep as <-. }
    rewrite Hsame in Hli. destruct (Hran _ _ Hli Hr) as (r & Hq & Hst). eauto.
  - unfold react in Hstep.
    destruct (listeners s !! l) as [li0 |] eqn:Hli0; [| done].
    destruct (l_ran li0) eqn:Hran0; [done |].
    destruct (requests s !! l_promise li0) as [[key arg [| url |]] |] eqn:Hq0; try done.
    injection Hstep as <-. intros l' li Hli Hr. simpl in *.
    apply list_lookup_insert_Some in Hli as [(-> & <- & _) | [_ Hli]]; simpl; [eauto |].
    destruct (Hran _ _ Hli Hr) as (r & Hq & Hst). eauto.
  - unfold cleanup in Hstep.
    destruct (listeners s !! l) as [li0 |] eqn:Hli0; [| done].
    injection Hstep as <-. intros l' li Hli Hr. simpl in *.
    apply list_lookup_insert_Some in Hli as [(-> & <- & _) | [_ Hli]]; simpl in *.
    + destruct (Hran _ _ Hli0 Hr) as (r & Hq & Hst). eauto.
    + destruct (Hran _ _ Hli Hr) as (r & Hq & Hst). eauto.
Qed.

(** The three invariants together, along a run. *)
Definition settled_inv (s : Store) : Prop :=
  invariant s /\ unsettled s /\ ran_on_fulfilled s.

Lemma settled_inv_exec evs : forall s s',
  settled_inv s -> exec s evs = Some s' -> settled_inv s'.
Proof.
  induction evs as [| e evs IH]; intros s s' Hinv; simpl.
  - by intros [= <-].
  - destruct (step s e) as [s1 |] eqn:Hstep; [| done].
    apply IH. destruct Hinv as (Hi & Hu & Hr). split; [| split].
    + by eapply invariant_step.
    + by eapply unsettled_step.
    + by eapply ran_on_fulfilled_step.
Qed.

Lemma settled_inv_reachable evs s : exec init evs = Some s -> settled_inv s.
Proof.
  apply settled_inv_exec. split; [| split];
    [apply invariant_init | apply unsettled_init | apply ran_on_fulfilled_init].
Qed.

(** A step leaves a cached entry as it is. *)
Lemma cache_step s e s' key v :
  unsettled s -> step s e = Some s' ->
  coverCache s !! key = Some v -> coverCache s' !! key = Some v.
Proof.
  intros Hu. destruct e as [c k arg | q0 res | l | l]; simpl.
  - intros [= <-] Hv. unfold run_effect.
    destruct (coverCache s !! k); [done |]. by destruct (pending s !! k).
  - unfold settle.
    destruct (requests s !! q0) as [[k arg [| |]] |] eqn:Hq; try done.
    destruct res as [res |]; intros [= <-] Hv; simpl; [| done].
    rewrite lookup_insert_ne; [done |]. intros <-.
    destruct (Hu _ _ Hq eq_refl) as [_ Hnone]. simpl in Hnone. congruence.
  - unfold react.
    destruct (listeners s !! l) as [li |]; [| done].
    destruct (l_ran li); [done |].
    destruct (requests s !! l_promise li) as [[k arg [| url |]] |]; try done.
    by intros [= <-].
  - unfold cleanup. destruct (listeners s !! l) as [li |]; [| done]. by intros [= <-].
Qed.

Lemma cache_exec evs : forall s s' key v,
  settled_inv s -> exec s evs = Some s' ->
  coverCache s !! key = Some v -> coverCache s' !! key = Some v.
Proof.
  induction evs as [| e evs IH]; intros s s' key v Hinv; simpl.
  - by intros [= <-].
  - destruct (step s e) as [s1 |] eqn:Hstep; [| done]. intros Hexec Hv.
    apply (IH s1); [by apply (settled_inv_exec [e] s); [| simpl; rewrite Hstep] | done |].
    destruct Hinv as (_ & Hu & _). by apply (cache_step s e).
Qed.

Lemma settled_stays_exec evs : forall s s' q r,
  exec s evs = Some s' -> requests s !! q = Some r -> req_state r <> Pending ->
  requests s' !! q = Some r.
Proof.
  induction evs as [| e evs IH]; intros s s' q r; simpl.
  - by intros [= <-].
  - destruct (step s e) as [s1 |] eqn:Hstep; [| done]. intros Hexec Hr Hst.
    apply (IH s1); [done | | done]. by apply (settled_stays s e).
Qed.

(** A key with a request has been fetched exactly once. *)
Lemma fetches_requested s q r :
  invariant s -> requests s !! q = Some r -> fetches (req_key r) s = 1.
Proof.
  intros Hinv Hr. pose proof (fetches_le_1 s (req_key r) Hinv) as Hle.
  destruct (fetches (req_key r) s) as [| n] eqn:Hf; [| lia].
  by destruct (fetches_zero _ _ _ _ Hf Hr).
Qed.

End CoverArtSettled.

(** X15: a cached cover is final.  Once a key is in the cache of a store
    the event loop has reached, whatever happens afterwards the cache
    holds the same value under that key and no further backend call is
    made for it: exactly one call was ever made. *)
Theorem cached_cover_is_final (evs evs' : list CoverArt.Event) (s s' : CoverArt.Store)
        (key : Z) (v : option string) :
  CoverArt.exec CoverArt.init evs = Some s ->
  CoverArt.coverCache s !! key = Some v ->
  CoverArt.exec s evs' = Some s' ->
  CoverArt.coverCache s' !! key = Some v /\
  CoverArt.fetches key s = 1 /\
  CoverArt.fetches key s' = 1.
Proof.
  intros Hs Hv Hs'.
  pose proof (CoverArtSettled.settled_inv_reachable _ _ Hs) as Hinv.
  pose proof (CoverArtSettled.settled_inv_exec _ _ _ Hinv Hs') as Hinv'.
  pose proof (CoverArtSettled.cache_exec _ _ _ _ _ Hinv Hs' Hv) as Hv'.
  split; [done |].
  destruct Hinv as (Hi & _), Hinv' as (Hi' & _). split.
  - destruct (CoverArtFacts.inv_cached _ Hi key) as (q & r & Hr & <-); [by rewrite Hv |].
    by apply (CoverArtSettled.fetches_requested _ q).
  - destruct (CoverArtFacts.inv_cached _ Hi' key) as (q & r & Hr & <-); [by rewrite Hv' |].
    by apply (CoverArtSettled.fetches_requested _ q).
Qed.

(** The theorem at album 7, whose track has no embedded picture: the
    [null] is cached, and a second track of the album rendered later makes
    no call. *)
Lemma cached_cover_is_final_witness :
  exists s',
    CoverArt.exec CoverArt.init
      [CoverArt.useCoverArt 0 10 (Some 7%Z);
       CoverArt.Settle 0 (Editor.fulfilled (Editor.ok None));
       CoverArt.React 0;
       CoverArt.useCoverArt 1 11 (Some 7%Z)] = Some s' /\
    CoverArt.coverCache s' !! 7%Z = Some None /\
    CoverArt.fetches 7 s' = 1.
Proof.
  eexists. split; [reflexivity |].
  refine (let H := cached_cover_is_final
                     [CoverArt.useCoverArt 0 10 (Some 7%Z);
                      CoverArt.Settle 0 (Editor.fulfilled (Editor.ok None))]
                     [CoverArt.React 0; CoverArt.useCoverArt 1 11 (Some 7%Z)]
                     _ _ 7%Z None eq_refl eq_refl eq_refl in
          conj (proj1 H) (proj2 (proj2 H))).
Defined.

(** X16: a lookup whose command throws is never retried.  When the
    request of a key was rejected, then whatever happens afterwards the
    request stays rejected, the key stays in the in-flight map and out of
    the cache, so that every later effect run for the key attaches to the
    rejected promise; no second call is made and no callback of a listener
    of that key ever runs. *)
Theorem rejected_lookup_is_never_retried (evs evs' : list CoverArt.Event)
        (s s' : CoverArt.Store) (q : nat) (r : CoverArt.Request) :
  CoverArt.exec CoverArt.init evs = Some s ->
  CoverArt.requests s !! q = Some r -> CoverArt.req_state r = CoverArt.Rejected ->
  CoverArt.exec s evs' = Some s' ->
  CoverArt.requests s' !! q = Some r /\
  CoverArt.coverCache s' !! CoverArt.req_key r = None /\
  CoverArt.pending s' !! CoverArt.req_key r = Some q /\
  CoverArt.fetches (CoverArt.req_key r) s' = 1 /\
  (forall l li, CoverArt.listeners s' !! l = Some li ->
                CoverArt.l_key li = CoverArt.req_key r -> CoverArt.l_ran li = false).
Proof.
  intros Hs Hr Hst Hs'.
  pose proof (CoverArtSettled.settled_inv_reachable _ _ Hs) as Hinv.
  destruct (CoverArtSettled.settled_inv_exec _ _ _ Hinv Hs') as (Hi & Hu & Hran).
  assert (CoverArt.requests s' !! q = Some r) as Hr'.
  { apply (CoverArtSettled.settled_stays_exec evs' s); [done | done |]. by rewrite Hst. }
  assert (CoverArtSettled.is_fulfilled (CoverArt.req_state r) = false) as Hnf
    by (by rewrite Hst).
  destruct (Hu _ _ Hr' Hnf) as [Hpend Hcache].
  repeat apply conj; try done.
  - by apply (CoverArtSettled.fetches_requested _ q).
  - intros l li Hli Hkey. destruct (CoverArt.l_ran li) eqn:Hl; [| done].
    destruct (Hran _ _ Hli Hl) as (r1 & Hr1 & Hf1).
    destruct (CoverArtFacts.inv_listener _ Hi _ _ Hli) as (r2 & Hr2 & Hkey2).
    rewrite Hr1 in Hr2. injection Hr2 as <-.
    assert (CoverArt.l_promise li = q) as Heq
      by (apply (CoverArtFacts.inv_single _ Hi _ _ _ _ Hr1 Hr'); congruence).
    rewrite Heq, Hr' in Hr1. injection Hr1 as <-. congruence.
Qed.

(** The theorem at album 7, whose lookup throws: the track rendered
    later attaches to the rejected promise. *)
Lemma rejected_lookup_is_never_retried_witness :
  exists s',
    CoverArt.exec CoverArt.init
      [CoverArt.useCoverArt 0 10 (Some 7%Z); CoverArt.Settle 0 Editor.rejected;
       CoverArt.useCoverArt 1 11 (Some 7%Z)] = Some s' /\
    CoverArt.coverCache s' !! 7%Z = None /\
    CoverArt.pending s' !! 7%Z = Some 0 /\
    CoverArt.fetches 7 s' = 1 /\
    CoverArt.src s' !! 1 = None.
Proof.
  eexists. split; [reflexivity |].
  refine (let H := rejected_lookup_is_never_retried
                     [CoverArt.useCoverArt 0 10 (Some 7%Z); CoverArt.Settle 0 Editor.rejected]
                     [CoverArt.useCoverArt 1 11 (Some 7%Z)]
                     _ _ 0
                     {| CoverArt.req_key := 7; CoverArt.req_arg := 10;
                        CoverArt.req_state := CoverArt.Rejected |}
                     eq_refl eq_refl eq_refl eq_refl in
          conj (proj1 (proj2 H))
               (conj (proj1 (proj2 (proj2 H)))
                     (conj (proj1 (proj2 (proj2 (proj2 H)))) eq_refl))).
Defined.

(** ** The validators of the extra tags *)

Module TagValidatorFacts.
Import Regex RegexFacts Validators ValidatorFacts.

(** The keys [/^[A-G][b#]?m?$/] accepts, written out. *)
Definition musical_keys : list string :=
  k ← ["A"; "B"; "C"; "D"; "E"; "F"; "G"];
  accidental ← [""; "b"; "#"];
  minor ← [""; "m"];
  [k +:+ accidental +:+ minor].

Lemma upper_AG_cases c :
  upper_AG c = true -> c ∈ ["A"; "B"; "C"; "D"; "E"; "F"; "G"]%char.
Proof.
  destruct c as [[] [] [] [] [] [] [] []]; intros H; try discriminate H;
    eapply bool_decide_unpack; vm_compute; reflexivity.
Qed.

Lemma flat_or_sharp_cases c : flat_or_sharp c = true -> c = "b"%char \/ c = "#"%char.
Proof.
  unfold flat_or_sharp. intros H. apply orb_true_iff in H as [H | H];
    apply bool_decide_eq_true in H; auto.
Qed.

Lemma key_lang w :
  lang re_key w ->
  exists k a m, w = [k] ++ a ++ m /\ k ∈ ["A"; "B"; "C"; "D"; "E"; "F"; "G"]%char /\
                a ∈ [[]; ["b"%char]; ["#"%char]] /\ m ∈ [[]; ["m"%char]].
Proof.
  unfold re_key, Opt. intros H.
  apply lang_cat_iff in H as (w1 & w23 & -> & H1 & H23).
  apply lang_cat_iff in H23 as (w2 & w3 & -> & H2 & H3).
  apply lang_class in H1 as (k & -> & Hk).
  exists k, w2, w3. split; [done |]. split; [by apply upper_AG_cases |]. split.
  - apply lang_alt_iff in H2 as [H2 | H2].
    + apply lang_class in H2 as (a & -> & Ha).
      apply flat_or_sharp_cases in Ha as [-> | ->]; set_solver.
    + apply lang_eps_iff in H2 as ->. set_solver.
  - apply lang_alt_iff in H3 as [H3 | H3].
    + apply lang_chr in H3 as ->. set_solver.
    + apply lang_eps_iff in H3 as ->. set_solver.
Qed.

Lemma TKEY_valid v : TKEY v = None <-> v ∈ musical_keys.
Proof.
  split.
  - unfold TKEY. destruct (test re_key v) eqn:Ht; [intros _ | done].
    apply test_lang, key_lang in Ht as (k & a & m & Hv & Hk & Ha & Hm).
    rewrite <- (of_list_chars v), Hv.
    repeat (apply elem_of_cons in Hk as [-> | Hk]);
      [| | | | | | | by apply elem_of_nil in Hk];
      (repeat (apply elem_of_cons in Ha as [-> | Ha]);
         [| | | by apply elem_of_nil in Ha]);
      (repeat (apply elem_of_cons in Hm as [-> | Hm]);
         [| | by apply elem_of_nil in Hm]);
      eapply bool_decide_unpack; vm_compute; reflexivity.
  - intros Hv.
    assert (Forall (fun v => TKEY v = None) musical_keys) as Hall
      by (eapply bool_decide_unpack; vm_compute; reflexivity).
    by apply (proj1 (Forall_forall _ _) Hall).
Qed.

(** A string of [n] characters of the class [p], as a word. *)
Lemma rep_class_string n p w :
  lang (Rep n (Class p)) w <->
  String.length (string_of_list_ascii w) = n /\ all_chars p (string_of_list_ascii w).
Proof.
  rewrite lang_rep_class. unfold all_chars.
  by rewrite <- chars_length, chars_of_list.
Qed.

Lemma TSRC_valid v :
  TSRC v = None <->
  exists country registrant code,
    v = country +:+ registrant +:+ code /\
    String.length country = 2 /\ all_chars upper country /\
    String.length registrant = 3 /\ all_chars upper_or_digit registrant /\
    String.length code = 7 /\ all_chars digit code.
Proof.
  unfold TSRC. pose proof (test_lang re_isrc v) as Ht. unfold re_isrc in *.
  split.
  - destruct (test _ v); [intros _ | done].
    destruct Ht as [Ht _]. specialize (Ht eq_refl).
    apply lang_cat_iff in Ht as (w1 & w23 & Hv & H1 & H23).
    apply lang_cat_iff in H23 as (w2 & w3 & -> & H2 & H3).
    apply rep_class_string in H1 as [? ?], H2 as [? ?], H3 as [? ?].
    exists (string_of_list_ascii w1), (string_of_list_ascii w2), (string_of_list_ascii w3).
    repeat apply conj; try done.
    rewrite <- (of_list_chars v), Hv.
    rewrite <- (chars_of_list w1), <- (chars_of_list w2), <- (chars_of_list w3) at 1.
    by rewrite <- !chars_app, of_list_chars.
  - intros (c & r & d & -> & Hc1 & Hc2 & Hr1 & Hr2 & Hd1 & Hd2).
    destruct Ht as [_ Ht]. rewrite Ht; [done |].
    rewrite !chars_app.
    constructor; [| constructor]; apply lang_rep_class; by rewrite chars_length.
Qed.

End TagValidatorFacts.

(** X17: the two validators of the extra tags.  [TKEY] accepts exactly
    the forty-two keys made of a letter from A to G, then nothing, [b] or
    [#], then nothing or [m]; [TSRC] accepts exactly the strings of twelve
    characters made of two capital letters, three capital letters or
    digits, and seven digits; and the registry holds the two under the
    frame ids that [validate] and the tag inputs look up. *)
Theorem tag_validators_accept_exactly :
  Validators.FIELD_VALIDATORS "TKEY" = Some Validators.TKEY /\
  Validators.FIELD_VALIDATORS "TSRC" = Some Validators.TSRC /\
  length TagValidatorFacts.musical_keys = 42 /\
  (forall v, Validators.TKEY v = None <-> v ∈ TagValidatorFacts.musical_keys) /\
  (forall v, Validators.TSRC v = None <->
             exists country registrant code,
               v = country +:+ registrant +:+ code /\
               String.length country = 2 /\
               ValidatorFacts.all_chars Regex.upper country /\
               String.length registrant = 3 /\
               ValidatorFacts.all_chars Regex.upper_or_digit registrant /\
               String.length code = 7 /\
               ValidatorFacts.all_chars Regex.digit code).
Proof.
  split; [done |]. split; [done |]. split; [done |]. split.
  - apply TagValidatorFacts.TKEY_valid.
  - apply TagValidatorFacts.TSRC_valid.
Qed.

(** The theorem at a key and at an ISRC, and at a lowercase key. *)
Lemma tag_validators_accept_exactly_witness :
  Validators.TKEY "C#m" = None /\
  Validators.TSRC "USRC17607839" = None /\
  "am" ∉ TagValidatorFacts.musical_keys.
Proof.
  split; [| split].
  - apply (proj1 (proj2 (proj2 (proj2 tag_validators_accept_exactly)))).
    eapply bool_decide_unpack. vm_compute. reflexivity.
  - apply (proj2 (proj2 (proj2 (proj2 tag_validators_accept_exactly)))).
    exists "US", "RC1", "7607839". repeat apply conj; reflexivity.
  - intros H.
    apply (proj1 (proj2 (proj2 (proj2 tag_validators_accept_exactly)))) in H.
    discriminate H.
Defined.

(** ** What the panel shows for a stored number *)

Module DisplayFacts.
Import JS Editor Regex Validators ValidatorFacts ParseFacts.

Lemma digits_from_acc w : forall acc,
  digits_from acc w = (acc * 10 ^ Z.of_nat (length w) + digits_from 0 w)%Z.
Proof.
  induction w as [| c w IH]; intros acc.
  - simpl. lia.
  - change (digits_from acc (c :: w))
      with (digits_from (acc * 10 + (Z.of_nat (nat_of_ascii c) - 48))%Z w).
    change (digits_from 0 (c :: w))
      with (digits_from (0 * 10 + (Z.of_nat (nat_of_ascii c) - 48))%Z w).
    rewrite (IH (acc * 10 + _)%Z), (IH (0 * 10 + _)%Z).
    rewrite length_cons, Nat2Z.inj_succ, Z.pow_succ_r by lia. ring.
Qed.

Lemma decimalValue_cons c s :
  decimalValue (String c s)
  = ((Z.of_nat (nat_of_ascii c) - 48) * 10 ^ Z.of_nat (String.length s) + decimalValue s)%Z.
Proof.
  change (decimalValue (String c s))
    with (digits_from (0 * 10 + (Z.of_nat (nat_of_ascii c) - 48))%Z (chars s)).
  rewrite digits_from_acc, chars_length. change (digits_from 0 (chars s)) with (decimalValue s).
  lia.
Qed.

(** The character of a decimal digit. *)
Lemma pretty_N_char_digit x :
  (x < 10)%N ->
  digit (pretty_N_char x) = true /\
  (Z.of_nat (nat_of_ascii (pretty_N_char x)) - 48 = Z.of_N x)%Z.
Proof.
  intros Hx.
  assert (x = 0 \/ x = 1 \/ x = 2 \/ x = 3 \/ x = 4 \/ x = 5 \/ x = 6 \/ x = 7 \/ x = 8
          \/ x = 9)%N as Hc by lia.
  repeat (destruct Hc as [-> | Hc]; [done |]). by subst.
Qed.

(** [String(n)] writes the decimal digits of [n] in front of what is
    already written. *)
Lemma pretty_N_go_digits x : forall s,
  all_chars digit s ->
  all_chars digit (pretty_N_go x s) /\
  decimalValue (pretty_N_go x s)
  = (Z.of_N x * 10 ^ Z.of_nat (String.length s) + decimalValue s)%Z.
Proof.
  induction (N.lt_wf_0 x) as [x _ IH]; intros s Hs.
  assert (x = 0 \/ 0 < x)%N as [-> | Hpos] by lia.
  - rewrite pretty_N_go_0. split; [done | lia].
  - rewrite pretty_N_go_step by done.
    destruct (pretty_N_char_digit (x `mod` 10)) as [Hd Hv]; [by apply N.mod_lt |].
    destruct (IH (x `div` 10)%N (N.div_lt x 10 Hpos eq_refl)
                 (String (pretty_N_char (x `mod` 10)) s)) as [Hall Hval].
    { unfold all_chars in *. simpl. by rewrite Hd, Hs. }
    split; [done |]. rewrite Hval, decimalValue_cons, Hv.
    change (String.length (String (pretty_N_char (x `mod` 10)) s))
      with (S (String.length s)).
    rewrite Nat2Z.inj_succ, Z.pow_succ_r by lia.
    rewrite (N.div_mod x 10) at 3 by done.
    rewrite N2Z.inj_add, N2Z.inj_mul. change (Z.of_N 10) with 10%Z. ring.
Qed.

(** [String(n)] on a number that is not negative is its decimal
    numeral. *)
Lemma String_of_digits n :
  (0 <= n)%Z -> digit_string (String_of n) /\ decimalValue (String_of n) = n.
Proof.
  intros Hn. destruct n as [| p | p]; [done | | lia].
  unfold String_of, pretty, pretty_Z, pretty, pretty_positive, pretty, pretty_N.
  destruct (decide (N.pos p = 0%N)) as [Hp | _]; [done |].
  destruct (pretty_N_go_digits (N.pos p) "") as [Hall Hval]; [done |].
  simpl in Hval. rewrite Z.mul_1_r, Z.add_0_r in Hval.
  split; [| done]. split; [| done].
  intros He. rewrite He in Hval. done.
Qed.

(** It is read back by [parseInt]. *)
Lemma parseInt_String_of n : (0 <= n)%Z -> parseInt (String_of n) = Num n.
Proof.
  intros Hn. destruct (String_of_digits n Hn) as [Hd Hv].
  by rewrite (parseInt_digits _ Hd), Hv.
Qed.

Lemma bpm_shown n : (0 <= n)%Z -> Validators.bpm (String_of n) = None.
Proof. intros Hn. apply bpm_valid. by apply String_of_digits. Qed.

Lemma year_shown y : (1000 <= y <= 2099)%Z -> Validators.year (String_of y) = None.
Proof.
  intros Hy.
  assert (Forall (fun k => Validators.year (String_of (1000 + Z.of_nat k)) = None)
                 (seq 0 1100)) as Hall
    by (eapply bool_decide_unpack; vm_compute; reflexivity).
  rewrite Forall_forall in Hall.
  replace y with (1000 + Z.of_nat (Z.to_nat (y - 1000)))%Z by lia.
  apply Hall, elem_of_seq. lia.
Qed.

Lemma position_shown n total :
  (0 < n)%Z -> (forall t, total = Some t -> (0 < t)%Z) ->
  exists v,
    positionString (Some n) total = Some v /\
    position_string v /\
    parseTrackDisc (Some v) = {| num := Some (Num n); total := Num <$> total |}.
Proof.
  intros Hn Ht.
  destruct (String_of_digits n) as [Hdn Hvn]; [lia |].
  assert (or_null (Num n) = Some (Num n)) as Hon by (by destruct n; try lia).
  destruct total as [t |].
  - specialize (Ht t eq_refl).
    destruct (String_of_digits t) as [Hdt Hvt]; [lia |].
    assert (or_null (Num t) = Some (Num t)) as Hot by (by destruct t; try lia).
    exists (String_of n +:+ "/" +:+ String_of t).
    split; [done |]. split; [right; eauto |].
    rewrite ValidatedFacts.parseTrackDisc_number_total by done.
    by rewrite Hvn, Hvt, Hon, Hot.
  - exists (String_of n). split; [done |]. split; [by left |].
    rewrite ValidatedFacts.parseTrackDisc_number by done.
    by rewrite Hvn, Hon.
Qed.

End DisplayFacts.

(** X18: what the panel shows for the stored numbers of a track is
    accepted by the validator of the field and read back as the stored
    numbers.  For one track with a positive track (disc) number and a
    total that is absent or positive, the field shows [N] or [N/Total],
    the validator accepts it and [parseTrackDisc] returns the number and
    the total; a stored BPM that is not negative and a stored year from
    1000 to 2099 are shown as their decimal numerals, accepted, and
    sent back as the same numbers. *)
Theorem shown_numbers_round_trip (t : Track.TrackRow) :
  let es := Editor.buildEditState [t] in
  (forall n, Track.trackNumber t = Some n -> (0 < n)%Z ->
     (forall m, Track.trackTotal t = Some m -> (0 < m)%Z) ->
     exists v,
       Editor.displayValue (Editor.trackNumber es) = Some (Some v) /\
       Validators.trackNumber v = None /\
       Editor.parseTrackDisc (Some v)
       = {| Editor.num := Some (JS.Num n); Editor.total := JS.Num <$> Track.trackTotal t |}) /\
  (forall n, Track.discNumber t = Some n -> (0 < n)%Z ->
     (forall m, Track.discTotal t = Some m -> (0 < m)%Z) ->
     exists v,
       Editor.displayValue (Editor.discNumber es) = Some (Some v) /\
       Validators.discNumber v = None /\
       Editor.parseTrackDisc (Some v)
       = {| Editor.num := Some (JS.Num n); Editor.total := JS.Num <$> Track.discTotal t |}) /\
  (forall n, Track.bpm t = Some n -> (0 <= n)%Z ->
     exists v,
       Editor.displayValue (Editor.bpm es) = Some (Some v) /\
       Validators.bpm v = None /\
       Editor.number_or_null (Some v) = JS.VNum (JS.Num n)) /\
  (forall y, Track.year t = Some y -> (1000 <= y <= 2099)%Z ->
     exists v,
       Editor.displayValue (Editor.year es) = Some (Some v) /\
       Validators.year v = None /\
       Editor.number_or_null (Some v) = JS.VNum (JS.Num y)).
Proof.
  assert (forall x : option string,
            Editor.displayValue
              (Editor.computeField [t] (fun _ => x) Editor.strict_eq) = Some x) as Hshow.
  { intros x. unfold Editor.computeField, Editor.strict_eq. simpl.
    by rewrite bool_decide_eq_true_2. }
  assert (forall n, (0 <= n)%Z ->
            Editor.number_or_null (Some (JS.String_of n)) = JS.VNum (JS.Num n)) as Hnum.
  { intros n Hn. unfold Editor.number_or_null.
    destruct (DisplayFacts.String_of_digits n Hn) as [[Hne _] _].
    rewrite (DisplayFacts.parseInt_String_of n Hn).
    by destruct (JS.String_of n). }
  intros es. repeat apply conj.
  - intros n Hn Hpos Htot.
    destruct (DisplayFacts.position_shown n (Track.trackTotal t) Hpos Htot)
      as (v & Hv & Hval & Hparse).
    exists v. split; [| split; [by apply ValidatorFacts.trackNumber_valid | done]].
    unfold es, Editor.buildEditState, Editor.trackNumber.
    rewrite <- Hv, <- Hn. apply (Hshow (Editor.positionString _ _)).
  - intros n Hn Hpos Htot.
    destruct (DisplayFacts.position_shown n (Track.discTotal t) Hpos Htot)
      as (v & Hv & Hval & Hparse).
    exists v. split; [| split; [by apply ValidatorFacts.discNumber_valid | done]].
    unfold es, Editor.buildEditState, Editor.discNumber.
    rewrite <- Hv, <- Hn. apply (Hshow (Editor.positionString _ _)).
  - intros n Hn Hpos. exists (JS.String_of n).
    split; [| split; [by apply DisplayFacts.bpm_shown | by apply Hnum]].
    unfold es, Editor.buildEditState, Editor.bpm.
    replace (Some (JS.String_of n)) with (JS.String_of <$> Track.bpm t) by (by rewrite Hn).
    apply (Hshow (JS.String_of <$> Track.bpm t)).
  - intros y Hy Hr. exists (JS.String_of y).
    split; [| split; [by apply DisplayFacts.year_shown | apply Hnum; lia]].
    unfold es, Editor.buildEditState, Editor.year.
    replace (Some (JS.String_of y)) with (JS.String_of <$> Track.year t) by (by rewrite Hy).
    apply (Hshow (JS.String_of <$> Track.year t)).
Qed.

(** The theorem at the track of the fixtures, track 5 of disc 1. *)
Lemma shown_numbers_round_trip_witness :
  exists v,
    Editor.displayValue (Editor.trackNumber (Editor.buildEditState [Scenario.track 1 "Title A"]))
    = Some (Some v) /\
    Validators.trackNumber v = None /\
    Editor.parseTrackDisc (Some v)
    = {| Editor.num := Some (JS.Num 5); Editor.total := None |}.
Proof.
  apply (proj1 (shown_numbers_round_trip (Scenario.track 1 "Title A")) 5%Z eq_refl).
  - lia.
  - intros m Hm. discriminate Hm.
Defined.

(** ** The rows of the extra tags, step by step *)

Module ExtraTagRowFacts.
Import JS Editor ExtraTagRows.

Lemma extraTags_change id val p :
  extraTags (onChangeExtraTag id val p)
  = map (fun t => if bool_decide (frame_id t = id)
                  then {| frame_id := frame_id t; value := val |} else t)
        (extraTags p).
Proof.
  unfold onChangeExtraTag.
  destruct (Validators.FIELD_VALIDATORS id); [destruct (truthy val) |]; done.
Qed.

Lemma ids_change id val p : ids (onChangeExtraTag id val p) = ids p.
Proof.
  unfold ids. rewrite extraTags_change, map_map. apply map_ext.
  intros t. by case_bool_decide.
Qed.

Lemma ids_remove id p :
  ids (onRemoveExtraTag id p) = filter (fun k => k <> id) (ids p).
Proof.
  unfold ids, onRemoveExtraTag. simpl.
  induction (extraTags p) as [| t l IH]; [done |]. simpl.
  destruct (decide (frame_id t = id)) as [Heq | Hne].
  - rewrite !filter_cons_False by (intros H; by apply H). done.
  - rewrite !filter_cons_True by done. simpl. by rewrite IH.
Qed.

Lemma ids_add id p :
  ids (onAddExtraTag id p) = if truthy id then ids p ++ [id] else ids p.
Proof.
  unfold ids, onAddExtraTag. destruct (truthy id); [| done]. simpl.
  by rewrite map_app.
Qed.

Lemma some_false_not_elem id (l : list ExtraTag) :
  existsb (fun t => bool_decide (frame_id t = id)) l = false <-> id ∉ map frame_id l.
Proof.
  induction l as [| t l IH]; simpl.
  - split; [intros _; apply not_elem_of_nil | done].
  - rewrite orb_false_iff, IH, not_elem_of_cons, bool_decide_eq_false. naive_solver.
Qed.

(** An offered id is one of [ADDABLE_FRAMES] that no row has. *)
Lemma elem_of_offered id p :
  id ∈ map fst (offered p) <-> id ∈ map fst ADDABLE_FRAMES /\ id ∉ ids p.
Proof.
  unfold offered, ids. split.
  - intros Hin. apply list_elem_of_fmap in Hin as (f & -> & Hf).
    apply list_elem_of_filter in Hf as [Hno Hf].
    split; [apply list_elem_of_fmap; by exists f | by apply some_false_not_elem].
  - intros [Hin Hno]. apply list_elem_of_fmap in Hin as (f & -> & Hf).
    apply list_elem_of_fmap. exists f. split; [done |].
    apply list_elem_of_filter. split; [by apply some_false_not_elem | done].
Qed.

Lemma ids_step p a :
  NoDup (ids p) -> selectable p a -> NoDup (ids (tag_act p a)).
Proof.
  intros Hnd Hsel. destruct a as [id val | id | id]; simpl.
  - by rewrite ids_change.
  - rewrite ids_remove. by apply NoDup_filter.
  - rewrite ids_add. destruct (truthy id) eqn:Hid; [| done].
    destruct Hsel as [-> | Hoff]; [done |].
    apply elem_of_offered in Hoff as [_ Hfresh].
    apply NoDup_app. split; [done |]. split; [| apply NoDup_singleton].
    intros x Hx Hx'. apply list_elem_of_singleton in Hx' as ->. done.
Qed.

(** The tag handlers leave the session, the records and the flags as
    they are. *)
Lemma tag_act_keeps p a :
  editState (tag_act p a) = editState p /\ errors (tag_act p a) = errors p /\
  saving (tag_act p a) = saving p /\ saved (tag_act p a) = saved p.
Proof.
  destruct a as [id val | id | id]; simpl.
  - unfold onChangeExtraTag.
    destruct (Validators.FIELD_VALIDATORS id); [destruct (truthy val) |]; done.
  - done.
  - unfold onAddExtraTag. by destruct (truthy id).
Qed.

Lemma tag_acts_keep actions : forall p,
  editState (foldl tag_act p actions) = editState p.
Proof.
  induction actions as [| a actions IH]; intros p; simpl; [done |].
  rewrite IH. apply tag_act_keeps.
Qed.

Definition sends_tags (e : Effect) : bool :=
  match e with
  | Invoke (CallSetTrackExtraTags _ _) => true
  | _ => false
  end.

Lemma getTracks_not_tags l :
  filter (fun e => sends_tags e = true) (map (fun i => Invoke (CallGetTrack i)) l) = [].
Proof. by induction l. Qed.

(** The calls of [save] that write extra tags. *)
Lemma save_tags r b p tr es :
  SaveFacts.valid r es ->
  exists rest,
    (save r b p tr).2 = tr ++ rest /\
    filter (fun e => sends_tags e = true) rest
    = match isSingle r, updateTrack b (trackIds r !!! 0%nat) (buildInput es) with
      | true, fulfilled (ok _) =>
          [Invoke (CallSetTrackExtraTags (trackIds r !!! 0%nat) (extraTags r))]
      | _, _ => []
      end.
Proof.
  intros (Hes & Hf & Ht). SaveFacts.open_save.
  rewrite Hes, Hf, Ht, !SaveFacts.no_keys_empty. simpl.
  destruct (isSingle r); simpl.
  - destruct (updateTrack b _ _) as [[u | e] |]; simpl.
    + destruct (setTrackExtraTags b _ _) as [x |]; simpl.
      * destruct (listArtists b) as [[] |], (listAlbums b) as [[] |]; simpl;
          rewrite <- !(assoc_L (++)); eexists; (split; [reflexivity | done]).
      * rewrite <- !(assoc_L (++)); eexists; (split; [reflexivity | done]).
    + destruct (listArtists b) as [[] |], (listAlbums b) as [[] |]; simpl;
        rewrite <- !(assoc_L (++)); eexists; (split; [reflexivity | done]).
    + eexists; (split; [reflexivity | done]).
  - destruct (batchUpdateTracks b _ _) as [x |]; simpl.
    + destruct (all _) as [rs |]; simpl.
      * destruct (listArtists b) as [[] |], (listAlbums b) as [[] |]; simpl;
          rewrite <- !(assoc_L (++)); eexists; (split; [reflexivity |]);
          simpl; rewrite filter_cons_False by done;
          rewrite filter_app, getTracks_not_tags; done.
      * rewrite <- !(assoc_L (++)); eexists; (split; [reflexivity |]).
        simpl. rewrite filter_cons_False by done. apply getTracks_not_tags.
    + eexists; (split; [reflexivity | done]).
Qed.

End ExtraTagRowFacts.

(** X19: the rows of the extra tags keep distinct frame ids.  When no
    two rows share a frame id, a change of a row leaves the ids as they
    are, the removal of a row removes its id and keeps the others in order,
    and the "Add field" select, which offers the frames of
    [ADDABLE_FRAMES] that no row has, appends the chosen id; after each of
    them no two rows share a frame id, and an id that was added is not
    offered again. *)
Theorem tag_rows_stay_distinct (p : Editor.Panel) (a : ExtraTagRows.TagAction) :
  NoDup (ExtraTagRows.ids p) -> ExtraTagRows.selectable p a ->
  NoDup (ExtraTagRows.ids (ExtraTagRows.tag_act p a)) /\
  (forall id val, a = ExtraTagRows.ChangeTag id val ->
     ExtraTagRows.ids (ExtraTagRows.tag_act p a) = ExtraTagRows.ids p) /\
  (forall id, a = ExtraTagRows.RemoveTag id ->
     ExtraTagRows.ids (ExtraTagRows.tag_act p a)
     = filter (fun k => k <> id) (ExtraTagRows.ids p) /\
     id ∉ ExtraTagRows.ids (ExtraTagRows.tag_act p a)) /\
  (forall id, a = ExtraTagRows.AddTag id -> id <> "" ->
     ExtraTagRows.ids (ExtraTagRows.tag_act p a) = ExtraTagRows.ids p ++ [id] /\
     id ∉ map fst (ExtraTagRows.offered (ExtraTagRows.tag_act p a))).
Proof.
  intros Hnd Hsel. split; [by apply ExtraTagRowFacts.ids_step |]. repeat apply conj.
  - intros id val ->. apply ExtraTagRowFacts.ids_change.
  - intros id ->. simpl. rewrite ExtraTagRowFacts.ids_remove. split; [done |].
    intros Hin. by apply list_elem_of_filter in Hin as [Hne _].
  - intros id -> Hid. simpl.
    assert (JS.truthy id = true) as Ht by (by destruct id).
    assert (ExtraTagRows.ids (Editor.onAddExtraTag id p) = ExtraTagRows.ids p ++ [id]) as Hids
      by (by rewrite ExtraTagRowFacts.ids_add, Ht).
    split; [done |]. intros Hoff.
    apply ExtraTagRowFacts.elem_of_offered in Hoff as [_ Hfresh]. apply Hfresh.
    rewrite Hids. apply elem_of_app. right. by apply list_elem_of_singleton.
Qed.

(** The theorem at a track with a TKEY row, to which an ISRC row is
    added. *)
Lemma tag_rows_stay_distinct_witness :
  let p := Editor.setExtraTags [{| Editor.frame_id := "TKEY"; Editor.value := "Am" |}]
             (Scenario.loaded Scenario.refusing [1%Z]) in
  NoDup (ExtraTagRows.ids (Editor.onAddExtraTag "TSRC" p)) /\
  ExtraTagRows.ids (Editor.onAddExtraTag "TSRC" p) = ["TKEY"; "TSRC"].
Proof.
  intros p.
  assert (NoDup (ExtraTagRows.ids p)) as Hnd
    by (eapply bool_decide_unpack; vm_compute; reflexivity).
  assert (ExtraTagRows.selectable p (ExtraTagRows.AddTag "TSRC")) as Hsel
    by (right; eapply bool_decide_unpack; vm_compute; reflexivity).
  split.
  - apply (tag_rows_stay_distinct p (ExtraTagRows.AddTag "TSRC") Hnd Hsel).
  - reflexivity.
Defined.

(** X20: the extra tags cannot be committed on their own.  The tag rows
    do not count as edits: whatever is done to them, the session is left
    as it is, so that on a panel with no edited field the Save and Discard
    buttons stay disabled and a click on Save does nothing; and [discard]
    does not touch the rows. *)
Theorem tag_edits_alone_are_not_saved (p : Editor.Panel)
        (actions : list ExtraTagRows.TagAction) :
  Editor.hasAnyEdit p = false ->
  Editor.editState (foldl ExtraTagRows.tag_act p actions) = Editor.editState p /\
  Editor.saveDisabled (foldl ExtraTagRows.tag_act p actions) = true /\
  Editor.discardDisabled (foldl ExtraTagRows.tag_act p actions) = true /\
  (forall b tr,
     Editor.clickSave b (foldl ExtraTagRows.tag_act p actions) tr
     = (Editor.fulfilled (), foldl ExtraTagRows.tag_act p actions, tr)) /\
  Editor.extraTags (Editor.discard (foldl ExtraTagRows.tag_act p actions))
  = Editor.extraTags (foldl ExtraTagRows.tag_act p actions).
Proof.
  intros Hp. pose proof (ExtraTagRowFacts.tag_acts_keep actions p) as He.
  assert (Editor.hasAnyEdit (foldl ExtraTagRows.tag_act p actions) = false) as Hany
    by (unfold Editor.hasAnyEdit in *; by rewrite He).
  assert (Editor.saveDisabled (foldl ExtraTagRows.tag_act p actions) = true) as Hd
    by (unfold Editor.saveDisabled; by rewrite Hany).
  repeat apply conj; try done.
  - unfold Editor.discardDisabled. by rewrite Hany.
  - intros b tr. unfold Editor.clickSave. by rewrite Hd, andb_false_r.
  - unfold Editor.discard.
    destruct (Editor.editState _); [| done]. by case_bool_decide.
Qed.

(** The theorem at a loaded track to which a Publisher row is added and
    filled in. *)
Lemma tag_edits_alone_are_not_saved_witness :
  let p := foldl ExtraTagRows.tag_act (Scenario.loaded Scenario.refusing [1%Z])
             [ExtraTagRows.AddTag "TPUB"; ExtraTagRows.ChangeTag "TPUB" "Label"] in
  Editor.extraTags p = [{| Editor.frame_id := "TPUB"; Editor.value := "Label" |}] /\
  Editor.saveDisabled p = true.
Proof.
  intros p. split; [reflexivity |].
  apply (tag_edits_alone_are_not_saved (Scenario.loaded Scenario.refusing [1%Z])
           [ExtraTagRows.AddTag "TPUB"; ExtraTagRows.ChangeTag "TPUB" "Label"]).
  reflexivity.
Defined.

(** X21: the extra tags are written only with an accepted update of one
    track.  A click on Save that is let through on a session that passes
    [validate] calls [setTrackExtraTags] once, with the rows of the
    panel, when one track is selected and [updateTrack] answers ok; it
    does not call it when [updateTrack] answers with an error or throws,
    and never when several tracks are selected.  The tags of the panel
    have plain frame ids and the numerals of the session are short. *)
Theorem tags_written_with_accepted_update (b : Editor.Backend) (p : Editor.Panel)
        (tr : list Editor.Effect) (es : Editor.EditState) :
  Editor.rendered p = true -> Editor.saveDisabled p = false -> SaveFacts.valid p es ->
  SaveFacts.plain_tags p -> ValidatedPatch.short_numbers es ->
  exists rest,
    (Editor.clickSave b p tr).2 = tr ++ rest /\
    filter (fun e => ExtraTagRowFacts.sends_tags e = true) rest
    = match Editor.isSingle p,
            Editor.updateTrack b (Editor.trackIds p !!! 0%nat) (Editor.buildInput es) with
      | true, Editor.fulfilled (Editor.ok _) =>
          [Editor.Invoke (Editor.CallSetTrackExtraTags (Editor.trackIds p !!! 0%nat)
                                                      (Editor.extraTags p))]
      | _, _ => []
      end.
Proof.
  intros Hr Hd Hv _ _.
  assert (Editor.clickSave b p tr = Editor.save p b p tr) as ->
    by (unfold Editor.clickSave; by rewrite Hr, Hd).
  by apply ExtraTagRowFacts.save_tags.
Qed.

(** The theorem at a retitled track with a Publisher row, on a backend
    that refuses the update: the row is not written. *)
Lemma tags_written_with_accepted_update_witness :
  let p := Editor.onChangeExtraTag "TPUB" "Label"
             (Editor.onAddExtraTag "TPUB" (Scenario.retitled Scenario.refusing [1%Z])) in
  exists rest,
    (Editor.clickSave Scenario.refusing p []).2 = [] ++ rest /\
    filter (fun e => ExtraTagRowFacts.sends_tags e = true) rest = [].
Proof.
  intros p.
  apply (tags_written_with_accepted_update Scenario.refusing p []
           (Editor.withField Editor.K_title (Editor.edited "New Title")
              (Editor.buildEditState [Scenario.track 1 "Title A"]))).
  - reflexivity.
  - reflexivity.
  - repeat split; reflexivity.
  - repeat constructor. unfold Validators.plain_key.
    eapply bool_decide_unpack. vm_compute. reflexivity.
  - repeat split; intros v Hv; vm_compute in Hv; discriminate Hv.
Defined.

(** ** The duration shown *)

Module DurationFacts.
Import JS Regex Validators ValidatorFacts Duration.

(** The seconds of a minute, padded: two digits with the same value. *)
Lemma padded_seconds s :
  (0 <= s < 60)%Z ->
  String.length (padStart 2 "0" (String_of s)) = 2 /\
  all_chars digit (padStart 2 "0" (String_of s)) /\
  decimalValue (padStart 2 "0" (String_of s)) = s.
Proof.
  intros Hs.
  assert (Forall (fun k =>
                    String.length (padStart 2 "0" (String_of (Z.of_nat k))) = 2 /\
                    forallb digit (chars (padStart 2 "0" (String_of (Z.of_nat k)))) = true /\
                    decimalValue (padStart 2 "0" (String_of (Z.of_nat k))) = Z.of_nat k)
                 (seq 0 60)) as Hall
    by (eapply bool_decide_unpack; vm_compute; reflexivity).
  rewrite Forall_forall in Hall.
  replace s with (Z.of_nat (Z.to_nat s)) by lia.
  apply Hall, elem_of_seq. lia.
Qed.

End DurationFacts.

(** X22: a duration of whole seconds that is not negative is shown as
    [M:SS]: the minutes as a decimal numeral, a colon, and the seconds as
    exactly two digits below 60, with [60 * M + SS] the duration. *)
Theorem formatDuration_minutes_seconds (secs : Z) :
  (0 <= secs)%Z ->
  exists m s,
    Duration.formatDuration (Some secs) = m +:+ ":" +:+ s /\
    ValidatorFacts.digit_string m /\
    String.length s = 2 /\ ValidatorFacts.all_chars Regex.digit s /\
    (Validators.decimalValue s < 60)%Z /\
    (60 * Validators.decimalValue m + Validators.decimalValue s = secs)%Z.
Proof.
  intros Hs.
  assert (0 <= secs / 60)%Z as Hm by (apply Z.div_pos; lia).
  assert (Z.rem secs 60 = secs mod 60)%Z as Hrem by (apply Z.rem_mod_nonneg; lia).
  assert (0 <= secs mod 60 < 60)%Z as Hr by (apply Z.mod_pos_bound; lia).
  destruct (DisplayFacts.String_of_digits _ Hm) as [Hdm Hvm].
  destruct (DurationFacts.padded_seconds (secs mod 60)%Z Hr) as (Hl & Hd & Hv).
  exists (JS.String_of (secs / 60)),
         (Duration.padStart 2 "0" (JS.String_of (secs mod 60))).
  unfold Duration.formatDuration. cbv zeta. rewrite Hrem.
  split; [done |]. split; [done |]. split; [done |]. split; [done |]. split.
  - rewrite Hv. lia.
  - rewrite Hvm, Hv. pose proof (Z.div_mod secs 60). lia.
Qed.

(** The theorem at the 213 seconds of the fixtures. *)
Lemma formatDuration_minutes_seconds_witness :
  exists m s,
    Duration.formatDuration (Some 213%Z) = m +:+ ":" +:+ s /\
    ValidatorFacts.digit_string m /\
    String.length s = 2 /\ ValidatorFacts.all_chars Regex.digit s /\
    (Validators.decimalValue s < 60)%Z /\
    (60 * Validators.decimalValue m + Validators.decimalValue s = 213)%Z.
Proof.
  apply (formatDuration_minutes_seconds 213). lia.
Defined.
